(** * A shallow embedding of the jsframework runtime core

    The development follows two source files of the runtime and what they
    import:
    - [runtime/vdom/Element.ts]: the element tree, its two child
      sequences, the style cascade, attribute writes and [destroy];
    - [runtime/main/model/compiler.ts]: the template compiler, the repeat
      reconciler and [watchBlock];
    - the helpers those files import ([domHelper], [directive], [Node],
      the differ), which appear as parameters or as small models where
      the text says so.

    JavaScript objects that are used through [Object.keys] are association
    lists in insertion order; objects used only through lookup are [gmap]s;
    the heap of nodes is a list indexed by node reference. *)

From Stdlib Require Import ZArith.
From stdpp Require Import base list strings gmap pretty.

Local Open Scope string_scope.
Local Open Scope list_scope.
Local Open Scope Z_scope.

(** ** JavaScript values *)

Module Js.

(** The primitive values that attribute, style and track-by slots hold.
    Numbers are restricted to integers. *)
Inductive Val : Type :=
  | VUndefined
  | VNull
  | VStr (s : string)
  | VNum (n : Z).

#[global] Instance Val_eq_dec : EqDecision Val.
Proof. solve_decision. Defined.

(** [ToBoolean]. *)
Definition truthy (v : Val) : bool :=
  match v with
  | VUndefined | VNull => false
  | VStr s => negb (String.eqb s "")
  | VNum n => negb (n =? 0)
  end.

(** [a === b] on primitives. *)
Definition strict_eq (a b : Val) : bool := bool_decide (a = b).

(** [ToString], as used when a value becomes a property name. *)
Definition to_property_key (v : Val) : string :=
  match v with
  | VUndefined => "undefined"
  | VNull => "null"
  | VStr s => s
  | VNum n => pretty n
  end.

(** An object whose key order is observable: pairs in insertion order,
    every key at most once. *)
Definition Obj : Type := list (string * Val).

Fixpoint obj_lookup (o : Obj) (k : string) : option Val :=
  match o with
  | [] => None
  | (k', v) :: o' => if String.eqb k' k then Some v else obj_lookup o' k
  end.

(** [o[k]]: a missing property reads as [undefined]. *)
Definition obj_get (o : Obj) (k : string) : Val :=
  default VUndefined (obj_lookup o k).

(** [o[k] = v]: an existing key keeps its place, a new key goes last. *)
Fixpoint obj_set (o : Obj) (k : string) (v : Val) : Obj :=
  match o with
  | [] => [(k, v)]
  | (k', v') :: o' =>
      if String.eqb k' k then (k', v) :: o' else (k', v') :: obj_set o' k v
  end.

(** [Object.keys(o)]. *)
Definition obj_keys (o : Obj) : list string := o.*1.

(** [Object.assign(target, source)]. *)
Definition obj_assign (target source : Obj) : Obj :=
  foldl (fun acc kv => obj_set acc kv.1 kv.2) target source.

(** The property names every plain object inherits from
    [Object.prototype].  Reading one of them from an object that has no own
    property of that name yields the inherited member, which is truthy and
    has none of the properties the code below stores in its maps. *)
Definition protoMember (k : string) : bool :=
  bool_decide (k ∈ ["constructor"; "__defineGetter__"; "__defineSetter__";
                    "hasOwnProperty"; "__lookupGetter__"; "__lookupSetter__";
                    "isPrototypeOf"; "propertyIsEnumerable"; "toString";
                    "valueOf"; "__proto__"; "toLocaleString"]).

(** [Array.prototype.sort(comparefn)] as V8 runs it on an array of fewer
    than 64 elements, none of them [undefined]: the leading run is counted
    and, when it descends, reversed; then every later element is placed by
    binary insertion.  The comparator is always called with the later
    element first.  The comparator of [assignStyle] is not a consistent
    order, for which the language leaves the result to the engine, so the
    calls are modelled one by one. *)

(** [CountAndMakeRun]: the run is extended while the order of each element
    to its predecessor agrees with that of the first two.  The run is kept
    with its last element first. *)
Fixpoint count_run {A} (cmp : A -> A -> Z) (descending : bool) (previous : A)
    (run_rev rest : list A) : list A * list A :=
  match rest with
  | [] => (run_rev, [])
  | current :: rest' =>
      let order := cmp current previous in
      if (if descending then 0 <=? order else order <? 0) then (run_rev, rest)
      else count_run cmp descending current (current :: run_rev) rest'
  end.

(** The binary search of [BinaryInsertionSort] between [left] and [right]:
    [order < 0] moves [right] to the middle, anything else moves [left]
    past it. *)
Fixpoint insertion_point {A} (cmp : A -> A -> Z) (pivot : A) (sorted : list A)
    (fuel left right : nat) : nat :=
  match fuel with
  | O => left
  | S fuel' =>
      if (left <? right)%nat then
        let mid := (left + (right - left) / 2)%nat in
        match sorted !! mid with
        | Some element =>
            if cmp pivot element <? 0
            then insertion_point cmp pivot sorted fuel' left mid
            else insertion_point cmp pivot sorted fuel' (S mid) right
        | None => left
        end
      else left
  end.

(** One step of [BinaryInsertionSort]: the pivot enters the sorted prefix
    at the position the search ends on. *)
Definition sort_insert {A} (cmp : A -> A -> Z) (sorted : list A) (pivot : A) : list A :=
  let i := insertion_point cmp pivot sorted (S (length sorted)) 0 (length sorted) in
  take i sorted ++ pivot :: drop i sorted.

Definition array_sort {A} (cmp : A -> A -> Z) (l : list A) : list A :=
  match l with
  | first :: second :: rest =>
      let descending := cmp second first <? 0 in
      let counted := count_run cmp descending second [second; first] rest in
      let run := if descending then counted.1 else rev counted.1 in
      foldl (sort_insert cmp) run counted.2
  | _ => l
  end.

(** Array helpers with JavaScript's index conventions. *)
Fixpoint index_from {A} `{EqDecision A} (l : list A) (x : A) (i : Z) : Z :=
  match l with
  | [] => -1
  | y :: l' => if decide (y = x) then i else index_from l' x (i + 1)
  end.

(** [l.indexOf(x)]. *)
Definition index_of {A} `{EqDecision A} (l : list A) (x : A) : Z :=
  index_from l x 0.

(** [l.indexOf(x)] where [x] may be [undefined], which no array here holds. *)
Definition index_of_opt {A} `{EqDecision A} (l : list A) (x : option A) : Z :=
  match x with
  | Some y => index_of l y
  | None => -1
  end.

(** [l[i]]: [undefined] outside the array. *)
Definition nth_z {A} (l : list A) (i : Z) : option A :=
  if i <? 0 then None else l !! Z.to_nat i.

(** The start position [splice] really uses: negative counts from the end,
    and the result is clamped to the array. *)
Definition splice_start {A} (l : list A) (start : Z) : nat :=
  let len := Z.of_nat (length l) in
  if start <? 0 then Z.to_nat (Z.max (len + start) 0)
  else Z.to_nat (Z.min start len).

(** [l.splice(start, 0, x)]. *)
Definition splice_insert {A} (l : list A) (start : Z) (x : A) : list A :=
  let i := splice_start l start in
  take i l ++ x :: drop i l.

(** [l.splice(start, 1)]. *)
Definition splice_remove {A} (l : list A) (start : Z) : list A :=
  let i := splice_start l start in
  take i l ++ drop (S i) l.

End Js.

(** ** The style cascade ([Element.toStyle], [Element.assignStyle]) *)

Module Style.
Import Js.

(** The comparator handed to [keys.sort] in [assignStyle]; it looks at its
    first argument only. *)
Definition styleCmp (dest : Obj) (style1 style2 : string) : Z :=
  if strict_eq (obj_get dest style1) (VStr "") then 1 else -1.

(** The [while (i--)] loop of [assignStyle] over the keys it still has to
    visit, last key first.  The [return] inside the loop ends the whole
    call: the keys not yet visited are left out. *)
Fixpoint assignLoop (dest : Obj) (pending : list string) (src : Obj) : Obj :=
  match pending with
  | [] => src
  | key :: rest =>
      let val := obj_get dest key in
      if truthy val then assignLoop dest rest (obj_set src key val)
      else if (strict_eq val (VStr "") || strict_eq val VUndefined)
              && truthy (obj_get src key)
      then src
      else assignLoop dest rest (obj_set src key val)
  end.

(** [assignStyle(src, dest)]: the properties of [dest] are written into
    [src]; the result is [src] after the call. *)
Definition assignStyle (src dest : Obj) : Obj :=
  assignLoop dest (rev (array_sort (styleCmp dest) (obj_keys dest))) src.

(** [toStyle()] on the four layers of a live element. *)
Definition toStyle (tagStyle classStyle idStyle style : Obj) : Obj :=
  let s0 := obj_assign [] tagStyle in
  let s1 := assignStyle s0 classStyle in
  let s2 := assignStyle s1 idStyle in
  assignStyle s2 style.

(** What the loop would compute with [continue] in place of [return]:
    the merge rule in the words of the specification (a later layer's
    property wins unless it is empty or undefined and the property already
    has a value). *)
Fixpoint mergeLoop (dest : Obj) (pending : list string) (src : Obj) : Obj :=
  match pending with
  | [] => src
  | key :: rest =>
      let val := obj_get dest key in
      if truthy val then mergeLoop dest rest (obj_set src key val)
      else if (strict_eq val (VStr "") || strict_eq val VUndefined)
              && truthy (obj_get src key)
      then mergeLoop dest rest src
      else mergeLoop dest rest (obj_set src key val)
  end.

Definition mergeLayer (src dest : Obj) : Obj :=
  mergeLoop dest (rev (array_sort (styleCmp dest) (obj_keys dest))) src.

Definition cascade (tagStyle classStyle idStyle style : Obj) : Obj :=
  mergeLayer (mergeLayer (mergeLayer (obj_assign [] tagStyle) classStyle) idStyle) style.

(** The four layers of the worked example. *)
Definition ex_tag : Obj := [("color", VStr "red")].
Definition ex_class : Obj := [("color", VStr ""); ("margin", VStr "1")].
Definition ex_id : Obj := [].
Definition ex_inline : Obj := [("color", VStr "blue")].

End Style.


(** ** The node heap ([vdom/Node], [vdom/Element], [vdom/Comment]) *)

Module Vdom.
Import Js.

(** The fields of the base class [Node] that the tree operations read and
    write.  References are indices into the heap; [None] is [null] or
    [undefined]. *)
Record NodeBase : Type := mkBase {
  parentNode : option nat;
  previousSibling : option nat;
  nextSibling : option nat;
  docId : option nat;
  ownerDocument : option nat;
  depth : Z
}.

(** The fields [Element] adds.  [destroy] nulls most of them, so they are
    optional; [destroyHook] records whether a hook closure is installed.
    The event table is left out: no operation modelled here reads it. *)
Record ElementData : Type := mkElement {
  attr : option Obj;
  style : option Obj;
  classStyle : Obj;
  idStyle : option Obj;
  tagStyle : option Obj;
  classList : option (list string);
  children : option (list nat);
  pureChildren : option (list nat);
  destroyHook : bool
}.

(** [Node.NodeType.Element] and [Node.NodeType.Comment]. *)
Inductive Node : Type :=
  | Element (b : NodeBase) (e : ElementData)
  | Comment (b : NodeBase).

Definition base (n : Node) : NodeBase :=
  match n with Element b _ => b | Comment b => b end.

Definition isElement (n : Node) : bool :=
  match n with Element _ _ => true | Comment _ => false end.

Definition withBase (f : NodeBase -> NodeBase) (n : Node) : Node :=
  match n with
  | Element b e => Element (f b) e
  | Comment b => Comment (f b)
  end.

Definition set_parentNode (v : option nat) (b : NodeBase) : NodeBase :=
  mkBase v (previousSibling b) (nextSibling b) (docId b) (ownerDocument b) (depth b).
Definition set_previousSibling (v : option nat) (b : NodeBase) : NodeBase :=
  mkBase (parentNode b) v (nextSibling b) (docId b) (ownerDocument b) (depth b).
Definition set_nextSibling (v : option nat) (b : NodeBase) : NodeBase :=
  mkBase (parentNode b) (previousSibling b) v (docId b) (ownerDocument b) (depth b).
Definition set_doc (d o : option nat) (b : NodeBase) : NodeBase :=
  mkBase (parentNode b) (previousSibling b) (nextSibling b) d o (depth b).
Definition set_depth (dp : Z) (b : NodeBase) : NodeBase :=
  mkBase (parentNode b) (previousSibling b) (nextSibling b) (docId b) (ownerDocument b) dp.

Definition set_attr (v : option Obj) (e : ElementData) : ElementData :=
  mkElement v (style e) (classStyle e) (idStyle e) (tagStyle e) (classList e)
            (children e) (pureChildren e) (destroyHook e).
Definition set_style (v : option Obj) (e : ElementData) : ElementData :=
  mkElement (attr e) v (classStyle e) (idStyle e) (tagStyle e) (classList e)
            (children e) (pureChildren e) (destroyHook e).
Definition set_classList (v : option (list string)) (e : ElementData) : ElementData :=
  mkElement (attr e) (style e) (classStyle e) (idStyle e) (tagStyle e) v
            (children e) (pureChildren e) (destroyHook e).
Definition set_children (v : option (list nat)) (e : ElementData) : ElementData :=
  mkElement (attr e) (style e) (classStyle e) (idStyle e) (tagStyle e) (classList e)
            v (pureChildren e) (destroyHook e).
Definition set_pureChildren (v : option (list nat)) (e : ElementData) : ElementData :=
  mkElement (attr e) (style e) (classStyle e) (idStyle e) (tagStyle e) (classList e)
            (children e) v (destroyHook e).
Definition set_destroyHook (v : bool) (e : ElementData) : ElementData :=
  mkElement (attr e) (style e) (classStyle e) (idStyle e) (tagStyle e) (classList e)
            (children e) (pureChildren e) v.

(** The messages [taskCenter.send('dom', {action}, args)] carries.  The
    serialised subtree of [addElement] is represented by the reference of
    its root. *)
Inductive Msg : Type :=
  | AddElement (parentRef element : nat) (index : Z)
  | MoveElement (element parentRef : nat) (index : Z)
  | RemoveElement (element : nat)
  | UpdateAttrs (element : nat) (changed : Obj)
  | UpdateStyle (element : nat) (styles : Obj).

(** What the operations need of a [Document]: whether it has a task
    center, and the node references registered in its [nodeMap]. *)
Record Document : Type := mkDocument {
  taskCenter : bool;
  nodeMap : list nat
}.

(** The mutable world of the tree operations: the nodes, the documents,
    the messages sent to the native side (oldest first) and the elements
    whose [destroyHook] has been run (oldest first). *)
Record Store : Type := mkStore {
  heap : list Node;
  docs : list Document;
  sent : list Msg;
  hooksRun : list nat
}.

Definition set_heap (h : list Node) (st : Store) : Store :=
  mkStore h (docs st) (sent st) (hooksRun st).
Definition set_docs (d : list Document) (st : Store) : Store :=
  mkStore (heap st) d (sent st) (hooksRun st).

(** A call ends normally, throws a [TypeError] (a property of [null] or
    [undefined] was used), or does not end (a walk along sibling or child
    references that exceeds the number of nodes has entered a cycle). *)
Inductive Outcome (A : Type) : Type :=
  | Done (a : A) (st : Store)
  | Throw (st : Store)
  | Diverge.
Arguments Done {A} a st.
Arguments Throw {A} st.
Arguments Diverge {A}.

Definition M (A : Type) : Type := Store -> Outcome A.

Definition ret {A} (a : A) : M A := fun st => Done a st.

Definition bind {A B} (m : M A) (k : A -> M B) : M B :=
  fun st =>
    match m st with
    | Done a st' => k a st'
    | Throw st' => Throw st'
    | Diverge => Diverge
    end.

#[global] Instance M_ret : MRet M := @ret.
#[global] Instance M_bind : MBind M := fun A B k m => bind m k.

Definition gets {A} (f : Store -> A) : M A := fun st => Done (f st) st.
Definition throw {A} : M A := fun st => Throw st.
Definition diverge {A} : M A := fun _ => Diverge.

Definition when (b : bool) (m : M unit) : M unit := if b then m else ret tt.

Fixpoint forEach {A} (l : list A) (f : A -> M unit) : M unit :=
  match l with
  | [] => ret tt
  | x :: l' => f x ;; forEach l' f
  end.

(** Dereferencing. *)
Definition getNode (i : nat) : M Node :=
  fun st => match heap st !! i with
            | Some n => Done n st
            | None => Throw st
            end.

Definition putNode (i : nat) (n : Node) : M unit :=
  fun st => Done tt (set_heap (<[i := n]> (heap st)) st).

Definition getElement (i : nat) : M ElementData :=
  n ← getNode i;
  match n with
  | Element _ e => ret e
  | Comment _ => throw
  end.

Definition updBase (i : nat) (f : NodeBase -> NodeBase) : M unit :=
  n ← getNode i; putNode i (withBase f n).

Definition updElement (i : nat) (f : ElementData -> ElementData) : M unit :=
  n ← getNode i;
  match n with
  | Element b e => putNode i (Element b (f e))
  | Comment _ => throw
  end.

(** [x && (x.field = v)] on a possibly undefined neighbour. *)
Definition updBaseOpt (o : option nat) (f : NodeBase -> NodeBase) : M unit :=
  match o with
  | Some i => updBase i f
  | None => ret tt
  end.

(** The array an index operation works on: [_pureChildren] or [_children]. *)
Definition getList (isInPureChildren : bool) (this : nat) : M (list nat) :=
  e ← getElement this;
  match (if isInPureChildren then pureChildren e else children e) with
  | Some l => ret l
  | None => throw
  end.

Definition putList (isInPureChildren : bool) (this : nat) (l : list nat) : M unit :=
  updElement this
    (if isInPureChildren then set_pureChildren (Some l) else set_children (Some l)).

Definition send (m : Msg) : M unit :=
  fun st => Done tt (mkStore (heap st) (docs st) (sent st ++ [m]) (hooksRun st)).

Definition runHook (i : nat) : M unit :=
  fun st => Done tt (mkStore (heap st) (docs st) (sent st) (hooksRun st ++ [i])).

(** Whether the owner document of a node exists and has a task center. *)
Definition taskCenterOf (st : Store) (b : NodeBase) : bool :=
  match ownerDocument b with
  | Some d => default false (taskCenter <$> docs st !! d)
  | None => false
  end.

(** [getTaskCenter], as far as its callers use it: is there a task center. *)
Definition getTaskCenter (this : nat) : M bool :=
  n ← getNode this; gets (fun st => taskCenterOf st (base n)).

(** [doc.nodeMap[node.nodeId] = node]. *)
Definition registerIn (doc : option nat) (node : nat) : M unit :=
  fun st =>
    match doc with
    | Some d =>
        match docs st !! d with
        | Some dc =>
            let nm := if bool_decide (node ∈ nodeMap dc) then nodeMap dc
                      else nodeMap dc ++ [node] in
            Done tt (set_docs (<[d := mkDocument (taskCenter dc) nm]> (docs st)) st)
        | None => Throw st
        end
    | None => Throw st
    end.

(** [registerNode]. *)
Definition registerNode (this node : nat) : M unit :=
  n ← getNode this; registerIn (ownerDocument (base n)) node.

(** *** Index operations on the two child arrays *)

(** [insertIndex(target, newIndex, {changeSibling, isInPureChildren})]. *)
Definition insertIndex (this target : nat) (newIndex : Z)
    (changeSibling isInPureChildren : bool) : M Z :=
  list ← getList isInPureChildren this;
  let newIndex := if newIndex <? 0 then 0 else newIndex in
  let before := nth_z list (newIndex - 1) in
  let after := nth_z list newIndex in
  putList isInPureChildren this (splice_insert list newIndex target);;
  when changeSibling
    (updBaseOpt before (set_nextSibling (Some target));;
     updBase target (set_previousSibling before);;
     updBase target (set_nextSibling after);;
     updBaseOpt after (set_previousSibling (Some target)));;
  ret newIndex.

(** [moveIndex(target, newIndex, {changeSibling, isInPureChildren})]. *)
Definition moveIndex (this target : nat) (newIndex : Z)
    (changeSibling isInPureChildren : bool) : M Z :=
  list ← getList isInPureChildren this;
  let index := index_of list target in
  if index <? 0 then ret (-1)
  else
    when changeSibling
      (let before := nth_z list (index - 1) in
       let after := nth_z list (index + 1) in
       updBaseOpt before (set_nextSibling after);;
       updBaseOpt after (set_previousSibling before));;
    let list1 := splice_remove list index in
    putList isInPureChildren this list1;;
    let newIndexAfter := if index <=? newIndex then newIndex - 1 else newIndex in
    let beforeNew := nth_z list1 (newIndexAfter - 1) in
    let afterNew := nth_z list1 newIndexAfter in
    putList isInPureChildren this (splice_insert list1 newIndexAfter target);;
    when changeSibling
      (updBaseOpt beforeNew (set_nextSibling (Some target));;
       updBase target (set_previousSibling beforeNew);;
       updBase target (set_nextSibling afterNew);;
       updBaseOpt afterNew (set_previousSibling (Some target)));;
    if index =? newIndexAfter then ret (-1) else ret newIndex.

(** [removeIndex(target, {changeSibling, isInPureChildren})]. *)
Definition removeIndex (this target : nat)
    (changeSibling isInPureChildren : bool) : M unit :=
  list ← getList isInPureChildren this;
  let index := index_of list target in
  if index <? 0 then ret tt
  else
    when changeSibling
      (let before := nth_z list (index - 1) in
       let after := nth_z list (index + 1) in
       updBaseOpt before (set_nextSibling after);;
       updBaseOpt after (set_previousSibling before));;
    putList isInPureChildren this (splice_remove list index).

(** The [while (node)] loops of [nextElement] and [previousElement]:
    follow one sibling reference until an element is met. *)
Fixpoint siblingWalk (step : NodeBase -> option nat) (fuel : nat)
    (node : option nat) : M (option nat) :=
  match node with
  | None => ret None
  | Some i =>
      match fuel with
      | O => diverge
      | S fuel' =>
          n ← getNode i;
          if isElement n then ret (Some i)
          else siblingWalk step fuel' (step (base n))
      end
  end.

Definition heapFuel : M nat := gets (fun st => S (length (heap st))).

(** [nextElement(node)]. *)
Definition nextElement (node : option nat) : M (option nat) :=
  fuel ← heapFuel; siblingWalk nextSibling fuel node.

(** [previousElement(node)]. *)
Definition previousElement (node : option nat) : M (option nat) :=
  fuel ← heapFuel; siblingWalk previousSibling fuel node.

(** [linkChild(child)], with the recursion into the grandchildren. *)
Fixpoint linkChild_go (fuel : nat) (this child : nat) : M unit :=
  match fuel with
  | O => diverge
  | S fuel' =>
      updBase child (set_parentNode (Some this));;
      t ← getNode this;
      match docId (base t) with
      | Some d =>
          updBase child (set_doc (Some d) (ownerDocument (base t)));;
          registerIn (ownerDocument (base t)) child;;
          updBase child (set_depth (depth (base t) + 1))
      | None => ret tt
      end;;
      c ← getNode child;
      match c with
      | Element _ e =>
          match children e with
          | Some l => forEach l (linkChild_go fuel' child)
          | None => throw
          end
      | Comment _ => ret tt
      end
  end.

Definition linkChild (this child : nat) : M unit :=
  fuel ← heapFuel; linkChild_go fuel this child.

(** *** [destroy] *)

(** Modelled from the spec: [Node.destroy] of [vdom/Node.ts], which is not
    among the sources.  The specification describes the parent and sibling
    references as weak back-references and asks that a destroyed node have
    its resources nulled out: the base class drops the document membership
    and the parent and sibling references of the node. *)
Definition Node_destroy (this : nat) : M unit :=
  updBase this (fun b => mkBase None None None None None (depth b)).

(** [Element.destroy()].  A comment node has the base-class [destroy]. *)
Fixpoint destroy_go (fuel : nat) (this : nat) : M unit :=
  match fuel with
  | O => diverge
  | S fuel' =>
      n ← getNode this;
      match n with
      | Comment _ => Node_destroy this
      | Element _ _ =>
          updElement this (fun e =>
            mkElement None None [] None None (classList e)
                      (children e) (pureChildren e) (destroyHook e));;
          e ← getElement this;
          match classList e with
          | Some _ => updElement this (set_classList (Some []))
          | None => throw
          end;;
          updElement this (set_classList None);;
          when (destroyHook e)
            (runHook this;; updElement this (set_destroyHook false));;
          e1 ← getElement this;
          match children e1 with
          | Some l =>
              forEach l (destroy_go fuel');;
              updElement this (set_children None)
          | None => ret tt
          end;;
          e2 ← getElement this;
          when (bool_decide (is_Some (pureChildren e2)))
            (updElement this (set_pureChildren None));;
          Node_destroy this
      end
  end.

Definition destroy (this : nat) : M unit :=
  fuel ← heapFuel; destroy_go fuel this.

(** *** Structural operations *)

(** [node.parentNode && node.parentNode !== this]. *)
Definition foreignParent (this : nat) (n : Node) : bool :=
  match parentNode (base n) with
  | Some p => bool_decide (p ≠ this)
  | None => false
  end.

Definition hasParent (n : Node) : bool :=
  bool_decide (is_Some (parentNode (base n))).

Definition hasDoc (this : nat) : M bool :=
  t ← getNode this; ret (bool_decide (is_Some (docId (base t)))).

Definition lengthOf (isInPureChildren : bool) (this : nat) : M Z :=
  l ← getList isInPureChildren this; ret (Z.of_nat (length l)).

(** [appendChild(node)]. *)
Definition appendChild (this node : nat) : M unit :=
  n ← getNode node;
  if foreignParent this n then ret tt
  else if negb (hasParent n) then
    linkChild this node;;
    len ← lengthOf false this;
    insertIndex this node len true false;;
    d ← hasDoc this;
    when d (registerNode this node);;
    when (isElement n)
      (plen ← lengthOf true this;
       insertIndex this node plen false true;;
       tc ← getTaskCenter this;
       when tc (send (AddElement this node (-1))))
  else
    len ← lengthOf false this;
    moveIndex this node len true false;;
    when (isElement n)
      (plen ← lengthOf true this;
       index ← moveIndex this node plen false true;
       tc ← getTaskCenter this;
       when (tc && (0 <=? index)) (send (MoveElement node this index))).

(** The position in [pureChildren] in front of [pureBefore], or the end. *)
Definition pureIndexBefore (this : nat) (pureBefore : option nat) : M Z :=
  pl ← getList true this;
  match pureBefore with
  | Some pb => ret (index_of pl pb)
  | None => ret (Z.of_nat (length pl))
  end.

(** [insertBefore(node, before)]. *)
Definition insertBefore (this node before : nat) : M unit :=
  n ← getNode node;
  if foreignParent this n then ret tt
  else if bool_decide (node = before)
          || bool_decide (nextSibling (base n) = Some before) then ret tt
  else
    l ← getList false this;
    if index_of l before <? 0 then ret tt
    else if negb (hasParent n) then
      linkChild this node;;
      l1 ← getList false this;
      insertIndex this node (index_of l1 before) true false;;
      d ← hasDoc this;
      when d (registerNode this node);;
      when (isElement n)
        (pureBefore ← nextElement (Some before);
         pos ← pureIndexBefore this pureBefore;
         index ← insertIndex this node pos false true;
         tc ← getTaskCenter this;
         when tc (send (AddElement this node index)))
    else
      l1 ← getList false this;
      moveIndex this node (index_of l1 before) true false;;
      when (isElement n)
        (pureBefore ← nextElement (Some before);
         pos ← pureIndexBefore this pureBefore;
         index ← moveIndex this node pos false true;
         tc ← getTaskCenter this;
         when (tc && (0 <=? index)) (send (MoveElement node this index))).

(** [this.pureChildren.indexOf(this.previousElement(after)) + 1]. *)
Definition pureIndexAfter (this after : nat) : M Z :=
  prev ← previousElement (Some after);
  pl ← getList true this;
  ret (index_of_opt pl prev + 1).

(** [insertAfter(node, after)]. *)
Definition insertAfter (this node after : nat) : M unit :=
  n ← getNode node;
  if foreignParent this n then ret tt
  else if bool_decide (node = after)
          || bool_decide (previousSibling (base n) = Some after) then ret tt
  else if negb (hasParent n) then
    linkChild this node;;
    l ← getList false this;
    insertIndex this node (index_of l after + 1) true false;;
    d ← hasDoc this;
    when d (registerNode this node);;
    when (isElement n)
      (pos ← pureIndexAfter this after;
       index ← insertIndex this node pos false true;
       tc ← getTaskCenter this;
       when tc (send (AddElement this node index)))
  else
    l ← getList false this;
    moveIndex this node (index_of l after + 1) true false;;
    when (isElement n)
      (pos ← pureIndexAfter this after;
       index ← moveIndex this node pos false true;
       tc ← getTaskCenter this;
       when (tc && (0 <=? index)) (send (MoveElement node this index))).

(** [removeChild(node, preserved)]. *)
Definition removeChild (this node : nat) (preserved : bool) : M unit :=
  n ← getNode node;
  when (hasParent n)
    (removeIndex this node true false;;
     when (isElement n)
       (removeIndex this node false true;;
        tc ← getTaskCenter this;
        when tc (send (RemoveElement node))));;
  when (negb preserved) (destroy node).

(** *** Attributes and styles *)

(** [setAttr(key, value, silent)]. *)
Definition setAttr (this : nat) (key : string) (value : Val) (silent : bool) : M unit :=
  e ← getElement this;
  match attr e with
  | None => throw
  | Some a =>
      if strict_eq (obj_get a key) value && silent then ret tt
      else
        updElement this (set_attr (Some (obj_set a key value)));;
        tc ← getTaskCenter this;
        when (negb silent && tc) (send (UpdateAttrs this [(key, value)]))
  end.

(** [toStyle()] on an element of the heap; [Object.keys] of a nulled layer
    throws. *)
Definition toStyle (this : nat) : M Obj :=
  e ← getElement this;
  match idStyle e, style e with
  | Some i, Some s =>
      ret (Style.toStyle (default [] (tagStyle e)) (classStyle e) i s)
  | _, _ => throw
  end.

(** [setStyle(key, value, silent)]. *)
Definition setStyle (this : nat) (key : string) (value : Val) (silent : bool) : M unit :=
  e ← getElement this;
  match style e with
  | None => throw
  | Some s =>
      if strict_eq (obj_get s key) value && silent then ret tt
      else
        updElement this (set_style (Some (obj_set s key value)));;
        tc ← getTaskCenter this;
        when (negb silent && tc)
          (resolved ← toStyle this; send (UpdateStyle this resolved))
  end.

(** *** Sample heaps *)

Definition newBase : NodeBase := mkBase None None None None None 0.

Definition newElementData : ElementData :=
  mkElement (Some []) (Some []) [] (Some []) (Some []) (Some [])
            (Some []) (Some []) false.

(** [new Element()], [new Comment()], and an element that already belongs
    to document 0 and carries a destroy hook. *)
Definition newElement : Node := Element newBase newElementData.
Definition newComment : Node := Comment newBase.
Definition attachedElement : Node :=
  Element (mkBase None None None (Some 0%nat) (Some 0%nat) 0)
          (set_destroyHook true newElementData).

(** A parent (reference 0) in a document with a task center, and three
    detached nodes: element 1, comment 2, element 3. *)
Definition sampleStore : Store :=
  mkStore [attachedElement; newElement; newComment; newElement]
          [mkDocument true []] [] [].

(** The store a call leaves behind, whatever its outcome. *)
Definition exec {A} (m : M A) (st : Store) : Store :=
  match m st with
  | Done _ st' => st'
  | Throw st' => st'
  | Diverge => st
  end.

(** Parent 0 with children [1; 2; 3], built by three [appendChild] calls. *)
Definition populatedStore : Store :=
  exec (appendChild 0 1;; appendChild 0 2;; appendChild 0 3) sampleStore.

(** The element-typed members of a child array, in order. *)
Definition elementsOf (st : Store) (l : list nat) : list nat :=
  filter (fun i => default false (isElement <$> heap st !! i) = true) l.

Definition childrenOf (st : Store) (i : nat) : option (list nat) :=
  match heap st !! i with
  | Some (Element _ e) => children e
  | _ => None
  end.

Definition pureChildrenOf (st : Store) (i : nat) : option (list nat) :=
  match heap st !! i with
  | Some (Element _ e) => pureChildren e
  | _ => None
  end.

Definition attrOf (st : Store) (i : nat) : option Obj :=
  match heap st !! i with
  | Some (Element _ e) => attr e
  | _ => None
  end.

(** The invariant relating the two child arrays of element [i]. *)
Definition pureInvariant (st : Store) (i : nat) : Prop :=
  match childrenOf st i, pureChildrenOf st i with
  | Some c, Some p => p = elementsOf st c
  | _, _ => True
  end.


(** The three operations that insert a node, as data. *)
Inductive TreeOp : Type :=
  | Append (this node : nat)
  | Before (this node before : nat)
  | After (this node after : nat).

Definition runOp (op : TreeOp) : M unit :=
  match op with
  | Append this node => appendChild this node
  | Before this node before => insertBefore this node before
  | After this node after => insertAfter this node after
  end.

(** The situations in which an insertion is refused: the node has a parent
    other than the receiver; the node is the reference node; the node's
    sibling reference on the relevant side is the reference node; the
    reference node of [insertBefore] is not a child of the receiver. *)
Inductive Refused (st : Store) : TreeOp → Prop :=
  | foreign_append this node n p :
      heap st !! node = Some n → parentNode (base n) = Some p → p ≠ this →
      Refused st (Append this node)
  | foreign_before this node before n p :
      heap st !! node = Some n → parentNode (base n) = Some p → p ≠ this →
      Refused st (Before this node before)
  | foreign_after this node after n p :
      heap st !! node = Some n → parentNode (base n) = Some p → p ≠ this →
      Refused st (After this node after)
  | same_before this node n :
      heap st !! node = Some n → Refused st (Before this node node)
  | same_after this node n :
      heap st !! node = Some n → Refused st (After this node node)
  | adjacent_before this node before n :
      heap st !! node = Some n → nextSibling (base n) = Some before →
      Refused st (Before this node before)
  | adjacent_after this node after n :
      heap st !! node = Some n → previousSibling (base n) = Some after →
      Refused st (After this node after)
  | missing_before this node before n l :
      heap st !! node = Some n → childrenOf st this = Some l → before ∉ l →
      Refused st (Before this node before).

(** A second parent (reference 4) next to the populated one, for calls on
    a receiver that is not the node's parent. *)
Definition twoParents : Store :=
  mkStore (heap populatedStore ++ [newElement]) (docs populatedStore)
          (sent populatedStore) (hooksRun populatedStore).

End Vdom.

(** ** The repeat reconciler (the [watchBlock] handler of [bindRepeat]) *)

Module Repeat.
Import Js.

(** An item of the repeated sequence: a primitive number or string, or an
    object with an identity and properties. *)
Inductive Item : Type :=
  | ItemNum (n : Z)
  | ItemStr (s : string)
  | ItemObj (ref : nat) (props : Obj).

(** [item[name]]; the track-by name is taken not to be a built-in property
    of strings or numbers. *)
Definition item_get (item : Item) (name : Val) : Val :=
  match item with
  | ItemObj _ props => obj_get props (to_property_key name)
  | _ => VUndefined
  end.

(** [a === b] on items: objects by identity, primitives by value. *)
Definition item_same (a b : Item) : bool :=
  match a, b with
  | ItemNum n, ItemNum m => bool_decide (n = m)
  | ItemStr s, ItemStr t => bool_decide (s = t)
  | ItemObj r _, ItemObj r' _ => bool_decide (r = r')
  | _, _ => false
  end.

(** [fragBlock.updateMark]: the start marker, or the last placed target. *)
Inductive Mark : Type :=
  | Start
  | After (target : option nat).

(** The calls the handler makes into [domHelper] and back into [compile]. *)
Inductive Call : Type :=
  | RemoveTarget (target : option nat)
  | MoveTarget (target : option nat) (mark : option Mark)
  | CompileItem (vm : nat) (item : Item) (index : nat).


(** An entry of [reusedMap]. *)
Record Reused : Type := mkReused {
  r_item : Item;
  r_index : nat;
  r_key : Val;
  r_target : option nat;
  r_vm : option nat
}.

(** [trackMap] and [reusedMap] are plain objects used as maps: a key is
    stored and read under its property name.  [trackMap] is only asked
    with [hasOwn]; [reusedMap[key]] is read through the prototype chain
    (see [placeItem]).  A key with the name [__proto__], which an
    assignment does not store as a property, is outside the model.

    Everything the handler reads and writes: the three index-aligned
    arrays of the block and its update mark, the item contexts
    ([vm[valueName]] and [vm[keyName]] per context), the next context that
    [mergeContext] creates, and the calls made so far (oldest first).
    An array slot holding [undefined] is [None]. *)
Record Run : Type := mkRun {
  children : list (option nat);
  vms : list nat;
  data : list Item;
  updateMark : option Mark;
  scope : gmap nat (Item * nat);
  nextVm : nat;
  calls : list Call
}.

(** [l.forEach((item, index) => ...)] visits these pairs in order. *)
Definition indexed {A} (l : list A) : list (nat * A) :=
  imap (fun i x => (i, x)) l.

(** Modelled from the spec: [hasOwn] of [utils], which is not among the
    sources: "every previous item whose key exists in the new mapping".
    A key is looked up under its property name. *)
Definition hasOwn {A} (m : gmap string A) (key : Val) : bool :=
  bool_decide (is_Some (m !! to_property_key key)).

Section Handler.

(** [info.trackBy]. *)
Variable trackBy : Val.

(** What [compile(newContext, target, fragBlock, {repeat: item})] does to
    the [children] array and the update mark of the block; the compiler
    helpers that decide it are outside this module. *)
Variable compileInto :
  nat -> Item -> nat -> list (option nat) * option Mark -> list (option nat) * option Mark.

(** [removeItem] of [utils]. *)
Variable removeItem : list Item -> Item -> list Item.

(** [trackBy && item[trackBy] !== undefined ? item[trackBy] : index]. *)
Definition keyOf (item : Item) (index : nat) : Val :=
  if truthy trackBy && negb (strict_eq (item_get item trackBy) VUndefined)
  then item_get item trackBy
  else VNum (Z.of_nat index).

(** First loop: collect the keys of the new data. *)
Definition collectKey (trackMap : gmap string Item) (entry : nat * Item) : gmap string Item :=
  let key := keyOf entry.2 entry.1 in
  if strict_eq key VNull || strict_eq key (VStr "") then trackMap
  else <[to_property_key key := entry.2]> trackMap.

Definition trackMapOf (newData : list Item) : gmap string Item :=
  foldl collectKey ∅ (indexed newData).

(** Second loop: keep or remove each item of the old data. *)
Record Scan : Type := mkScan {
  reusedMap : gmap string Reused;
  reusedList : list Item;
  scanCalls : list Call
}.

Definition scanOld (trackMap : gmap string Item)
    (oldChildren : list (option nat)) (oldVms : list nat)
    (acc : Scan) (entry : nat * Item) : Scan :=
  let index := entry.1 in
  let item := entry.2 in
  let key := keyOf item index in
  if hasOwn trackMap key then
    mkScan (<[to_property_key key :=
               mkReused item index key (mjoin (oldChildren !! index)) (oldVms !! index)]>
              (reusedMap acc))
           (reusedList acc ++ [item])
           (scanCalls acc)
  else
    mkScan (reusedMap acc) (reusedList acc)
           (scanCalls acc ++ [RemoveTarget (mjoin (oldChildren !! index))]).

(** [compileItem(item, index, vm)]. *)
Definition compileItem (run : Run) (item : Item) (index : nat) : Run :=
  let newContext := nextVm run in
  let after := compileInto newContext item index (children run, updateMark run) in
  mkRun after.1 (vms run ++ [newContext]) (data run) after.2
        (<[newContext := (item, index)]> (scope run))
        (S newContext)
        (calls run ++ [CompileItem newContext item index]).

(** [reused.item === reusedList[0]]. *)
Definition isHead (item : Item) (l : list Item) : bool :=
  match l with
  | first :: _ => item_same item first
  | [] => false
  end.

(** Third loop: place each item of the new data.  [reusedMap[key]] finds
    the entry made for an old item or, for a key without an entry that
    names a member of [Object.prototype], that member, which is truthy and
    is taken for an entry.  [None]: a [TypeError], the assignment
    [reused.vm[valueName] = item] met an undefined [reused.vm], in an
    entry made where the old contexts were too few or in such a member. *)
Definition placeItem (reusedMap : gmap string Reused)
    (acc : option (Run * list Item)) (entry : nat * Item) : option (Run * list Item) :=
  match acc with
  | None => None
  | Some (run, reusedList) =>
      let index := entry.1 in
      let item := entry.2 in
      let key := keyOf item index in
      match reusedMap !! to_property_key key with
      | Some reused =>
          let moved :=
            if isHead (r_item reused) reusedList
            then (tail reusedList, calls run)
            else (removeItem reusedList (r_item reused),
                  calls run ++ [MoveTarget (r_target reused) (updateMark run)]) in
          match r_vm reused with
          | Some vm =>
              Some (mkRun (children run ++ [r_target reused])
                          (vms run ++ [vm])
                          (data run)
                          (Some (After (r_target reused)))
                          (<[vm := (item, index)]> (scope run))
                          (nextVm run)
                          moved.2,
                    moved.1)
          | None => None
          end
      | None =>
          if protoMember (to_property_key key) then None
          else Some (compileItem run item index, reusedList)
      end
  end.

(** The handler passed to [watchBlock]; [None] as data is a falsy value. *)
Definition handler (run : Run) (newData : option (list Item)) : option Run :=
  match newData with
  | None => Some run
  | Some newData =>
      let trackMap := trackMapOf newData in
      let scan :=
        foldl (scanOld trackMap (children run) (vms run))
              (mkScan ∅ [] (calls run)) (indexed (data run)) in
      let cleared :=
        mkRun [] [] newData (Some Start) (scope run) (nextVm run) (scanCalls scan) in
      match foldl (placeItem (reusedMap scan))
                  (Some (cleared, reusedList scan)) (indexed newData) with
      | Some (run', _) =>
          Some (mkRun (children run') (vms run') (data run') None
                      (scope run') (nextVm run') (calls run'))
      | None => None
      end
  end.

(** The first materialisation ([list.forEach(compileItem)] at the end of
    [bindRepeat]). *)
Definition materialize (run : Run) (list : list Item) : Run :=
  foldl (fun r entry => compileItem r entry.2 entry.1)
        (mkRun (children run) (vms run) list (updateMark run)
               (scope run) (nextVm run) (calls run))
        (indexed list).

(** The property name an entry is tracked under, and the [reusedMap] entry
    the second loop makes for it. *)
Definition nameOf (entry : nat * Item) : string :=
  to_property_key (keyOf entry.2 entry.1).

Definition reusedFor (oldChildren : list (option nat)) (oldVms : list nat)
    (entry : nat * Item) : Reused :=
  mkReused entry.2 entry.1 (keyOf entry.2 entry.1)
           (mjoin (oldChildren !! entry.1)) (oldVms !! entry.1).

(** The property names under which the items of a sequence are tracked. *)
Definition keysOf (l : list Item) : list string :=
  nameOf <$> indexed l.


(** No item of the sequence has the key [null] or the empty string. *)
Definition keyed (l : list Item) : Prop :=
  Forall (fun entry => keyOf entry.2 entry.1 ≠ VNull ∧ keyOf entry.2 entry.1 ≠ VStr "")
         (indexed l).

End Handler.

(** A compile step that attaches one fresh target per item, and the usual
    [removeItem]. *)
Definition sampleCompile (vm : nat) (item : Item) (index : nat)
    (view : list (option nat) * option Mark) : list (option nat) * option Mark :=
  (view.1 ++ [Some (100 + vm)%nat], Some (After (Some (100 + vm)%nat))).

Fixpoint sampleRemove (l : list Item) (x : Item) : list Item :=
  match l with
  | [] => []
  | y :: l' => if item_same y x then l' else y :: sampleRemove l' x
  end.

Definition emptyRun : Run := mkRun [] [] [] None ∅ 0%nat [].

Definition person (ref : nat) (id : string) : Item :=
  ItemObj ref [("id", VStr id)].

(** A first materialisation of three tracked items, and one in which the
    second item has the empty string as its track-by value. *)
Definition sampleRun : Run :=
  materialize sampleCompile emptyRun [person 1 "a"; person 2 "b"; person 3 "c"].



End Repeat.

(** ** [watchBlock] and the differ *)

Module Watch.

Section Watch.

(** The values a watched expression takes (a list for [repeat], a flag for
    [shown]). *)
Variable V : Type.

(** The [config] object one [watchBlock] call closes over; [{}] at first,
    where [recorded] reads as falsy and [latestValue] as [undefined]. *)
Record Config : Type := mkConfig {
  latestValue : option V;
  recorded : bool
}.

Definition emptyConfig : Config := mkConfig None false.

(** A pending differ entry: its key and the [watchBlock] call whose flush
    closure it holds. *)
Record Entry : Type := mkEntry {
  e_type : string;
  e_id : string;
  e_watcher : nat
}.

(** The configs of the [watchBlock] calls, the differ queue, and the calls
    of the real handlers (which call, with which value; oldest first). *)
Record World : Type := mkWorld {
  configs : gmap nat Config;
  pending : list Entry;
  handled : list (nat * option V)
}.

Definition configOf (st : World) (w : nat) : Config :=
  default emptyConfig (configs st !! w).

Definition sameKey (a b : Entry) : bool :=
  bool_decide (e_type a = e_type b) && bool_decide (e_id a = e_id b).

(** Modelled from the spec: [differ.append] of the differ, which is not
    among the sources.  The specification describes a queue from (mutation
    kind, block id) to a pending flush callback in which a second entry
    for the same key overwrites the pending one rather than being queued
    twice, flushed in the order in which distinct keys were first queued. *)
Fixpoint differ_append (q : list Entry) (e : Entry) : list Entry :=
  match q with
  | [] => [e]
  | x :: q' => if sameKey x e then e :: q' else x :: differ_append q' e
  end.

(** The callback [watchBlock] hands to [newWatch], for the call [w] made
    with [type] and the block's id; [differ] tells whether
    [vm.app.differ] exists. *)
Definition onChange (differ : bool) (w : nat) (type id : string)
    (value : V) (st : World) : World :=
  let recordedBefore := recorded (configOf st w) in
  let queue :=
    if differ && negb recordedBefore
    then differ_append (pending st) (mkEntry type id w)
    else pending st in
  mkWorld (<[w := mkConfig (Some value) true]> (configs st)) queue (handled st).

(** The closure queued by [onChange]: call the handler with the latest
    value, then reset the config. *)
Definition flushCallback (w : nat) (st : World) : World :=
  mkWorld (<[w := mkConfig None false]> (configs st))
          (pending st)
          (handled st ++ [(w, latestValue (configOf st w))]).

(** Modelled from the spec: the differ's flush, which is not among the
    sources: every pending callback is run once, in queue order, and the
    queue is left empty. *)
Definition flush (st : World) : World :=
  foldl (fun s e => flushCallback (e_watcher e) s)
        (mkWorld (configs st) [] (handled st)) (pending st).

(** One trigger: the [watchBlock] call whose watcher fires, the key of
    that call, and the new value. *)
Record Event : Type := mkEvent {
  ev_watcher : nat;
  ev_type : string;
  ev_id : string;
  ev_value : V
}.

(** An update wave: the triggers that arrive before the differ flushes. *)
Definition wave (differ : bool) (events : list Event) (st : World) : World :=
  foldl (fun s ev =>
           onChange differ (ev_watcher ev) (ev_type ev) (ev_id ev) (ev_value ev) s)
        st events.

(** The values call [w] was triggered with, in order. *)
Definition valuesOf (w : nat) (events : list Event) : list V :=
  ev_value <$> filter (fun ev => ev_watcher ev = w) events.

(** Call [w] triggers under the key [(type, id)], and no other call does. *)
Definition ownsKey (w : nat) (type id : string) (ev : Event) : Prop :=
  ev_watcher ev = w ↔ (ev_type ev = type ∧ ev_id ev = id).

(** The handler calls made on behalf of call [w]. *)
Definition handledBy (w : nat) (st : World) : list (option V) :=
  snd <$> filter (fun c => c.1 = w) (handled st).

End Watch.

Arguments mkConfig {V}.
Arguments latestValue {V}.
Arguments recorded {V}.
Arguments emptyConfig {V}.
Arguments mkWorld {V}.
Arguments configOf {V}.
Arguments onChange {V}.
Arguments flushCallback {V}.
Arguments flush {V}.
Arguments mkEvent {V}.
Arguments ev_watcher {V}.
Arguments ev_type {V}.
Arguments ev_id {V}.
Arguments ev_value {V}.
Arguments wave {V}.
Arguments valuesOf {V}.
Arguments ownsKey {V}.
Arguments handledBy {V}.
Arguments configs {V}.
Arguments pending {V}.
Arguments handled {V}.

End Watch.

(** ** The template compiler ([compile] and the functions it dispatches to) *)

Module Compiler.
Import Js.

(** [target.repeat]: the getter itself, or an object with [exp], [key],
    [value] and [tid] ([isRepeat]).  Closures are named by numbers. *)
Inductive RepeatDirective : Type :=
  | RepeatGetter (getter : nat)
  | RepeatInfo (exp : nat) (key value : string) (tid : Val).

(** A template node; an absent or empty [children] is the empty list. *)
#[warnings="-register-all"]
Inductive Template : Type := mkTemplate {
  t_type : string;
  t_name : option string;
  t_append : option string;
  t_children : list Template;
  t_repeat : option RepeatDirective;
  t_shown : option nat
}.

(** [meta]: a field is [Some] when the object has it as own property. *)
Record Meta : Type := mkMeta {
  m_repeat : option Repeat.Item;
  m_shown : option bool;
  m_type : option string
}.

Definition noMeta : Meta := mkMeta None None None.

(** A view model: its identity and whether [vm.app] exists. *)
Record Vm : Type := mkVm {
  vmRef : nat;
  hasApp : bool
}.

(** A destination: an element (with its [ref] and [type]) or a block. *)
Inductive Dest : Type :=
  | DElement (ref type : string)
  | DBlock (blockId : nat) (type : option string).

Definition isBlock (d : Dest) : bool :=
  match d with DBlock _ _ => true | DElement _ _ => false end.

(** [dest.type === 'document']. *)
Definition isDocument (d : Dest) : bool :=
  match d with
  | DElement _ ty => String.eqb ty "document"
  | DBlock _ ty => bool_decide (ty = Some "document")
  end.

Definition item_truthy (i : Repeat.Item) : bool :=
  match i with
  | Repeat.ItemNum n => negb (n =? 0)
  | Repeat.ItemStr s => negb (String.eqb s "")
  | Repeat.ItemObj _ _ => true
  end.

(** The helpers of [domHelper], [directive], [state] and [Vm] that the
    compiler calls, as operations on a heap [H] of their own. *)
Record Host (H : Type) : Type := mkHost {
  (** [createBlock(vm, dest)] *)
  createBlock : Vm -> Dest -> H -> Dest * H;
  (** [if (isBlock(dest) && dest.children) dest.children.push(block)] *)
  pushBlock : Dest -> Dest -> H -> H;
  (** [vm.slotContext.parentVm], when [vm.slotContext] exists *)
  slotParent : Vm -> H -> option Vm;
  (** [vm.slotContext.content[name]] *)
  slotContent : Vm -> string -> H -> option (list Template);
  (** the body of [targetIsComposed]: the component registered for a type *)
  lookupComponent : Vm -> string -> H -> option nat * H;
  (** [fragBlock.children = []; fragBlock.data = []; fragBlock.vms = []] *)
  initRepeat : Dest -> H -> H;
  (** [watchBlock] for a repeat getter: the initial value when it is an array *)
  watchRepeat : Vm -> Dest -> RepeatDirective -> H -> option (list Repeat.Item) * H;
  (** [fragBlock.data = list.slice(0)] *)
  setData : Dest -> list Repeat.Item -> H -> H;
  (** [mergeContext] followed by [vms.push(newContext)] *)
  mergeContext : Vm -> Dest -> Repeat.Item -> nat -> H -> Vm * H;
  (** [watchBlock] for a shown getter: the truth value of its initial value *)
  watchShown : Vm -> Dest -> nat -> H -> bool * H;
  (** [fragBlock.display = !!display] *)
  setDisplay : Dest -> bool -> H -> H;
  (** element creation and binding in [compileNativeComponent] *)
  nativeElement : Vm -> Template -> Dest -> string -> H -> Dest * H;
  (** [attachTarget(element, dest)]: the signal of the native side *)
  attachTarget : Dest -> Dest -> H -> option Z * H
}.
Arguments createBlock {H}.
Arguments pushBlock {H}.
Arguments slotParent {H}.
Arguments slotContent {H}.
Arguments lookupComponent {H}.
Arguments initRepeat {H}.
Arguments watchRepeat {H}.
Arguments setData {H}.
Arguments mergeContext {H}.
Arguments watchShown {H}.
Arguments setDisplay {H}.
Arguments nativeElement {H}.
Arguments attachTarget {H}.

(** The state a compilation runs in: [app.lastSignal] of the shared app,
    the warnings logged, [global.treeModeParentNode], and the helpers'
    heap. *)
Record World (H : Type) : Type := mkWorld {
  lastSignal : option Z;
  warnings : list string;
  treeModeParentNode : option Dest;
  heap : H
}.
Arguments mkWorld {H}.
Arguments lastSignal {H}.
Arguments warnings {H}.
Arguments treeModeParentNode {H}.
Arguments heap {H}.

(** The two warnings of [compile]. *)
Definition repeatMessage : string :=
  "The root element does't support `repeat` directive!".

Definition shownMessage : string :=
  "The root element does't support `if` directive!".

Section Compile.

Context {H : Type} (host : Host H).

(** [compileCustomComponent]: its body is the construction of the child
    [Vm], which is outside the sources. *)
Variable compileCustomComponent :
  Vm -> nat -> Template -> Dest -> string -> Meta -> World H -> World H.

(** [(vm.app || {}).lastSignal === -1]. *)
Definition aborted (vm : Vm) (w : World H) : bool :=
  hasApp vm && bool_decide (lastSignal w = Some (-1)).

(** [app.lastSignal = signal] as far as the shared app is concerned:
    without [vm.app] the write goes to the object the writing call made
    for itself ([const app = vm.app || {}]), which [signalOf] tracks. *)
Definition setSignal (vm : Vm) (signal : option Z) (w : World H) : World H :=
  if hasApp vm then mkWorld signal (warnings w) (treeModeParentNode w) (heap w)
  else w.

(** [app.lastSignal] as one call reads it through its own [app]: the
    signal of the shared app or, without [vm.app], what this call has
    written to its own object so far ([own]). *)
Definition signalOf (vm : Vm) (own : option Z) (w : World H) : option Z :=
  if hasApp vm then lastSignal w else own.

(** [app.lastSignal === -1] inside such a call. *)
Definition stopped (vm : Vm) (own : option Z) (w : World H) : bool :=
  bool_decide (signalOf vm own w = Some (-1)).

Definition setHeap (h : H) (w : World H) : World H :=
  mkWorld (lastSignal w) (warnings w) (treeModeParentNode w) h.

Definition setTreeMode (d : option Dest) (w : World H) : World H :=
  mkWorld (lastSignal w) (warnings w) d (heap w).

(** [Log.warn(message)]. *)
Definition warn (message : string) (w : World H) : World H :=
  mkWorld (lastSignal w) (warnings w ++ [message]) (treeModeParentNode w) (heap w).

(** Run a helper that returns a value. *)
Definition call {A} (f : H -> A * H) (w : World H) : A * World H :=
  let r := f (heap w) in (r.1, setHeap r.2 w).

Definition targetIsSlot (target : Template) : bool :=
  String.eqb (t_type target) "slot".

Definition targetNeedCheckRepeat (target : Template) (meta : Meta) : bool :=
  negb (bool_decide (is_Some (m_repeat meta)))
  && bool_decide (is_Some (t_repeat target)).

Definition targetNeedCheckShown (target : Template) (meta : Meta) : bool :=
  negb (bool_decide (is_Some (m_shown meta)))
  && bool_decide (is_Some (t_shown target)).

Definition targetIsBlock (target : Template) : bool :=
  String.eqb (t_type target) "block".

(** [children.every(child => { compile(vm, child, dest); return
    app.lastSignal !== -1; })]; [None] when a call ran out of fuel. *)
Fixpoint every (compileChild : Template -> World H -> option (World H))
    (stop : World H -> bool) (children : list Template) (w : World H)
    : option (World H) :=
  match children with
  | [] => Some w
  | child :: rest =>
      match compileChild child w with
      | Some w' => if stop w' then Some w' else every compileChild stop rest w'
      | None => None
      end
  end.

(** The type of [compile], for the functions that call back into it. *)
Definition Compile : Type :=
  Vm -> Template -> Dest -> Meta -> World H -> option (World H).

(** [compileChildren(vm, template, dest)], on the children of [template]. *)
Definition compileChildren (compile : Compile) (vm : Vm)
    (children : list Template) (dest : Dest) (w : World H) : option (World H) :=
  every (fun child => compile vm child dest noMeta) (aborted vm) children w.

(** [compileBlock(vm, target, dest)]. *)
Definition compileBlock (compile : Compile) (vm : Vm) (target : Template)
    (dest : Dest) (w : World H) : option (World H) :=
  let created := call (createBlock host vm dest) w in
  let block := created.1 in
  let w1 := setHeap (pushBlock host dest block (heap created.2)) created.2 in
  every (fun child => compile vm child block noMeta) (aborted vm)
        (t_children target) w1.

(** [compileSlot(vm, target, dest)]. *)
Definition compileSlot (compile : Compile) (vm : Vm) (target : Template)
    (dest : Dest) (w : World H) : option (World H) :=
  match slotParent host vm (heap w) with
  | None => Some w
  | Some parentVm =>
      let created := call (createBlock host vm dest) w in
      let slotDest := created.1 in
      let slotName := default "default" (t_name target) in
      match slotContent host vm slotName (heap created.2) with
      | None => compileChildren compile vm (t_children target) slotDest created.2
      | Some namedContent => compileChildren compile parentVm namedContent slotDest created.2
      end
  end.

(** [compileItem] inside [bindRepeat], over the items still to compile. *)
Fixpoint compileItems (compile : Compile) (vm : Vm) (target : Template)
    (fragBlock : Dest) (items : list (nat * Repeat.Item)) (w : World H)
    : option (World H) :=
  match items with
  | [] => Some w
  | (index, item) :: rest =>
      let merged := call (mergeContext host vm fragBlock item index) w in
      match compile merged.1 target fragBlock (mkMeta (Some item) None None) merged.2 with
      | Some w' => compileItems compile vm target fragBlock rest w'
      | None => None
      end
  end.

(** [compileRepeat], with the first materialisation of [bindRepeat]. *)
Definition compileRepeat (compile : Compile) (vm : Vm) (target : Template)
    (dest : Dest) (w : World H) : option (World H) :=
  match t_repeat target with
  | None => Some w
  | Some repeat =>
      let created := call (createBlock host vm dest) w in
      let fragBlock := created.1 in
      let w1 := setHeap (initRepeat host fragBlock (heap created.2)) created.2 in
      let watched := call (watchRepeat host vm fragBlock repeat) w1 in
      match watched.1 with
      | Some list =>
          let w2 := setHeap (setData host fragBlock list (heap watched.2)) watched.2 in
          compileItems compile vm target fragBlock (Repeat.indexed list) w2
      | None => Some watched.2
      end
  end.

(** [compileShown], with the first evaluation of [bindShown]. *)
Definition compileShown (compile : Compile) (vm : Vm) (target : Template)
    (dest : Dest) (meta : Meta) (w : World H) : option (World H) :=
  match t_shown target with
  | None => Some w
  | Some shown =>
      let created := call (createBlock host vm dest) w in
      let fragBlock := created.1 in
      let w1 := setHeap (pushBlock host dest fragBlock (heap created.2)) created.2 in
      let newMeta :=
        mkMeta (match m_repeat meta with
                | Some item => if item_truthy item then Some item else None
                | None => None
                end) (Some true) None in
      let watched := call (watchShown host vm fragBlock shown) w1 in
      let w2 := setHeap (setDisplay host fragBlock watched.1 (heap watched.2)) watched.2 in
      if watched.1 then compile vm target fragBlock newMeta w2 else Some w2
  end.

(** [compileNativeComponent(vm, template, dest, type)].  The call keeps
    one [app] object for all its tests; the children it compiles read the
    shared app, or a fresh object of their own. *)
Definition compileNativeComponent (compile : Compile) (vm : Vm)
    (template : Template) (dest : Dest) (type : string) (w : World H)
    : option (World H) :=
  let made := call (nativeElement host vm template dest type) w in
  let element := made.1 in
  let w1 := made.2 in
  let wantsTree := bool_decide (t_append template = Some "tree") in
  let treeMode :=
    wantsTree && negb (bool_decide (is_Some (treeModeParentNode w1))) in
  let w2 := if treeMode then setTreeMode (Some dest) w1 else w1 in
  let first :=
    if negb (stopped vm None w2) && negb treeMode then
      let attached := call (attachTarget host element dest) w2 in
      (attached.1, setSignal vm attached.1 attached.2)
    else (None, w2) in
  let own := first.1 in
  let w3 := first.2 in
  match (if negb (stopped vm own w3)
         then compileChildren compile vm (t_children template) element w3
         else Some w3) with
  | Some w4 =>
      if negb (stopped vm own w4) && treeMode then
        let attached := call (attachTarget host element dest) (setTreeMode None w4) in
        Some (setSignal vm attached.1 attached.2)
      else Some w4
  | None => None
  end.

(** [compile(vm, target, dest, meta)]; the fuel bounds the depth of the
    calls, and [None] is a compilation that needs more. *)
Fixpoint compile (fuel : nat) (vm : Vm) (target : Template) (dest : Dest)
    (meta : Meta) (w : World H) : option (World H) :=
  match fuel with
  | O => None
  | S fuel' =>
      if aborted vm w then Some w
      else if targetIsSlot target then compileSlot (compile fuel') vm target dest w
      else if targetNeedCheckRepeat target meta then
        if isDocument dest
        then Some (warn repeatMessage w)
        else compileRepeat (compile fuel') vm target dest w
      else if targetNeedCheckShown target meta then
        if isDocument dest
        then Some (warn shownMessage w)
        else compileShown (compile fuel') vm target dest meta w
      else
        let type := default (t_type target) (m_type meta) in
        let found := call (lookupComponent host vm type) w in
        match found.1 with
        | Some component =>
            Some (compileCustomComponent vm component target dest type meta found.2)
        | None =>
            if targetIsBlock target
            then compileBlock (compile fuel') vm target dest found.2
            else compileNativeComponent (compile fuel') vm target dest type found.2
        end
  end.

End Compile.

(** A host for running examples: its heap is the list of elements
    attached so far, and attaching an element whose type is ["stop"]
    answers with the signal [-1]. *)
Definition sampleHost : Host (list string) :=
  mkHost (list string)
    (fun _ _ h => (DBlock (length h) None, h))
    (fun _ _ h => h)
    (fun _ _ => None)
    (fun _ _ _ => None)
    (fun _ _ h => (None, h))
    (fun _ h => h)
    (fun _ _ _ h => (None, h))
    (fun _ _ h => h)
    (fun vm _ _ _ h => (vm, h))
    (fun _ _ _ h => (true, h))
    (fun _ _ h => h)
    (fun _ template _ type h => (DElement ("el" +:+ pretty (length h)) type, h))
    (fun element _ h =>
       match element with
       | DElement _ ty => (if String.eqb ty "stop" then Some (-1) else Some 0, h ++ [ty])
       | DBlock _ _ => (Some 0, h)
       end).

Definition sampleCustom (vm : Vm) (component : nat) (target : Template)
    (dest : Dest) (type : string) (meta : Meta) (w : World (list string))
    : World (list string) := w.

Definition leaf (type : string) : Template :=
  mkTemplate type None None [] None None.

(** The same template node over other children. *)
Definition withChildren (t : Template) (children : list Template) : Template :=
  mkTemplate (t_type t) (t_name t) (t_append t) children (t_repeat t) (t_shown t).

Definition sampleVm : Vm := mkVm 0 true.

Definition freshWorld : World (list string) := mkWorld None [] None [].

Definition abortedWorld : World (list string) := mkWorld (Some (-1)) [] None [].

Definition documentRoot : Dest := DElement "_documentElement" "document".

End Compiler.

(** ** Notions used to state further properties of the style cascade *)

Module Cascade.
Import Js.

(** A layer none of whose values is falsy. *)
Definition plain (o : Obj) : Prop :=
  Forall (fun kv => truthy kv.2 = true) o.

Definition orElse {A} (a b : option A) : option A :=
  match a with
  | Some x => Some x
  | None => b
  end.

(** The property of the highest layer that has it: inline, id, class, tag. *)
Definition layered (tagStyle classStyle idStyle style : Obj) (k : string) : option Val :=
  orElse (obj_lookup style k)
    (orElse (obj_lookup idStyle k)
       (orElse (obj_lookup classStyle k) (obj_lookup tagStyle k))).

End Cascade.

(** ** Notions used to state further properties of the element tree *)

Module Shape.
Import Js Vdom.

Definition elementData (n : Node) : option ElementData :=
  match n with
  | Element _ e => Some e
  | Comment _ => None
  end.

(** What the structural operations leave alone unless they say otherwise:
    of every node its kind, its element fields and its document. *)
Definition skel (n : Node) : option ElementData * option nat * option nat :=
  (elementData n, docId (base n), ownerDocument (base n)).

Definition skeleton (st : Store) : list (option ElementData * option nat * option nat) :=
  skel <$> heap st.

(** Which documents have a task center. *)
Definition centers (st : Store) : list bool := taskCenter <$> docs st.

Definition centerOf (c : list bool) (o : option nat) : bool :=
  match o with
  | Some d => default false (c !! d)
  | None => false
  end.

(** The store has this skeleton, these task centers, these messages sent
    and these hooks run. *)
Definition becomes (st' : Store)
    (sk : list (option ElementData * option nat * option nat))
    (c : list bool) (s : list Msg) (h : list nat) : Prop :=
  skeleton st' = sk ∧ centers st' = c ∧ sent st' = s ∧ hooksRun st' = h.

(** Nothing but parent, sibling and depth fields (and node maps) differs. *)
Definition unchanged (st st' : Store) : Prop :=
  becomes st' (skeleton st) (centers st) (sent st) (hooksRun st).

(** The call returns normally, with a result and a store that satisfy [Q]. *)
Definition runs {A} (m : M A) (st : Store) (Q : A → Store → Prop) : Prop :=
  ∃ a st', m st = Done a st' ∧ Q a st'.

(** A function on base fields that keeps the document fields. *)
Definition pointerOnly (f : NodeBase → NodeBase) : Prop :=
  ∀ b, docId (f b) = docId b ∧ ownerDocument (f b) = ownerDocument b.

(** A node without children of its own: a comment, or an element whose
    [children] is empty (as when the compiler attaches an element before
    it compiles the element's children). *)
Definition leaf (n : Node) : Prop :=
  match n with
  | Element _ e => children e = Some []
  | Comment _ => True
  end.

Definition listOf (isInPureChildren : bool) (e : ElementData) : option (list nat) :=
  if isInPureChildren then pureChildren e else children e.

Definition setList (isInPureChildren : bool) (l : list nat) (e : ElementData) : ElementData :=
  if isInPureChildren then set_pureChildren (Some l) e else set_children (Some l) e.

(** The receiver's document, when it has one, is in the store. *)
Definition docReady (st : Store) (d o : option nat) : Prop :=
  d = None ∨ ∃ i, o = Some i ∧ is_Some (docs st !! i).

(** Whether a skeleton entry is that of an element. *)
Definition isElementS (s : option ElementData * option nat * option nat) : bool :=
  match s.1.1 with
  | Some _ => true
  | None => false
  end.

(** The document fields [linkChild] gives a node under such a receiver. *)
Definition linkedDoc (d o dn on : option nat) : option nat * option nat :=
  match d with
  | Some _ => (d, o)
  | None => (dn, on)
  end.

(** [l] without the first occurrence of [x]. *)
Fixpoint removeFirst (x : nat) (l : list nat) : list nat :=
  match l with
  | [] => []
  | y :: l' => if decide (y = x) then l' else y :: removeFirst x l'
  end.

(** The data [Element.destroy] leaves in an element. *)
Definition destroyedData : ElementData :=
  mkElement None None [] None None None None None false.

(** The parent reference of every node, and the calls that leave all of
    them as they are. *)
Definition parents (st : Store) : list (option nat) :=
  (fun n => parentNode (base n)) <$> heap st.

Definition keepsParents {A} (m : M A) : Prop :=
  ∀ st a st', m st = Done a st' → parents st' = parents st.

(** The sibling references of every node, and the calls that leave a
    given view of the nodes as it is. *)
Definition siblingsOf (n : Node) : option nat * option nat :=
  (previousSibling (base n), nextSibling (base n)).

Definition siblings (st : Store) : list (option nat * option nat) :=
  siblingsOf <$> heap st.

Definition preserves {X A} (view : Node → X) (m : M A) : Prop :=
  ∀ st a st', m st = Done a st' → view <$> heap st' = view <$> heap st.

(** *** Sample values *)

(** The base of the samples' parent, its data with given child arrays, and
    the base of one of its children. *)
Definition parentBase : NodeBase :=
  mkBase None None None (Some 0%nat) (Some 0%nat) 0.

Definition parentData (l p : list nat) : ElementData :=
  set_pureChildren (Some p) (set_children (Some l) (set_destroyHook true newElementData)).

Definition childBase (prev next : option nat) : NodeBase :=
  mkBase (Some 0%nat) prev next (Some 0%nat) (Some 0%nat) 1.

(** Parent 0 with children [1; 2]; element 3 is still detached. *)
Definition partialStore : Store :=
  exec (appendChild 0 1;; appendChild 0 2) sampleStore.

End Shape.

(** ** Further operations of [Element]: class styles and [clear] *)

Module Styling.
Import Js Vdom.


(** The loop [for (const key in this._classStyle) this._classStyle[key] = ''].
    Every key stays where it is and reads [''] afterwards. *)
Definition blank (o : Obj) : Obj := (fun kv => (kv.1, VStr "")) <$> o.


(** [clear()]: one [removeElement] message per element child, then every
    child is destroyed and both arrays are emptied in place. *)
Definition clear (this : nat) : M unit :=
  tc ← getTaskCenter this;
  when tc
    (p ← getList true this;
     forEach p (fun child => send (RemoveElement child)));;
  l ← getList false this;
  forEach l destroy;;
  putList false this [];;
  getList true this;;
  putList true this [].

(** A node [destroy] can take: an element needs its class list and, here,
    has no children of its own. *)
Definition liveLeaf (ed : option ElementData) : Prop :=
  match ed with
  | Some e => is_Some (classList e) ∧ children e = Some []
  | None => True
  end.

Definition hasHook (ed : option ElementData) : bool :=
  match ed with
  | Some e => destroyHook e
  | None => false
  end.

Definition destroyed (ed : option ElementData) : option ElementData :=
  match ed with
  | Some _ => Some Shape.destroyedData
  | None => None
  end.

(** The members of [l] that have a destroy hook installed, in order. *)
Definition hooked (st : Store) (l : list nat) : list nat :=
  filter (fun c => default false (hasHook ∘ Shape.elementData <$> heap st !! c) = true) l.




End Styling.

(** ** Further sample values for the compiler *)

Module CompilerSamples.
Import Js Compiler.

(** The sample host with a repeat getter that yields the list [[0; 1]]. *)
Definition zeroListHost : Host (list string) :=
  mkHost (list string)
    (createBlock sampleHost)
    (pushBlock sampleHost)
    (slotParent sampleHost)
    (slotContent sampleHost)
    (lookupComponent sampleHost)
    (initRepeat sampleHost)
    (fun _ _ _ h => (Some [Repeat.ItemNum 0; Repeat.ItemNum 1], h))
    (setData sampleHost)
    (mergeContext sampleHost)
    (watchShown sampleHost)
    (setDisplay sampleHost)
    (nativeElement sampleHost)
    (attachTarget sampleHost).

(** [<text for="..." if="...">]: a node with both directives. *)
Definition repeatedAndShown : Template :=
  mkTemplate "text" None None [] (Some (RepeatGetter 0)) (Some 1%nat).

(** [<slot for="..." if="...">]. *)
Definition slotWithDirectives : Template :=
  mkTemplate "slot" None None [leaf "text"] (Some (RepeatGetter 0)) (Some 1%nat).

(** The template node without its directives. *)
Definition withoutDirectives (t : Template) : Template :=
  mkTemplate (t_type t) (t_name t) (t_append t) (t_children t) None None.

End CompilerSamples.

(** ** The event table of an element ([addEvent], [removeEvent]) *)

Module Events.
Import Js.

(** An entry [{ handler, params }] of [_event]; closures are named by
    numbers, and an argument that was not given is [None]. *)
Record Desc : Type := mkDesc {
  d_handler : option nat;
  d_params : option Val
}.

(** The own entries of the table [_event], in insertion order. *)
Definition Table : Type := list (string * Desc).

Fixpoint tableLookup (t : Table) (type : string) : option Desc :=
  match t with
  | [] => None
  | (k, d) :: t' => if String.eqb k type then Some d else tableLookup t' type
  end.

(** [delete this._event[type]]. *)
Fixpoint tableDelete (t : Table) (type : string) : Table :=
  match t with
  | [] => []
  | (k, d) :: t' => if String.eqb k type then t' else (k, d) :: tableDelete t' type
  end.

Inductive EventMsg : Type :=
  | AddEvent (ref : nat) (type : string)
  | RemoveEvent (ref : nat) (type : string).

(** What the two methods use of an element: its reference, its table
    ([None] is the [null] that [destroy] leaves), whether
    [getTaskCenter(this.docId)] finds a task center, and the messages sent
    so far (oldest first). *)
Record Target : Type := mkTarget {
  t_ref : nat;
  t_event : option Table;
  t_center : bool;
  t_sent : list EventMsg
}.

(** [this._event[type]] as a condition.  The table is a plain object, so
    the read goes through the prototype chain: an own entry is an object
    and counts, and so does every member of [Object.prototype]. *)
Definition registered (table : Table) (type : string) : bool :=
  bool_decide (is_Some (tableLookup table type)) || protoMember type.

(** [addEvent(type, handler, params)]. *)
Definition addEvent (t : Target) (type : string)
    (handler : option nat) (params : option Val) : Target :=
  let table := default [] (t_event t) in
  if registered table type then
    mkTarget (t_ref t) (Some table) (t_center t) (t_sent t)
  else
    mkTarget (t_ref t) (Some (table ++ [(type, mkDesc handler params)])) (t_center t)
             (t_sent t ++ if t_center t then [AddEvent (t_ref t) type] else []).

(** [removeEvent(type)]; [delete] takes away an own entry only. *)
Definition removeEvent (t : Target) (type : string) : Target :=
  match t_event t with
  | Some table =>
      if registered table type then
        mkTarget (t_ref t) (Some (tableDelete table type)) (t_center t)
                 (t_sent t ++ if t_center t then [RemoveEvent (t_ref t) type] else [])
      else t
  | None => t
  end.

(** The handler registered for a type, if any. *)
Definition handlerOf (t : Target) (type : string) : option Desc :=
  tableLookup (default [] (t_event t)) type.

End Events.

(** * Properties *)

(** ** The style cascade *)

Section StyleFacts.
Import Js Style.

(** Both ways of comparing the two keys of the example's class layer put
    ["color"] (whose value is empty) after ["margin"]: the order in which
    [assignStyle] visits them does not depend on the sort algorithm. *)
Lemma class_layer_order :
  0 < styleCmp ex_class "color" "margin" ∧ styleCmp ex_class "margin" "color" < 0.
Proof. split; vm_compute; reflexivity. Qed.

Lemma class_layer_sorted :
  array_sort (styleCmp ex_class) (obj_keys ex_class) = ["margin"; "color"].
Proof. reflexivity. Qed.

(** The class layer of the example leaves the tag style as it was: the
    empty ["color"] is visited first and ends the call. *)
Lemma class_layer_dropped :
  assignStyle (obj_assign [] ex_tag) ex_class = [("color", VStr "red")].
Proof. reflexivity. Qed.

(** C2. On the layers of the worked example (tag [{color: "red"}], class
    [{color: "", margin: "1"}], id [{}], inline [{color: "blue"}])
    [toStyle] returns [{color: "blue"}] only: the property ["margin"] of
    the class layer is absent, whereas the merge rule as worded (skip the
    empty property, go on with the others) gives
    [{color: "blue", margin: "1"}]. *)
Theorem toStyle_example_loses_margin :
  toStyle ex_tag ex_class ex_id ex_inline = [("color", VStr "blue")]
  ∧ obj_get (toStyle ex_tag ex_class ex_id ex_inline) "margin" = VUndefined
  ∧ cascade ex_tag ex_class ex_id ex_inline
    = [("color", VStr "blue"); ("margin", VStr "1")].
Proof. split_and!; vm_compute; reflexivity. Qed.

(** Where no layer holds an empty or undefined value the loop never
    returns early, and [assignStyle] agrees with the merge rule. *)
Lemma assignLoop_mergeLoop dest pending src :
  Forall (fun key => truthy (obj_get dest key) = true) pending →
  assignLoop dest pending src = mergeLoop dest pending src.
Proof.
  intros Hall. revert src.
  induction Hall as [|key rest Hkey _ IH]; intros src; simpl; [done|].
  rewrite Hkey. apply IH.
Qed.

End StyleFacts.

(** ** The element tree *)

Section TreeFacts.
Import Js Vdom.

Lemma bind_Done {A B} (m : M A) (k : A → M B) st a st' :
  m st = Done a st' → (m ≫= k) st = k a st'.
Proof. intros Hm. unfold mbind, M_bind, bind. by rewrite Hm. Qed.

Lemma bind_Throw {A B} (m : M A) (k : A → M B) st st' :
  m st = Throw st' → (m ≫= k) st = Throw st'.
Proof. intros Hm. unfold mbind, M_bind, bind. by rewrite Hm. Qed.

Lemma getNode_lookup st i n :
  heap st !! i = Some n → getNode i st = Done n st.
Proof. intros Hn. unfold getNode. by rewrite Hn. Qed.

Lemma getElement_lookup st i b e :
  heap st !! i = Some (Element b e) → getElement i st = Done e st.
Proof.
  intros Hn. unfold getElement.
  erewrite bind_Done by (by apply getNode_lookup). done.
Qed.

Lemma updElement_lookup st i b e f :
  heap st !! i = Some (Element b e) →
  updElement i f st = Done tt (set_heap (<[i := Element b (f e)]> (heap st)) st).
Proof.
  intros Hn. unfold updElement.
  erewrite bind_Done by (by apply getNode_lookup). done.
Qed.

Lemma index_from_absent (l : list nat) x i :
  0 ≤ i → x ∉ l → index_from l x i = -1.
Proof.
  revert i. induction l as [|y l IH]; intros i Hi Hx; simpl; [done|].
  apply not_elem_of_cons in Hx as [Hne Hx].
  case_decide; [congruence|]. apply IH; [lia|done].
Qed.

Lemma index_of_absent (l : list nat) x : x ∉ l → (index_of l x <? 0) = true.
Proof.
  intros Hx. unfold index_of. rewrite index_from_absent by (done || lia). done.
Qed.

(** The store before the failing call satisfies the invariant. *)
Lemma populatedStore_children :
  childrenOf populatedStore 0 = Some [1; 2; 3]%nat
  ∧ pureChildrenOf populatedStore 0 = Some [1; 3]%nat
  ∧ pureInvariant populatedStore 0.
Proof. split_and!; vm_compute; reflexivity. Qed.

(** C4. Parent 0 has the children [1; 2; 3] (element, comment, element),
    appended in this order.  [insertAfter(3, 1)] moves element 3 behind
    element 1: afterwards [children] is [1; 3; 2], whose elements are
    [1; 3], while [pureChildren] is [3; 1].  The call ends normally and
    tells the native side that 3 now has index 1. *)
Theorem insertAfter_reverses_pureChildren :
  ∃ st, insertAfter 0 3 1 populatedStore = Done tt st
    ∧ childrenOf st 0 = Some [1; 3; 2]%nat
    ∧ elementsOf st [1; 3; 2]%nat = [1; 3]%nat
    ∧ pureChildrenOf st 0 = Some [3; 1]%nat
    ∧ ¬ pureInvariant st 0
    ∧ last (sent st) = Some (MoveElement 3 0 1).
Proof.
  eexists. split; [vm_compute; reflexivity|].
  split_and!; try (vm_compute; reflexivity).
  vm_compute. discriminate.
Qed.

(** The step that goes wrong, in isolation: moving the element at index 1
    of [pureChildren] to the position in front of index 1 (its own place)
    puts it at index 0. *)
Lemma moveIndex_own_position :
  pureChildrenOf (exec (moveIndex 0 3 1 false true) populatedStore) 0
  = Some [3; 1]%nat.
Proof. vm_compute; reflexivity. Qed.

(** A destroyed element has no class list, and [destroy] throws on it
    before it reaches the guarded part. *)
Lemma destroy_destroyed_throws st this b e :
  heap st !! this = Some (Element b e) →
  classList e = None →
  ∃ st', destroy this st = Throw st'.
Proof.
  intros Hn Hcl. eexists. unfold destroy.
  erewrite bind_Done by reflexivity. simpl destroy_go.
  erewrite bind_Done by (by apply getNode_lookup). cbv beta iota.
  erewrite bind_Done by (by eapply updElement_lookup). cbv beta iota.
  erewrite bind_Done.
  2:{ eapply getElement_lookup. simpl.
      apply list_lookup_insert_eq. by eapply lookup_lt_Some. }
  simpl. rewrite Hcl. by apply bind_Throw.
Qed.

(** C5. On the populated sample tree the first [destroy] of the parent
    ends normally, runs its destroy hook once and leaves the parent and
    its element children destroyed (their attribute maps are nulled); the
    second [destroy] of the same element throws a [TypeError] at
    [this._classList.length = 0]. *)
Theorem destroy_twice_throws :
  ∃ st1 st2,
    destroy 0 populatedStore = Done tt st1
    ∧ hooksRun st1 = [0%nat]
    ∧ childrenOf st1 0 = None
    ∧ attrOf populatedStore 1 = Some [] ∧ attrOf st1 1 = None
    ∧ attrOf populatedStore 3 = Some [] ∧ attrOf st1 3 = None
    ∧ destroy 0 st1 = Throw st2.
Proof.
  do 2 eexists. split; [vm_compute; reflexivity|].
  split_and!; vm_compute; reflexivity.
Qed.

End TreeFacts.

Section AttrFacts.
Import Js Vdom.

Lemma getTaskCenter_lookup st i n :
  heap st !! i = Some n → getTaskCenter i st = Done (taskCenterOf st (base n)) st.
Proof.
  intros Hn. unfold getTaskCenter.
  erewrite bind_Done by (by apply getNode_lookup). done.
Qed.






End AttrFacts.

Section FrameFacts.
Import Js Vdom.

Lemma getList_children st this l :
  childrenOf st this = Some l → getList false this st = Done l st.
Proof.
  unfold childrenOf. intros Hc.
  destruct (heap st !! this) as [[b e|b]|] eqn:Hn; try done.
  unfold getList. erewrite bind_Done by (by eapply getElement_lookup).
  by rewrite Hc.
Qed.

Lemma foreignParent_true this n p :
  parentNode (base n) = Some p → p ≠ this → foreignParent this n = true.
Proof.
  intros Hp Hne. unfold foreignParent. rewrite Hp. by apply bool_decide_eq_true_2.
Qed.

(** C10. A refused insertion ends normally and returns the store it was
    given: children, pureChildren, sibling references and the messages
    sent are all as before. *)
Theorem refused_insertion_is_noop st op :
  Refused st op → runOp op st = Done tt st.
Proof.
  intros Href.
  inversion Href as
    [this node n p Hn Hp Hne | this node before n p Hn Hp Hne
    | this node after n p Hn Hp Hne | this node n Hn | this node n Hn
    | this node before n Hn Hs | this node after n Hn Hs
    | this node before n l Hn Hc Hnot]; subst op; simpl.
  - unfold appendChild. erewrite bind_Done by (by apply getNode_lookup).
    by rewrite (foreignParent_true _ _ _ Hp Hne).
  - unfold insertBefore. erewrite bind_Done by (by apply getNode_lookup).
    by rewrite (foreignParent_true _ _ _ Hp Hne).
  - unfold insertAfter. erewrite bind_Done by (by apply getNode_lookup).
    by rewrite (foreignParent_true _ _ _ Hp Hne).
  - unfold insertBefore. erewrite bind_Done by (by apply getNode_lookup).
    destruct (foreignParent this n); [done|].
    by rewrite bool_decide_eq_true_2.
  - unfold insertAfter. erewrite bind_Done by (by apply getNode_lookup).
    destruct (foreignParent this n); [done|].
    by rewrite bool_decide_eq_true_2.
  - unfold insertBefore. erewrite bind_Done by (by apply getNode_lookup).
    destruct (foreignParent this n); [done|].
    rewrite (bool_decide_eq_true_2 (nextSibling (base n) = Some before)) by done.
    by rewrite orb_true_r.
  - unfold insertAfter. erewrite bind_Done by (by apply getNode_lookup).
    destruct (foreignParent this n); [done|].
    rewrite (bool_decide_eq_true_2 (previousSibling (base n) = Some after)) by done.
    by rewrite orb_true_r.
  - unfold insertBefore. erewrite bind_Done by (by apply getNode_lookup).
    destruct (foreignParent this n); [done|].
    destruct (bool_decide (node = before)
              || bool_decide (nextSibling (base n) = Some before)); [done|].
    erewrite bind_Done by (by apply getList_children).
    by rewrite index_of_absent.
Qed.

Lemma refused_insertion_witness :
  runOp (Append 4 1) twoParents = Done tt twoParents
  ∧ runOp (Before 0 3 3) populatedStore = Done tt populatedStore
  ∧ runOp (Before 0 1 2) populatedStore = Done tt populatedStore
  ∧ runOp (After 0 3 2) populatedStore = Done tt populatedStore
  ∧ runOp (Before 0 3 7) populatedStore = Done tt populatedStore.
Proof.
  split_and!; apply refused_insertion_is_noop.
  - eapply (foreign_append _ 4 1 _ 0%nat); [vm_compute; reflexivity|reflexivity|lia].
  - eapply same_before. vm_compute; reflexivity.
  - eapply adjacent_before; [vm_compute; reflexivity|reflexivity].
  - eapply adjacent_after; [vm_compute; reflexivity|reflexivity].
  - eapply (missing_before _ 0 3 7 _ [1; 2; 3]%nat);
      [vm_compute; reflexivity|vm_compute; reflexivity|].
    intros Hin. repeat (apply elem_of_cons in Hin as [Hin|Hin]; [lia|]).
    by apply elem_of_nil in Hin.
Defined.

End FrameFacts.

(** ** Coalescing of watcher triggers *)

Section WatchFacts.
Import Watch.
Context {V : Type}.
Implicit Types (st : World V) (q : list Entry) (ev : Event V).

Lemma configOf_insert_eq (c : gmap nat (Config V)) q h w cfg :
  configOf (mkWorld (<[w := cfg]> c) q h) w = cfg.
Proof. unfold configOf. simpl. by rewrite lookup_insert_eq. Qed.

Lemma configOf_insert_ne st q h w w' cfg :
  w' ≠ w → configOf (mkWorld (<[w' := cfg]> (configs st)) q h) w = configOf st w.
Proof. intros Hne. unfold configOf. simpl. by rewrite lookup_insert_ne. Qed.

Lemma differ_append_others q e w :
  e_watcher e ≠ w →
  Forall (fun x => e_watcher x ≠ w) q →
  Forall (fun x => e_watcher x ≠ w) (differ_append q e).
Proof.
  intros He. induction 1 as [|x q Hx Hq IH]; simpl.
  - by constructor.
  - destruct (sameKey x e); by constructor.
Qed.

Lemma differ_append_split q w ty id :
  Forall (fun e => e_watcher e ≠ w) q →
  ∃ q1 q2, differ_append q (mkEntry ty id w) = q1 ++ mkEntry ty id w :: q2
    ∧ Forall (fun e => e_watcher e ≠ w) q1
    ∧ Forall (fun e => e_watcher e ≠ w) q2.
Proof.
  induction 1 as [|x q Hx Hq IH]; simpl.
  - by exists [], [].
  - destruct (sameKey x (mkEntry ty id w)).
    + by exists [], q.
    + destruct IH as (q1 & q2 & -> & H1 & H2).
      exists (x :: q1), q2. split; [done|]. split; [by constructor|done].
Qed.

(** An entry under another key leaves the entry of [w] in the queue. *)
Lemma differ_append_keeps q1 q2 e w ty id :
  sameKey (mkEntry ty id w) e = false →
  e_watcher e ≠ w →
  Forall (fun x => e_watcher x ≠ w) q1 →
  Forall (fun x => e_watcher x ≠ w) q2 →
  ∃ q1' q2', differ_append (q1 ++ mkEntry ty id w :: q2) e = q1' ++ mkEntry ty id w :: q2'
    ∧ Forall (fun x => e_watcher x ≠ w) q1'
    ∧ Forall (fun x => e_watcher x ≠ w) q2'.
Proof.
  intros Hkey He H1 H2. induction H1 as [|x q1 Hx H1 IH]; simpl.
  - rewrite Hkey. exists [], (differ_append q2 e).
    split; [done|]. split; [done|by apply differ_append_others].
  - destruct (sameKey x e).
    + exists (e :: q1), q2. split; [done|]. split; [by constructor|done].
    + destruct IH as (q1' & q2' & -> & H1' & H2').
      exists (x :: q1'), q2'. split; [done|]. split; [by constructor|done].
Qed.

Lemma valuesOf_snoc w (events : list (Event V)) ev :
  valuesOf w (events ++ [ev])
  = valuesOf w events ++ if decide (ev_watcher ev = w) then [ev_value ev] else [].
Proof.
  unfold valuesOf. rewrite filter_app, fmap_app. f_equal.
  rewrite filter_cons. by case_decide.
Qed.

(** The state of a wave in progress, as seen from call [w]: nothing has
    been handled yet, and either [w] has not been triggered and has no
    entry in the queue, or it is recorded with its latest value and has
    exactly one entry. *)
Lemma wave_invariant st w ty id (events : list (Event V)) :
  recorded (configOf st w) = false →
  Forall (fun e => e_watcher e ≠ w) (pending st) →
  Forall (ownsKey w ty id) events →
  let s := wave true events st in
  handled s = handled st
  ∧ ((valuesOf w events = []
      ∧ recorded (configOf s w) = false
      ∧ Forall (fun e => e_watcher e ≠ w) (pending s))
     ∨ (∃ v q1 q2,
          last (valuesOf w events) = Some v
          ∧ configOf s w = mkConfig (Some v) true
          ∧ pending s = q1 ++ mkEntry ty id w :: q2
          ∧ Forall (fun e => e_watcher e ≠ w) q1
          ∧ Forall (fun e => e_watcher e ≠ w) q2)).
Proof.
  intros Hfresh Hq Hown. induction events as [|ev events IH] using rev_ind; simpl.
  - split; [done|]. by left.
  - apply Forall_app in Hown as [Hown Hev]. apply Forall_inv in Hev.
    destruct (IH Hown) as [Hh Hstate]. clear IH.
    unfold wave in *. rewrite foldl_app. simpl.
    set (s := foldl _ st events) in *.
    rewrite valuesOf_snoc. unfold onChange at 1. split; [done|].
    destruct (decide (ev_watcher ev = w)) as [Hw|Hw].
    + destruct (proj1 Hev Hw) as [Hty Hid]. rewrite Hw, Hty, Hid.
      right. destruct Hstate as [(Hnil & Hrec & Hpend)|(v & q1 & q2 & _ & Hcfg & Hpend & H1 & H2)].
      * destruct (differ_append_split (pending s) w ty id Hpend) as (q1 & q2 & Hsplit & H1 & H2).
        exists (ev_value ev), q1, q2. unfold onChange. rewrite Hrec. simpl.
        rewrite Hnil, Hsplit. split_and!; try done. apply configOf_insert_eq.
      * exists (ev_value ev), q1, q2. unfold onChange. rewrite Hcfg. simpl.
        rewrite last_snoc. split_and!; try done. apply configOf_insert_eq.
    + rewrite app_nil_r.
      assert (Hkey : sameKey (mkEntry ty id w)
                       (mkEntry (ev_type ev) (ev_id ev) (ev_watcher ev)) = false).
      { unfold sameKey. simpl. apply andb_false_iff.
        destruct (decide (ty = ev_type ev)) as [->|Hne];
          [|left; by apply bool_decide_eq_false_2].
        right. apply bool_decide_eq_false_2. intros ->. apply Hw. by apply Hev. }
      unfold onChange. simpl.
      destruct Hstate as [(Hnil & Hrec & Hpend)|(v & q1 & q2 & Hlast & Hcfg & Hpend & H1 & H2)].
      * left. split_and!; [done|by rewrite configOf_insert_ne|].
        simpl. destruct (negb (recorded (configOf s (ev_watcher ev)))); [|done].
        by apply differ_append_others.
      * right. destruct (negb (recorded (configOf s (ev_watcher ev)))).
        -- rewrite Hpend.
           destruct (differ_append_keeps q1 q2 _ w ty id Hkey Hw H1 H2)
             as (q1' & q2' & -> & H1' & H2').
           exists v, q1', q2'. split_and!; try done. by rewrite configOf_insert_ne.
        -- exists v, q1, q2. split_and!; try done. by rewrite configOf_insert_ne.
Qed.

Lemma handledBy_snoc st w w' (x : option V) c q :
  handledBy w (mkWorld c q (handled st ++ [(w', x)]))
  = handledBy w st ++ if decide (w' = w) then [x] else [].
Proof.
  unfold handledBy. simpl. rewrite filter_app, fmap_app. f_equal.
  rewrite filter_cons. simpl. by case_decide.
Qed.

(** Callbacks of other calls leave this call's config and handler calls
    alone. *)
Lemma flush_others st w q :
  Forall (fun e => e_watcher e ≠ w) q →
  let s := foldl (fun s e => flushCallback (e_watcher e) s) st q in
  configOf s w = configOf st w
  ∧ handledBy w s = handledBy w st
  ∧ pending s = pending st.
Proof.
  intros Hq. revert st. induction Hq as [|x q Hx Hq IH]; intros st; simpl; [done|].
  destruct (IH (flushCallback (e_watcher x) st)) as (Hc & Hh & Hp).
  rewrite Hc, Hh, Hp. unfold flushCallback. split_and!.
  - by apply configOf_insert_ne.
  - rewrite handledBy_snoc. rewrite decide_False by done. by rewrite app_nil_r.
  - done.
Qed.

(** C3. Let the call [w] of [watchBlock] be unrecorded with no callback of
    its own pending, let the differ exist, and let [w] be the only call
    that triggers under its key.  After a wave in which [w] is triggered
    at least once, among any triggers of other calls, the flush calls the
    handler of [w] exactly once, with the value of its last trigger; the
    earlier values are gone, the config is as at the start and the queue
    is empty. *)
Theorem watchBlock_coalesces st w ty id (events : list (Event V)) (final : V) :
  recorded (configOf st w) = false →
  Forall (fun e => e_watcher e ≠ w) (pending st) →
  Forall (ownsKey w ty id) events →
  last (valuesOf w events) = Some final →
  let st' := flush (wave true events st) in
  handledBy w st' = handledBy w st ++ [Some final]
  ∧ configOf st' w = emptyConfig
  ∧ pending st' = [].
Proof.
  intros Hfresh Hq Hown Hlast. simpl.
  destruct (wave_invariant st w ty id events Hfresh Hq Hown)
    as [Hh [(Hnil & _)|(v & q1 & q2 & Hv & Hcfg & Hpend & H1 & H2)]].
  { rewrite Hnil in Hlast. done. }
  rewrite Hlast in Hv. injection Hv as <-.
  set (s := wave true events st) in *.
  unfold flush. rewrite Hpend, foldl_app. simpl.
  set (s0 := mkWorld (configs s) [] (handled s)).
  destruct (flush_others s0 w q1 H1) as (Hc1 & Hh1 & Hp1).
  set (s1 := foldl (fun s e => flushCallback (e_watcher e) s) s0 q1) in *.
  destruct (flush_others (flushCallback w s1) w q2 H2) as (Hc2 & Hh2 & Hp2).
  rewrite Hc2, Hh2, Hp2. unfold flushCallback. split_and!.
  - rewrite handledBy_snoc, decide_True by done.
    rewrite Hh1, Hc1. unfold s0, configOf at 1, handledBy at 1. simpl.
    fold (configOf s w). rewrite Hcfg. simpl. by rewrite Hh.
  - apply configOf_insert_eq.
  - simpl. by rewrite Hp1.
Qed.

End WatchFacts.

Lemma watchBlock_coalesces_witness :
  let events :=
    [Watch.mkEvent 7 "repeat" "3" 1; Watch.mkEvent 8 "shown" "4" 10;
     Watch.mkEvent 7 "repeat" "3" 2; Watch.mkEvent 7 "repeat" "3" 3] in
  let st' := Watch.flush (Watch.wave true events (Watch.mkWorld ∅ [] [])) in
  Watch.handledBy 7 st' = Watch.handledBy 7 (Watch.mkWorld ∅ [] []) ++ [Some 3]
  ∧ Watch.configOf st' 7 = @Watch.emptyConfig Z
  ∧ Watch.pending st' = [].
Proof.
  apply (watchBlock_coalesces (Watch.mkWorld ∅ [] []) 7 "repeat" "3").
  - reflexivity.
  - constructor.
  - repeat constructor; vm_compute; intros; try done; by destruct_and?.
  - reflexivity.
Defined.

(** ** The compiler's guards *)

Section CompilerFacts.
Import Compiler.
Context {H : Type} (host : Host H).
Variable custom : Vm → nat → Template → Dest → string → Meta → World H → World H.

(** Once the stop condition holds after a child, the children behind it do
    not matter. *)
Lemma every_stops (f : Template → World H → option (World H)) stop pre child post w w' :
  every f stop (pre ++ [child]) w = Some w' →
  stop w' = true →
  every f stop (pre ++ child :: post) w = Some w'.
Proof.
  revert w. induction pre as [|x pre IH]; intros w; simpl.
  - destruct (f child w) as [w1|]; [|done].
    destruct (stop w1) eqn:Hstop; [done|].
    intros [= ->] Hw'. congruence.
  - destruct (f x w) as [w1|]; [|done].
    destruct (stop w1); [done|]. apply IH.
Qed.

Lemma compile_aborted fuel vm target dest meta w :
  aborted vm w = true →
  compile host custom (S fuel) vm target dest meta w = Some w.
Proof. intros Hab. simpl. by rewrite Hab. Qed.

(** C6. With the abort signal set, [compile] returns at once with the
    world it was given.  In [compileChildren] and in [compileBlock], once
    the signal is set after a child has been compiled, the result is the
    one reached at that child, whatever siblings follow: they are not
    compiled.  Every case ends with a normal return. *)
Theorem abort_signal_stops_compilation vm :
  (∀ fuel target dest meta w,
     aborted vm w = true →
     compile host custom (S fuel) vm target dest meta w = Some w)
  ∧ (∀ (cmp : @Compile H) pre child post dest w w',
       compileChildren cmp vm (pre ++ [child]) dest w = Some w' →
       aborted vm w' = true →
       compileChildren cmp vm (pre ++ child :: post) dest w = Some w')
  ∧ (∀ (cmp : @Compile H) target pre child post dest w w',
       compileBlock host cmp vm (withChildren target (pre ++ [child])) dest w = Some w' →
       aborted vm w' = true →
       compileBlock host cmp vm (withChildren target (pre ++ child :: post)) dest w = Some w').
Proof.
  split_and!.
  - intros. by apply compile_aborted.
  - intros cmp pre child post dest w w'. unfold compileChildren. apply every_stops.
  - intros cmp target pre child post dest w w'. unfold compileBlock. simpl.
    apply every_stops.
Qed.

(** C9. When [compile] reaches a repeat or shown directive that is still
    to be resolved (no abort signal, the node is not a slot, [meta] does
    not mark the directive as done) and the destination is the document
    root, it returns normally after logging one warning: the helpers'
    heap, the signal and the tree-mode marker are as before, so no block
    has been created and nothing has been attached. *)
Theorem directive_on_document_root_skipped fuel vm target dest meta w :
  aborted vm w = false →
  targetIsSlot target = false →
  targetNeedCheckRepeat target meta || targetNeedCheckShown target meta = true →
  isDocument dest = true →
  ∃ w', compile host custom (S fuel) vm target dest meta w = Some w'
    ∧ warnings w' = warnings w ++ [if targetNeedCheckRepeat target meta
                                   then repeatMessage else shownMessage]
    ∧ heap w' = heap w
    ∧ lastSignal w' = lastSignal w
    ∧ treeModeParentNode w' = treeModeParentNode w.
Proof.
  intros Hab Hslot Hdir Hdoc. simpl. rewrite Hab, Hslot, Hdoc.
  destruct (targetNeedCheckRepeat target meta); simpl in Hdir.
  - eexists. by split_and!.
  - rewrite Hdir. eexists. by split_and!.
Qed.

End CompilerFacts.

Lemma abort_signal_witness :
  Compiler.compile Compiler.sampleHost Compiler.sampleCustom 1 Compiler.sampleVm
    (Compiler.leaf "div") (Compiler.DElement "root" "div") Compiler.noMeta
    Compiler.abortedWorld = Some Compiler.abortedWorld
  ∧ Compiler.compileChildren
      (Compiler.compile Compiler.sampleHost Compiler.sampleCustom 3) Compiler.sampleVm
      ([Compiler.leaf "text"] ++ Compiler.leaf "stop" :: [Compiler.leaf "text"])
      (Compiler.DElement "root" "div") Compiler.freshWorld
    = Some (Compiler.mkWorld (Some (-1)) [] None ["text"; "stop"])
  ∧ Compiler.compileBlock Compiler.sampleHost
      (Compiler.compile Compiler.sampleHost Compiler.sampleCustom 3) Compiler.sampleVm
      (Compiler.withChildren (Compiler.leaf "block")
         ([Compiler.leaf "text"] ++ Compiler.leaf "stop" :: [Compiler.leaf "text"]))
      (Compiler.DElement "root" "div") Compiler.freshWorld
    = Some (Compiler.mkWorld (Some (-1)) [] None ["text"; "stop"]).
Proof.
  destruct (abort_signal_stops_compilation Compiler.sampleHost Compiler.sampleCustom
              Compiler.sampleVm) as (Hcompile & Hchildren & Hblock).
  split_and!.
  - apply Hcompile. reflexivity.
  - apply Hchildren; vm_compute; reflexivity.
  - apply Hblock; vm_compute; reflexivity.
Defined.

Lemma directive_on_document_root_witness :
  ∃ w', Compiler.compile Compiler.sampleHost Compiler.sampleCustom 1 Compiler.sampleVm
          (Compiler.mkTemplate "div" None None [] (Some (Compiler.RepeatGetter 0)) None)
          Compiler.documentRoot Compiler.noMeta Compiler.freshWorld = Some w'
    ∧ Compiler.warnings w' = [] ++ [Compiler.repeatMessage]
    ∧ Compiler.heap w' = []
    ∧ Compiler.lastSignal w' = None
    ∧ Compiler.treeModeParentNode w' = None.
Proof.
  apply (directive_on_document_root_skipped Compiler.sampleHost Compiler.sampleCustom 0
           Compiler.sampleVm
           (Compiler.mkTemplate "div" None None [] (Some (Compiler.RepeatGetter 0)) None)
           Compiler.documentRoot Compiler.noMeta Compiler.freshWorld);
    reflexivity.
Defined.

(** ** The repeat reconciler *)

Section RepeatFacts.
Import Js Repeat.

Variable trackBy : Val.
Variable compileInto :
  nat → Item → nat → list (option nat) * option Mark → list (option nat) * option Mark.
Variable removeItem : list Item → Item → list Item.

Abbreviation keyOf := (Repeat.keyOf trackBy).
Abbreviation handler := (Repeat.handler trackBy compileInto removeItem).
Abbreviation placeItem := (Repeat.placeItem trackBy compileInto removeItem).
Abbreviation compileItem := (Repeat.compileItem compileInto).
Abbreviation scanOld := (Repeat.scanOld trackBy).
Abbreviation collectKey := (Repeat.collectKey trackBy).
Abbreviation trackMapOf := (Repeat.trackMapOf trackBy).
Abbreviation keysOf := (Repeat.keysOf trackBy).
Abbreviation keyed := (Repeat.keyed trackBy).
Abbreviation nameOf := (Repeat.nameOf trackBy).
Abbreviation reusedFor := (Repeat.reusedFor trackBy).

Lemma indexed_lookup {A} (l : list A) i :
  indexed l !! i = (fun x => (i, x)) <$> l !! i.
Proof. unfold indexed. apply list_lookup_imap. Qed.

Lemma indexed_elem {A} (l : list A) j x :
  (j, x) ∈ indexed l → l !! j = Some x.
Proof.
  intros [i Hi]%list_elem_of_lookup. rewrite indexed_lookup in Hi.
  destruct (l !! i) as [y|] eqn:Hy; simpl in Hi; [|done].
  by injection Hi as <- <-.
Qed.

Lemma keysOf_lookup (l : list Item) i :
  keysOf l !! i = (fun x => nameOf (i, x)) <$> l !! i.
Proof.
  unfold Repeat.keysOf. rewrite list_lookup_fmap, indexed_lookup.
  by destruct (l !! i).
Qed.

(** *** First loop *)

Lemma collectKey_keyed m entry :
  keyOf entry.2 entry.1 ≠ VNull ∧ keyOf entry.2 entry.1 ≠ VStr "" →
  collectKey m entry = <[nameOf entry := entry.2]> m.
Proof.
  intros [Hnull Hempty]. unfold Repeat.collectKey, strict_eq.
  by rewrite !bool_decide_eq_false_2.
Qed.

Lemma trackMap_domain entries (m : gmap string Item) k :
  Forall (fun e => keyOf e.2 e.1 ≠ VNull ∧ keyOf e.2 e.1 ≠ VStr "") entries →
  is_Some (foldl collectKey m entries !! k)
  ↔ is_Some (m !! k) ∨ k ∈ nameOf <$> entries.
Proof.
  intros Hall. revert m.
  induction Hall as [|e entries He _ IH]; intros m; simpl.
  - rewrite elem_of_nil. tauto.
  - rewrite IH, (collectKey_keyed _ _ He), lookup_insert_is_Some, elem_of_cons.
    destruct (decide (nameOf e = k)); intuition.
Qed.

(** *** Second loop, when every old key is among the new ones *)

Lemma scan_all_kept tm oc ov entries acc :
  Forall (fun e => hasOwn tm (keyOf e.2 e.1) = true) entries →
  NoDup (nameOf <$> entries) →
  let scan := foldl (scanOld tm oc ov) acc entries in
  scanCalls scan = scanCalls acc
  ∧ (∀ e, e ∈ entries → reusedMap scan !! nameOf e = Some (reusedFor oc ov e))
  ∧ (∀ k, k ∉ nameOf <$> entries → reusedMap scan !! k = reusedMap acc !! k).
Proof.
  intros Hall. revert acc.
  induction Hall as [|e entries He _ IH]; intros acc Hnd; simpl.
  - split; [done|]. split; [|done]. intros e He. by apply elem_of_nil in He.
  - apply NoDup_cons in Hnd as [Hfresh Hnd].
    unfold Repeat.scanOld at 2 4 6. rewrite He.
    match goal with |- context [foldl _ ?a entries] => destruct (IH a Hnd) as (Hc & Hin & Hout) end.
    split; [by rewrite Hc|]. split.
    + intros e' [->|He']%elem_of_cons; [|by apply Hin].
      rewrite Hout by done. simpl. by rewrite lookup_insert_eq.
    + intros k Hk. apply not_elem_of_cons in Hk as [Hne Hk].
      rewrite Hout by done. simpl. by rewrite lookup_insert_ne.
Qed.

(** *** Third loop, when every new key has a [reusedMap] entry *)



(** *** Keys that are never tracked *)






(** *** The second and third loop in general *)

Lemma scanOld_step tm oc ov acc e :
  scanOld tm oc ov acc e =
    if hasOwn tm (keyOf e.2 e.1) then
      mkScan (<[nameOf e := reusedFor oc ov e]> (reusedMap acc))
             (reusedList acc ++ [e.2]) (scanCalls acc)
    else
      mkScan (reusedMap acc) (reusedList acc)
             (scanCalls acc ++ [RemoveTarget (mjoin (oc !! e.1))]).
Proof. reflexivity. Qed.


Lemma place_general (rm : gmap string Reused) entries run rl :
  (∀ k r, rm !! k = Some r → is_Some (r_vm r)) →
  Forall (fun e => protoMember (nameOf e) = false) entries →
  ∃ run' rl' added contexts,
    foldl (placeItem rm) (Some (run, rl)) entries = Some (run', rl')
    ∧ calls run' = calls run ++ added
    ∧ vms run' = vms run ++ contexts
    ∧ (nextVm run ≤ nextVm run')%nat
    ∧ data run' = data run
    ∧ (∀ p e, entries !! p = Some e → rm !! nameOf e = None →
         ∃ vm, contexts !! p = Some vm ∧ (nextVm run ≤ vm)%nat
           ∧ CompileItem vm e.2 e.1 ∈ added).
Proof.
  intros Hvms Hplain. revert run rl.
  induction Hplain as [|e entries He _ IH]; intros run rl; simpl.
  - exists run, rl, [], []. rewrite !app_nil_r. by split_and!.
  - change (to_property_key (keyOf e.2 e.1)) with (nameOf e). rewrite He.
    destruct (rm !! nameOf e) as [r|] eqn:Hr.
    + destruct (Hvms _ _ Hr) as [v Hv]. rewrite Hv.
      match goal with |- context [foldl _ (Some (?a, ?b)) entries] =>
        destruct (IH a b) as (run' & rl' & added & vs & Hf & Hc & Hvm & Hn & Hd & Hnew)
      end.
      simpl in Hc, Hvm, Hn, Hd, Hnew.
      destruct (isHead (r_item r) rl); simpl in Hc.
      * exists run', rl', added, (v :: vs).
        rewrite Hf, Hc, Hvm, <-app_assoc. split_and!; try done.
        intros [|p] e' He' Hnone; simpl in He'; [congruence|by apply Hnew].
      * exists run', rl', (MoveTarget (r_target r) (updateMark run) :: added), (v :: vs).
        rewrite Hf, Hc, Hvm, <-!app_assoc. split_and!; try done.
        intros [|p] e' He' Hnone; simpl in He'; [congruence|].
        destruct (Hnew p e' He' Hnone) as (vm & Hp & Hle & Hin).
        exists vm. split_and!; [done|done|apply elem_of_cons; by right].
    + destruct (IH (compileItem run e.2 e.1) rl)
        as (run' & rl' & added & vs & Hf & Hc & Hvm & Hn & Hd & Hnew).
      simpl in Hc, Hvm, Hn, Hd, Hnew.
      exists run', rl', (CompileItem (nextVm run) e.2 e.1 :: added), (nextVm run :: vs).
      rewrite Hf, Hc, Hvm, <-!app_assoc. split_and!; try done; [lia|].
      intros [|p] e' He' Hnone; simpl in He'.
      * injection He' as <-. exists (nextVm run).
        split_and!; [done|done|apply elem_of_cons; by left].
      * destruct (Hnew p e' He' Hnone) as (vm & Hp & Hle & Hin).
        exists vm. split_and!; [done|lia|apply elem_of_cons; by right].
Qed.


End RepeatFacts.




(** ** Objects and the style cascade, further *)

Section ObjectFacts.
Import Js.

Lemma obj_lookup_set_eq o k v : obj_lookup (obj_set o k v) k = Some v.
Proof.
  induction o as [|[k' v'] o IH]; simpl.
  - by rewrite String.eqb_refl.
  - destruct (String.eqb k' k) eqn:Hk; simpl; rewrite Hk; [done|apply IH].
Qed.

Lemma obj_lookup_set_ne o k k' v :
  k ≠ k' → obj_lookup (obj_set o k v) k' = obj_lookup o k'.
Proof.
  intros Hne. induction o as [|[k0 v0] o IH]; simpl.
  - by rewrite (proj2 (String.eqb_neq k k')).
  - destruct (String.eqb_spec k0 k) as [->|Hk0]; simpl.
    + by rewrite (proj2 (String.eqb_neq k k')).
    + destruct (String.eqb k0 k'); [done|apply IH].
Qed.

Lemma obj_lookup_set o k k' v :
  obj_lookup (obj_set o k v) k' = if decide (k = k') then Some v else obj_lookup o k'.
Proof.
  case_decide as Hk; [subst; apply obj_lookup_set_eq|by apply obj_lookup_set_ne].
Qed.

Lemma obj_lookup_Some o k v : obj_lookup o k = Some v → (k, v) ∈ o.
Proof.
  induction o as [|[k' v'] o IH]; simpl; [done|].
  destruct (String.eqb_spec k' k) as [->|Hne].
  - intros [= ->]. apply elem_of_cons. by left.
  - intros Hv. apply elem_of_cons. right. by apply IH.
Qed.

Lemma obj_lookup_None o k : obj_lookup o k = None ↔ k ∉ obj_keys o.
Proof.
  unfold obj_keys. induction o as [|[k' v'] o IH]; simpl.
  - split; [intros _; apply not_elem_of_nil|done].
  - rewrite not_elem_of_cons. destruct (String.eqb_spec k' k) as [->|Hne].
    + split; [done|]. by intros [? _].
    + rewrite IH. split; [by intros ?; split|by intros [_ ?]].
Qed.

Lemma obj_lookup_is_Some o k : is_Some (obj_lookup o k) ↔ k ∈ obj_keys o.
Proof.
  destruct (obj_lookup o k) as [v|] eqn:Hv.
  - split; [|by eauto]. intros _.
    destruct (decide (k ∈ obj_keys o)) as [|Hn]; [done|].
    apply obj_lookup_None in Hn. congruence.
  - split; [by intros [? ?]|]. intros Hin. by apply obj_lookup_None in Hv.
Qed.

(** [Object.assign] onto an object: the source's binding wins. *)
Lemma obj_lookup_assign target source k :
  NoDup (obj_keys source) →
  obj_lookup (obj_assign target source) k
  = Cascade.orElse (obj_lookup source k) (obj_lookup target k).
Proof.
  unfold obj_assign, obj_keys. revert target.
  induction source as [|[k0 v0] source IH]; intros target Hnd; simpl; [done|].
  apply NoDup_cons in Hnd as [Hfresh Hnd]. rewrite IH by done.
  rewrite obj_lookup_set. destruct (String.eqb_spec k0 k) as [->|Hne].
  - rewrite decide_True by done.
    by rewrite (proj2 (obj_lookup_None source k) Hfresh).
  - by rewrite decide_False.
Qed.

Lemma count_run_perm {A} (cmp : A → A → Z) descending rest : ∀ previous run_rev,
  (count_run cmp descending previous run_rev rest).1
    ++ (count_run cmp descending previous run_rev rest).2 ≡ₚ run_rev ++ rest.
Proof.
  induction rest as [|current rest IH]; intros previous run_rev; simpl; [done|].
  destruct (if descending then _ else _); [done|].
  rewrite IH. simpl. by rewrite Permutation_middle.
Qed.

Lemma sort_insert_perm {A} (cmp : A → A → Z) (sorted : list A) pivot :
  sort_insert cmp sorted pivot ≡ₚ pivot :: sorted.
Proof.
  unfold sort_insert. rewrite <-Permutation_middle. by rewrite take_drop.
Qed.

(** The sort keeps every key, whatever the comparator. *)
Lemma array_sort_perm {A} (cmp : A → A → Z) (l : list A) :
  array_sort cmp l ≡ₚ l.
Proof.
  assert (Hgen : ∀ rest run, foldl (sort_insert cmp) run rest ≡ₚ run ++ rest).
  { induction rest as [|x rest IH]; intros run; simpl; [by rewrite app_nil_r|].
    rewrite IH, sort_insert_perm. simpl. apply Permutation_middle. }
  destruct l as [|first [|second rest]]; [done..|]. unfold array_sort.
  set (counted := count_run cmp (cmp second first <? 0) second [second; first] rest).
  rewrite Hgen.
  assert (Hrun : (if cmp second first <? 0 then counted.1 else rev counted.1)
                 ≡ₚ counted.1).
  { destruct (cmp second first <? 0); [done|]. by rewrite <-Permutation_rev. }
  rewrite Hrun. unfold counted. rewrite count_run_perm. simpl.
  apply perm_swap.
Qed.

End ObjectFacts.

Section CascadeFacts.
Import Js Style Cascade.

Lemma plain_get o k : plain o → k ∈ obj_keys o → truthy (obj_get o k) = true.
Proof.
  intros Hp Hk. apply obj_lookup_is_Some in Hk as [v Hv].
  unfold obj_get. rewrite Hv. simpl.
  apply obj_lookup_Some in Hv.
  by apply (proj1 (Forall_forall _ _) Hp (k, v)).
Qed.

Lemma assignLoop_plain dest pending src k :
  Forall (fun key => truthy (obj_get dest key) = true) pending →
  obj_lookup (assignLoop dest pending src) k
  = if decide (k ∈ pending) then Some (obj_get dest k) else obj_lookup src k.
Proof.
  intros Hall. revert src.
  induction Hall as [|key rest Hkey _ IH]; intros src; cbn [assignLoop].
  - case_decide as Hin; [by apply elem_of_nil in Hin|done].
  - cbv zeta. rewrite Hkey, IH, obj_lookup_set.
    repeat case_decide; subst; try done; exfalso;
      rewrite elem_of_cons in *; intuition congruence.
Qed.

(** A layer without falsy values is written in full over what is there. *)
Lemma assignStyle_plain src dest k :
  plain dest →
  obj_lookup (assignStyle src dest) k = orElse (obj_lookup dest k) (obj_lookup src k).
Proof.
  intros Hp. unfold assignStyle.
  set (keys := rev (array_sort (styleCmp dest) (obj_keys dest))).
  assert (Hkeys : ∀ key, key ∈ keys ↔ key ∈ obj_keys dest).
  { intros key. unfold keys. by rewrite <-Permutation_rev, array_sort_perm. }
  rewrite assignLoop_plain.
  - destruct (obj_lookup dest k) as [v|] eqn:Hv; simpl.
    + rewrite decide_True; [|apply Hkeys, obj_lookup_is_Some; eauto].
      unfold obj_get. by rewrite Hv.
    + rewrite decide_False; [done|]. rewrite Hkeys. by apply obj_lookup_None.
  - apply Forall_forall. intros key Hkey. apply plain_get; [done|by apply Hkeys].
Qed.

(** X1. When the class, id and inline layers hold no falsy value,
    [toStyle] gives every property the value of the highest layer that
    has it: inline over id over class over tag. *)
Theorem toStyle_precedence tagStyle classStyle idStyle style k :
  NoDup (obj_keys tagStyle) →
  plain classStyle → plain idStyle → plain style →
  obj_lookup (toStyle tagStyle classStyle idStyle style) k
  = layered tagStyle classStyle idStyle style k.
Proof.
  intros Hnd Hc Hi Hs. unfold toStyle, layered.
  rewrite !assignStyle_plain by done.
  rewrite obj_lookup_assign by done. simpl.
  by destruct (obj_lookup tagStyle k).
Qed.

Lemma toStyle_precedence_witness :
  obj_lookup (toStyle [("color", VStr "red"); ("width", VStr "1")]
                      [("color", VStr "green"); ("margin", VStr "2")]
                      [("margin", VStr "3")]
                      [("color", VStr "blue")]) "margin"
  = layered [("color", VStr "red"); ("width", VStr "1")]
            [("color", VStr "green"); ("margin", VStr "2")]
            [("margin", VStr "3")]
            [("color", VStr "blue")] "margin".
Proof.
  apply toStyle_precedence.
  - vm_compute. apply (bool_decide_unpack _). vm_compute. exact I.
  - repeat constructor.
  - repeat constructor.
  - repeat constructor.
Defined.

End CascadeFacts.

(** ** Arrays *)

Section ArrayFacts.
Import Js Shape.

Lemma index_from_elem (l : list nat) x i :
  x ∈ l →
  index_from l x i = i + index_from l x 0
  ∧ 0 ≤ index_from l x 0 < Z.of_nat (length l).
Proof.
  intros Hx. revert i. induction l as [|y l IH]; intros i.
  { by apply elem_of_nil in Hx. }
  simpl. case_decide as Hy; [lia|].
  apply elem_of_cons in Hx as [->|Hx]; [done|].
  destruct (IH Hx (i + 1)) as [Hi Hr]. destruct (IH Hx (0 + 1)) as [H1 _].
  rewrite Hi, H1. lia.
Qed.

Lemma index_of_elem (l : list nat) x :
  x ∈ l → 0 ≤ index_of l x < Z.of_nat (length l).
Proof. intros Hx. unfold index_of. by apply (index_from_elem l x 0). Qed.

Lemma index_of_cons_ne (l : list nat) x y :
  y ≠ x → x ∈ l → index_of (y :: l) x = 1 + index_of l x.
Proof.
  intros Hne Hx. unfold index_of. simpl. rewrite decide_False by done.
  by destruct (index_from_elem l x (0 + 1) Hx) as [-> _].
Qed.

Lemma index_of_not_elem (l : list nat) x : x ∉ l → index_of l x = -1.
Proof. intros Hx. unfold index_of. apply index_from_absent; [lia|done]. Qed.

Lemma index_of_lookup (l : list nat) x :
  x ∈ l → l !! Z.to_nat (index_of l x) = Some x.
Proof.
  induction l as [|y l IH]; intros Hx; [by apply elem_of_nil in Hx|].
  destruct (decide (y = x)) as [->|Hne].
  - unfold index_of. simpl. by rewrite decide_True.
  - apply elem_of_cons in Hx as [->|Hx]; [done|].
    rewrite index_of_cons_ne by done.
    pose proof (index_of_elem l x Hx).
    replace (Z.to_nat (1 + index_of l x)) with (S (Z.to_nat (index_of l x))) by lia.
    simpl. by apply IH.
Qed.

Lemma nth_z_elem {A} (l : list A) i x : nth_z l i = Some x → x ∈ l.
Proof.
  unfold nth_z. destruct (i <? 0); [done|]. apply list_elem_of_lookup_2.
Qed.

Lemma splice_start_in {A} (l : list A) i :
  0 ≤ i ≤ Z.of_nat (length l) → splice_start l i = Z.to_nat i.
Proof.
  intros Hi. unfold splice_start.
  destruct (i <? 0) eqn:Hneg; [lia|]. by rewrite Z.min_l by lia.
Qed.

Lemma splice_insert_end {A} (l : list A) x :
  splice_insert l (Z.of_nat (length l)) x = l ++ [x].
Proof.
  unfold splice_insert. rewrite splice_start_in by lia.
  rewrite Nat2Z.id, firstn_all, drop_all. done.
Qed.

Lemma splice_insert_front {A} (l : list A) x : splice_insert l 0 x = x :: l.
Proof. unfold splice_insert. rewrite splice_start_in by lia. done. Qed.

(** Removing at the index [indexOf] finds removes the first occurrence. *)
Lemma splice_remove_index_of (l : list nat) x :
  x ∈ l → splice_remove l (index_of l x) = removeFirst x l.
Proof.
  intros Hx. unfold splice_remove.
  rewrite splice_start_in by (pose proof (index_of_elem l x Hx); lia).
  induction l as [|y l IH]; [by apply elem_of_nil in Hx|].
  simpl removeFirst. destruct (decide (y = x)) as [->|Hne].
  - unfold index_of. simpl. rewrite decide_True by done. simpl. by rewrite drop_0.
  - apply elem_of_cons in Hx as [->|Hx]; [done|].
    rewrite index_of_cons_ne by done.
    pose proof (index_of_elem l x Hx).
    replace (Z.to_nat (1 + index_of l x)) with (S (Z.to_nat (index_of l x))) by lia.
    simpl. f_equal. by apply IH.
Qed.

Lemma removeFirst_filter (P : nat → Prop) `{∀ y, Decision (P y)} x l :
  filter P (removeFirst x l)
  = if decide (P x) then removeFirst x (filter P l) else filter P l.
Proof.
  induction l as [|y l IH]; simpl; [by case_decide|].
  destruct (decide (y = x)) as [->|Hne].
  - rewrite filter_cons. case_decide; simpl; [by rewrite decide_True|done].
  - rewrite !filter_cons, IH.
    destruct (decide (P y)); destruct (decide (P x)); simpl; try done.
    by rewrite decide_False.
Qed.

Lemma removeFirst_perm x l : x ∈ l → x :: removeFirst x l ≡ₚ l.
Proof.
  induction l as [|y l IH]; intros Hx; [by apply elem_of_nil in Hx|]. simpl.
  destruct (decide (y = x)) as [->|Hne]; [done|].
  apply elem_of_cons in Hx as [->|Hx]; [done|].
  rewrite perm_swap. by rewrite IH.
Qed.

Lemma splice_insert_perm {A} (l : list A) i x : splice_insert l i x ≡ₚ x :: l.
Proof.
  unfold splice_insert. rewrite <-Permutation_middle.
  by rewrite take_drop.
Qed.

End ArrayFacts.

(** ** Running the tree operations on the skeleton of the heap *)

Section ShapeFacts.
Import Js Vdom Shape.

Lemma runs_bind {A B} (m : M A) (k : A → M B) st
    (P : A → Store → Prop) (Q : B → Store → Prop) :
  runs m st P → (∀ a st1, P a st1 → runs (k a) st1 Q) → runs (m ≫= k) st Q.
Proof.
  intros (a & st1 & Hm & HP) Hk.
  destruct (Hk a st1 HP) as (b & st2 & Hk' & HQ).
  exists b, st2. split; [|done]. by erewrite bind_Done.
Qed.

Lemma runs_ret {A} (a : A) st (Q : A → Store → Prop) : Q a st → runs (ret a) st Q.
Proof. intros HQ. by exists a, st. Qed.

Lemma runs_weaken {A} (m : M A) st (P Q : A → Store → Prop) :
  runs m st P → (∀ a st', P a st' → Q a st') → runs m st Q.
Proof. intros (a & st' & Hm & HP) HPQ. exists a, st'. eauto. Qed.

Lemma skeleton_lookup st i n :
  heap st !! i = Some n → skeleton st !! i = Some (skel n).
Proof. unfold skeleton. rewrite list_lookup_fmap. by intros ->. Qed.

Lemma skeleton_inv st i s :
  skeleton st !! i = Some s → ∃ n, heap st !! i = Some n ∧ skel n = s.
Proof.
  unfold skeleton. rewrite list_lookup_fmap.
  destruct (heap st !! i) as [n|]; simpl; [|done]. intros [= <-]. eauto.
Qed.

Lemma skeleton_element st i e d o :
  skeleton st !! i = Some (Some e, d, o) →
  ∃ b, heap st !! i = Some (Element b e) ∧ docId b = d ∧ ownerDocument b = o.
Proof.
  intros (n & Hn & Hs)%skeleton_inv. destruct n as [b e'|b]; [|done].
  injection Hs as -> <- <-. eauto.
Qed.

Lemma valid_insert {A} (sk : list A) j x i :
  is_Some (<[j := x]> sk !! i) ↔ is_Some (sk !! i).
Proof. by rewrite !lookup_lt_is_Some, length_insert. Qed.

Lemma unchanged_refl st : unchanged st st.
Proof. by unfold unchanged, becomes. Qed.

Lemma unchanged_becomes st st' sk c s h :
  becomes st sk c s h → unchanged st st' → becomes st' sk c s h.
Proof.
  unfold unchanged, becomes. intros (<- & <- & <- & <-) (-> & -> & -> & ->). done.
Qed.

Lemma unchanged_trans st1 st2 st3 :
  unchanged st1 st2 → unchanged st2 st3 → unchanged st1 st3.
Proof. intros H12 H23. by eapply unchanged_becomes. Qed.

Lemma updBase_run st i n f :
  heap st !! i = Some n →
  updBase i f st = Done tt (set_heap (<[i := withBase f n]> (heap st)) st).
Proof.
  intros Hn. unfold updBase. erewrite bind_Done by (by apply getNode_lookup). done.
Qed.

Lemma getNode_runs st i s :
  skeleton st !! i = Some s →
  runs (getNode i) st (fun n st' => st' = st ∧ skel n = s).
Proof.
  intros (n & Hn & Hs)%skeleton_inv. exists n, st. by rewrite (getNode_lookup _ _ _ Hn).
Qed.

Lemma updBase_runs st i f :
  is_Some (skeleton st !! i) → pointerOnly f →
  runs (updBase i f) st (fun _ st' => unchanged st st').
Proof.
  intros [s (n & Hn & _)%skeleton_inv] Hf. eexists tt, _.
  split; [by apply updBase_run|].
  unfold unchanged, becomes, skeleton, centers. simpl. split_and!; try done.
  rewrite list_fmap_insert. apply list_insert_id.
  rewrite list_lookup_fmap, Hn. simpl. f_equal.
  destruct n as [b e|b]; unfold skel; simpl; by destruct (Hf b) as [-> ->].
Qed.

Lemma updBaseOpt_runs st o f :
  (∀ i, o = Some i → is_Some (skeleton st !! i)) → pointerOnly f →
  runs (updBaseOpt o f) st (fun _ st' => unchanged st st').
Proof.
  intros Hv Hf. destruct o as [i|]; simpl.
  - apply updBase_runs; eauto.
  - apply runs_ret, unchanged_refl.
Qed.

Lemma updBase_doc_runs st i ed d0 o0 d o :
  skeleton st !! i = Some (ed, d0, o0) →
  runs (updBase i (set_doc d o)) st (fun _ st' =>
    becomes st' (<[i := (ed, d, o)]> (skeleton st)) (centers st) (sent st) (hooksRun st)).
Proof.
  intros (n & Hn & Hs)%skeleton_inv. eexists tt, _.
  split; [by apply updBase_run|].
  unfold becomes, skeleton, centers. simpl. split_and!; try done.
  rewrite list_fmap_insert. f_equal.
  destruct n as [b e|b]; injection Hs as <- _ _; done.
Qed.

Lemma updElement_runs st i f e d o :
  skeleton st !! i = Some (Some e, d, o) →
  runs (updElement i f) st (fun _ st' =>
    becomes st' (<[i := (Some (f e), d, o)]> (skeleton st))
            (centers st) (sent st) (hooksRun st)).
Proof.
  intros (b & Hn & <- & <-)%skeleton_element. eexists tt, _.
  split; [by eapply updElement_lookup|].
  unfold becomes, skeleton, centers. simpl. split_and!; try done.
  by rewrite list_fmap_insert.
Qed.

Lemma getList_runs st pure this e d o l :
  skeleton st !! this = Some (Some e, d, o) →
  listOf pure e = Some l →
  runs (getList pure this) st (fun r st' => r = l ∧ st' = st).
Proof.
  intros (b & Hn & _)%skeleton_element Hl. exists l, st. split; [|done].
  unfold getList. erewrite bind_Done by (by eapply getElement_lookup).
  unfold listOf in Hl. by rewrite Hl.
Qed.

Lemma putList_runs st pure this l e d o :
  skeleton st !! this = Some (Some e, d, o) →
  runs (putList pure this l) st (fun _ st' =>
    becomes st' (<[this := (Some (setList pure l e), d, o)]> (skeleton st))
            (centers st) (sent st) (hooksRun st)).
Proof.
  intros Hs. unfold putList.
  eapply runs_weaken; [by eapply updElement_runs|].
  intros [] st' Hb. unfold setList. by destruct pure.
Qed.

Lemma lengthOf_runs st pure this e d o l :
  skeleton st !! this = Some (Some e, d, o) →
  listOf pure e = Some l →
  runs (lengthOf pure this) st (fun r st' => r = Z.of_nat (length l) ∧ st' = st).
Proof.
  intros Hs Hl. unfold lengthOf.
  eapply runs_bind; [by eapply getList_runs|].
  intros r st1 [-> ->]. by apply runs_ret.
Qed.

Lemma getTaskCenter_runs st i ed d o :
  skeleton st !! i = Some (ed, d, o) →
  runs (getTaskCenter i) st (fun r st' => r = centerOf (centers st) o ∧ st' = st).
Proof.
  intros (n & Hn & Hs)%skeleton_inv. eexists _, st.
  split; [by apply getTaskCenter_lookup|]. split; [|done].
  injection Hs as _ _ <-. unfold taskCenterOf, centerOf, centers.
  destruct (ownerDocument (base n)); [|done]. by rewrite list_lookup_fmap.
Qed.

Lemma hasDoc_runs st i ed d o :
  skeleton st !! i = Some (ed, d, o) →
  runs (hasDoc i) st (fun r st' => r = bool_decide (is_Some d) ∧ st' = st).
Proof.
  intros Hs. unfold hasDoc.
  eapply runs_bind; [by eapply getNode_runs|].
  intros n st1 [-> Hn]. apply runs_ret. injection Hn as _ <- _. done.
Qed.

Lemma registerIn_runs st o node :
  is_Some (docs st !! o) →
  runs (registerIn (Some o) node) st (fun _ st' => unchanged st st').
Proof.
  intros [dc Hdc]. eexists tt, _.
  split; [unfold registerIn; rewrite Hdc; reflexivity|].
  unfold unchanged, becomes, skeleton, centers. simpl. split_and!; try done.
  rewrite list_fmap_insert. apply list_insert_id.
  by rewrite list_lookup_fmap, Hdc.
Qed.

Lemma registerNode_runs st this node ed d o :
  skeleton st !! this = Some (ed, d, Some o) →
  is_Some (docs st !! o) →
  runs (registerNode this node) st (fun _ st' => unchanged st st').
Proof.
  intros Hs Hd. unfold registerNode.
  eapply runs_bind; [by eapply getNode_runs|].
  intros n st1 [-> Hn]. injection Hn as _ _ ->. by apply registerIn_runs.
Qed.

Lemma send_runs st m :
  runs (send m) st (fun _ st' =>
    becomes st' (skeleton st) (centers st) (sent st ++ [m]) (hooksRun st)).
Proof. eexists tt, _. split; [done|]. by unfold becomes. Qed.

Lemma docs_valid st st' o :
  centers st' = centers st → is_Some (docs st !! o) → is_Some (docs st' !! o).
Proof.
  unfold centers. intros Hc. rewrite !lookup_lt_is_Some.
  apply (f_equal length) in Hc. rewrite !length_fmap in Hc. lia.
Qed.

Lemma pointerOnly_next v : pointerOnly (set_nextSibling v).
Proof. by intros b. Qed.
Lemma pointerOnly_previous v : pointerOnly (set_previousSibling v).
Proof. by intros b. Qed.
Lemma pointerOnly_parent v : pointerOnly (set_parentNode v).
Proof. by intros b. Qed.
Lemma pointerOnly_depth v : pointerOnly (set_depth v).
Proof. by intros b. Qed.

(** The four writes that link a node between two neighbours. *)
Lemma relink_runs st before target after f1 f2 f3 f4 :
  (∀ i, before = Some i → is_Some (skeleton st !! i)) →
  is_Some (skeleton st !! target) →
  (∀ i, after = Some i → is_Some (skeleton st !! i)) →
  pointerOnly f1 → pointerOnly f2 → pointerOnly f3 → pointerOnly f4 →
  runs (updBaseOpt before f1;; updBase target f2;; updBase target f3;;
        updBaseOpt after f4) st (fun _ st' => unchanged st st').
Proof.
  intros Hb Ht Ha H1 H2 H3 H4.
  eapply runs_bind; [by apply updBaseOpt_runs|]. intros [] st1 U1.
  pose proof U1 as (Hsk1 & _).
  eapply runs_bind; [apply updBase_runs; [by rewrite Hsk1|done]|]. intros [] st2 U2.
  pose proof U2 as (Hsk2 & _).
  eapply runs_bind; [apply updBase_runs; [by rewrite Hsk2, Hsk1|done]|]. intros [] st3 U3.
  pose proof U3 as (Hsk3 & _).
  eapply runs_weaken.
  { apply updBaseOpt_runs; [|done]. intros i Hi. rewrite Hsk3, Hsk2, Hsk1. eauto. }
  intros [] st4 U4. cbv beta.
  eauto using unchanged_trans.
Qed.

(** The two writes that close the gap a node leaves. *)
Lemma unlink_runs st before after f1 f2 :
  (∀ i, before = Some i → is_Some (skeleton st !! i)) →
  (∀ i, after = Some i → is_Some (skeleton st !! i)) →
  pointerOnly f1 → pointerOnly f2 →
  runs (updBaseOpt before f1;; updBaseOpt after f2) st (fun _ st' => unchanged st st').
Proof.
  intros Hb Ha H1 H2.
  eapply runs_bind; [by apply updBaseOpt_runs|]. intros [] st1 U1.
  pose proof U1 as (Hsk1 & _).
  eapply runs_weaken.
  { apply updBaseOpt_runs; [|done]. intros i Hi. rewrite Hsk1. eauto. }
  intros [] st2 U2. cbv beta. eauto using unchanged_trans.
Qed.

End ShapeFacts.

(** ** The index operations and the structural operations, run *)

Section TreeRuns.
Import Js Vdom Shape.

Lemma setList_setList pure l1 l2 e :
  setList pure l2 (setList pure l1 e) = setList pure l2 e.
Proof. by destruct pure. Qed.

Lemma setList_same pure l e : listOf pure e = Some l → setList pure l e = e.
Proof. destruct e, pure; simpl; by intros ->. Qed.

Lemma listOf_setList pure l e : listOf pure (setList pure l e) = Some l.
Proof. by destruct pure. Qed.

Lemma listOf_setList_other pure l e :
  listOf (negb pure) (setList pure l e) = listOf (negb pure) e.
Proof. by destruct pure. Qed.

Lemma removeFirst_absent x l : x ∉ l → removeFirst x l = l.
Proof.
  induction l as [|y l IH]; simpl; [done|].
  intros [Hne Hx]%not_elem_of_cons. rewrite decide_False by done. by rewrite IH.
Qed.

Lemma removeFirst_subseteq x l y : y ∈ removeFirst x l → y ∈ l.
Proof.
  induction l as [|z l IH]; simpl; [done|].
  case_decide; rewrite !elem_of_cons; [by right|]. intros [->|Hy]; [by left|]. right. auto.
Qed.

Lemma valid_all (sk : list (option ElementData * option nat * option nat))
    (l : list nat) x j s :
  Forall (fun c => is_Some (sk !! c)) l → x ∈ l → is_Some (<[j := s]> sk !! x).
Proof.
  intros Hall Hx. apply valid_insert. by apply (proj1 (Forall_forall _ _) Hall).
Qed.

Lemma insertIndex_runs st this target k cs pure e d o l :
  skeleton st !! this = Some (Some e, d, o) →
  listOf pure e = Some l →
  is_Some (skeleton st !! target) →
  (cs = true → Forall (fun c => is_Some (skeleton st !! c)) l) →
  runs (insertIndex this target k cs pure) st (fun r st' =>
    r = Z.max k 0
    ∧ becomes st'
        (<[this := (Some (setList pure (splice_insert l (Z.max k 0) target) e), d, o)]>
           (skeleton st))
        (centers st) (sent st) (hooksRun st)).
Proof.
  intros Hs Hl Ht Hall. unfold insertIndex.
  eapply runs_bind; [by eapply getList_runs|]. intros r st1 [-> ->]. cbv zeta.
  replace (if k <? 0 then 0 else k) with (Z.max k 0)
    by (destruct (Z.ltb_spec k 0); lia).
  eapply runs_bind; [by eapply putList_runs|]. intros [] st1 Hb.
  pose proof Hb as (Hsk & _).
  eapply runs_bind with (P := fun _ st2 => unchanged st1 st2).
  { unfold when. destruct cs; [|apply runs_ret, unchanged_refl].
    specialize (Hall eq_refl).
    apply relink_runs;
      try apply pointerOnly_next; try apply pointerOnly_previous; rewrite Hsk.
    - intros i Hi%nth_z_elem. by eapply valid_all.
    - by apply valid_insert.
    - intros i Hi%nth_z_elem. by eapply valid_all. }
  intros [] st2 U. apply runs_ret. split; [done|]. by eapply unchanged_becomes.
Qed.

Lemma removeIndex_runs st this target cs pure e d o l :
  skeleton st !! this = Some (Some e, d, o) →
  listOf pure e = Some l →
  (cs = true → Forall (fun c => is_Some (skeleton st !! c)) l) →
  runs (removeIndex this target cs pure) st (fun _ st' =>
    becomes st'
      (<[this := (Some (setList pure (removeFirst target l) e), d, o)]> (skeleton st))
      (centers st) (sent st) (hooksRun st)).
Proof.
  intros Hs Hl Hall. unfold removeIndex.
  eapply runs_bind; [by eapply getList_runs|]. intros r st1 [-> ->]. cbv zeta.
  destruct (decide (target ∈ l)) as [Hin|Hout].
  - pose proof (index_of_elem l target Hin) as Hr.
    destruct (index_of l target <? 0) eqn:Hneg; [lia|].
    eapply runs_bind with (P := fun _ st2 => unchanged st st2).
    { unfold when. destruct cs; [|apply runs_ret, unchanged_refl].
      apply unlink_runs;
        try apply pointerOnly_next; try apply pointerOnly_previous.
      - intros i Hi%nth_z_elem. by apply (proj1 (Forall_forall _ _) (Hall eq_refl)).
      - intros i Hi%nth_z_elem. by apply (proj1 (Forall_forall _ _) (Hall eq_refl)). }
    intros [] st2 U. pose proof U as (Hsk & Hc & Hse & Hh).
    rewrite splice_remove_index_of by done.
    eapply runs_weaken; [eapply putList_runs; by rewrite Hsk|].
    intros [] st3 (Hsk3 & Hc3 & Hs3 & Hh3). unfold becomes.
    by rewrite Hsk3, Hc3, Hs3, Hh3, Hsk, Hc, Hse, Hh.
  - rewrite (index_of_not_elem _ _ Hout). simpl. apply runs_ret.
    rewrite (removeFirst_absent _ _ Hout), (setList_same _ _ _ Hl).
    unfold becomes. by rewrite (list_insert_id _ _ _ Hs).
Qed.

Lemma splice_remove_elem {A} (l : list A) i x : x ∈ splice_remove l i → x ∈ l.
Proof.
  unfold splice_remove. rewrite elem_of_app. intros [Hx|Hx].
  - by eapply subseteq_take.
  - by eapply subseteq_drop.
Qed.

Lemma moveIndex_runs st this target k cs pure e d o l :
  skeleton st !! this = Some (Some e, d, o) →
  listOf pure e = Some l →
  target ∈ l →
  is_Some (skeleton st !! target) →
  (cs = true → Forall (fun c => is_Some (skeleton st !! c)) l) →
  let index := index_of l target in
  let place := if index <=? k then k - 1 else k in
  runs (moveIndex this target k cs pure) st (fun r st' =>
    r = (if index =? place then -1 else k)
    ∧ becomes st'
        (<[this := (Some (setList pure
                            (splice_insert (removeFirst target l) place target) e), d, o)]>
           (skeleton st))
        (centers st) (sent st) (hooksRun st)).
Proof.
  intros Hs Hl Hin Ht Hall index place. subst index place. unfold moveIndex.
  eapply runs_bind; [by eapply getList_runs|]. intros r st1 [-> ->]. cbv zeta.
  pose proof (index_of_elem l target Hin) as Hr.
  destruct (index_of l target <? 0) eqn:Hneg; [lia|].
  eapply runs_bind with (P := fun _ st2 => unchanged st st2).
  { unfold when. destruct cs; [|apply runs_ret, unchanged_refl].
    apply unlink_runs;
      try apply pointerOnly_next; try apply pointerOnly_previous.
    - intros i Hi%nth_z_elem. by apply (proj1 (Forall_forall _ _) (Hall eq_refl)).
    - intros i Hi%nth_z_elem. by apply (proj1 (Forall_forall _ _) (Hall eq_refl)). }
  intros [] st2 U. pose proof U as (Hsk & Hc & Hse & Hh).
  rewrite splice_remove_index_of by done.
  eapply runs_bind; [eapply putList_runs; by rewrite Hsk|].
  intros [] st3 (Hsk3 & Hc3 & Hs3 & Hh3).
  eapply runs_bind; [eapply putList_runs; rewrite Hsk3; apply list_lookup_insert_eq|].
  { rewrite Hsk. by eapply lookup_lt_Some. }
  intros [] st4 (Hsk4 & Hc4 & Hs4 & Hh4).
  eapply runs_bind with (P := fun _ st5 => unchanged st4 st5).
  { unfold when. destruct cs; [|apply runs_ret, unchanged_refl].
    assert (Hv : ∀ x, x ∈ l → is_Some (skeleton st4 !! x)).
    { intros x Hx. rewrite Hsk4, Hsk3, Hsk. apply valid_insert, valid_insert.
      by apply (proj1 (Forall_forall _ _) (Hall eq_refl)). }
    apply relink_runs;
      try apply pointerOnly_next; try apply pointerOnly_previous.
    - intros i Hi%nth_z_elem. by apply Hv, (removeFirst_subseteq target).
    - by apply Hv.
    - intros i Hi%nth_z_elem. by apply Hv, (removeFirst_subseteq target). }
  intros [] st5 U5.
  assert (Hfin : becomes st4
            (<[this := (Some (setList pure
                (splice_insert (removeFirst target l)
                   (if index_of l target <=? k then k - 1 else k) target) e), d, o)]>
               (skeleton st))
            (centers st) (sent st) (hooksRun st)).
  { unfold becomes.
    rewrite Hsk4, Hc4, Hs4, Hh4, Hsk3, Hc3, Hs3, Hh3, Hsk, Hc, Hse, Hh.
    by rewrite list_insert_insert_eq, setList_setList. }
  destruct (index_of l target =? _); apply runs_ret;
    (split; [done|by eapply unchanged_becomes]).
Qed.

Lemma moveIndex_absent st this target k cs pure e d o l :
  skeleton st !! this = Some (Some e, d, o) →
  listOf pure e = Some l →
  target ∉ l →
  moveIndex this target k cs pure st = Done (-1) st.
Proof.
  intros Hs Hl Hout. unfold moveIndex.
  destruct (getList_runs st pure this e d o l Hs Hl) as (r & st1 & Hg & -> & ->).
  erewrite bind_Done by done. cbv zeta.
  by rewrite (index_of_not_elem _ _ Hout).
Qed.

End TreeRuns.

Section TreeOps.
Import Js Vdom Shape.

Lemma heapFuel_runs st :
  runs heapFuel st (fun r st' => r = S (length (heap st)) ∧ st' = st).
Proof. by eexists _, st. Qed.

Lemma docReady_Some st dd o :
  docReady st (Some dd) o → ∃ i, o = Some i ∧ is_Some (docs st !! i).
Proof. by intros [?|?]. Qed.

Lemma linkChild_leaf_runs st this node te d o edn dn on :
  skeleton st !! this = Some (Some te, d, o) →
  skeleton st !! node = Some (edn, dn, on) →
  node ≠ this →
  (∀ e, edn = Some e → children e = Some []) →
  docReady st d o →
  runs (linkChild this node) st (fun _ st' =>
    becomes st'
      (<[node := (edn, (linkedDoc d o dn on).1, (linkedDoc d o dn on).2)]> (skeleton st))
      (centers st) (sent st) (hooksRun st)).
Proof.
  intros Hthis Hnode Hne Hleaf Hdoc. unfold linkChild.
  eapply runs_bind; [apply heapFuel_runs|]. intros fuel st0 [-> ->].
  cbn [linkChild_go].
  eapply runs_bind; [apply updBase_runs; [by rewrite Hnode|apply pointerOnly_parent]|].
  intros [] st1 U1. pose proof U1 as (Hsk1 & Hc1 & Hs1 & Hh1).
  eapply runs_bind; [eapply getNode_runs; by rewrite Hsk1|].
  intros t st1' [-> Ht]. injection Ht as Hte Htd Hto.
  eapply runs_bind with
    (P := fun _ st2 => becomes st2
            (<[node := (edn, (linkedDoc d o dn on).1, (linkedDoc d o dn on).2)]>
               (skeleton st)) (centers st) (sent st) (hooksRun st)).
  { rewrite Htd, Hto. destruct d as [dd|]; simpl.
    - destruct (docReady_Some _ _ _ Hdoc) as (i & -> & Hdocs).
      eapply runs_bind; [eapply updBase_doc_runs; by rewrite Hsk1|].
      intros [] st2 (Hsk2 & Hc2 & Hs2 & Hh2).
      eapply runs_bind.
      { apply registerIn_runs. eapply docs_valid; [|done]. by rewrite Hc2, Hc1. }
      intros [] st3 U3. pose proof U3 as (Hsk3 & _).
      eapply runs_weaken.
      { apply updBase_runs; [|apply pointerOnly_depth].
        rewrite Hsk3, Hsk2, Hsk1. apply valid_insert. by rewrite Hnode. }
      intros [] st4 U4. cbv beta.
      eapply unchanged_becomes; [|done]. eapply unchanged_becomes; [|done].
      unfold becomes. by rewrite Hsk2, Hc2, Hs2, Hh2, Hsk1, Hc1, Hs1, Hh1.
    - apply runs_ret. unfold becomes.
      rewrite Hsk1, Hc1, Hs1, Hh1. by rewrite (list_insert_id _ _ _ Hnode). }
  intros [] st2 (Hsk2 & Hc2 & Hs2 & Hh2).
  eapply runs_bind.
  { eapply getNode_runs. rewrite Hsk2. apply list_lookup_insert_eq.
    by eapply lookup_lt_Some. }
  intros c st2' [-> Hc]. injection Hc as Hce _ _.
  destruct c as [cb ce|cb]; simpl in Hce.
  - rewrite (Hleaf ce) by done. simpl. by apply runs_ret.
  - by apply runs_ret.
Qed.

Lemma centerOf_taskCenterOf st b :
  centerOf (centers st) (ownerDocument b) = taskCenterOf st b.
Proof.
  unfold centerOf, taskCenterOf, centers.
  destruct (ownerDocument b); [|done]. by rewrite list_lookup_fmap.
Qed.

Lemma childrenOf_skeleton st i e d o :
  skeleton st !! i = Some (Some e, d, o) →
  childrenOf st i = children e ∧ pureChildrenOf st i = pureChildren e.
Proof.
  intros (b & Hn & _)%skeleton_element. unfold childrenOf, pureChildrenOf.
  by rewrite Hn.
Qed.

Lemma elementsOf_skeleton st l :
  elementsOf st l
  = filter (fun i => default false (isElementS <$> skeleton st !! i) = true) l.
Proof.
  unfold elementsOf. apply list_filter_iff. intros i.
  unfold skeleton. rewrite list_lookup_fmap.
  by destruct (heap st !! i) as [[b e|b]|].
Qed.

Lemma elementsOf_same st st' l :
  isElementS <$> skeleton st' = isElementS <$> skeleton st →
  elementsOf st' l = elementsOf st l.
Proof.
  intros Hk. rewrite !elementsOf_skeleton. apply list_filter_iff. intros i.
  by rewrite <-!list_lookup_fmap, Hk.
Qed.

Lemma kinds_insert (sk : list (option ElementData * option nat * option nat)) j s s' :
  sk !! j = Some s → isElementS s' = isElementS s →
  isElementS <$> <[j := s']> sk = isElementS <$> sk.
Proof.
  intros Hj Hs. rewrite list_fmap_insert, Hs. apply list_insert_id.
  by rewrite list_lookup_fmap, Hj.
Qed.

Lemma elementsOf_single st node n :
  heap st !! node = Some n →
  elementsOf st [node] = if isElement n then [node] else [].
Proof.
  intros Hn. unfold elementsOf. rewrite filter_cons, filter_nil, Hn. simpl.
  destruct (isElement n); by case_decide.
Qed.

Lemma elementsOf_app st l1 l2 :
  elementsOf st (l1 ++ l2) = elementsOf st l1 ++ elementsOf st l2.
Proof. apply filter_app. Qed.

Lemma valid_heap st (l : list nat) :
  Forall (fun c => is_Some (heap st !! c)) l →
  Forall (fun c => is_Some (skeleton st !! c)) l.
Proof.
  intros Hall. eapply Forall_impl; [exact Hall|].
  intros c [n Hn]. rewrite (skeleton_lookup _ _ _ Hn). eauto.
Qed.

(** [appendChild] of a detached leaf, on the skeleton. *)
Lemma appendChild_runs st this node tb te n l p :
  heap st !! this = Some (Element tb te) →
  children te = Some l →
  pureChildren te = Some p →
  heap st !! node = Some n →
  parentNode (base n) = None →
  leaf n →
  node ≠ this →
  Forall (fun c => is_Some (heap st !! c)) l →
  docReady st (docId tb) (ownerDocument tb) →
  runs (appendChild this node) st (fun _ st' =>
    let te1 := set_children (Some (l ++ [node])) te in
    let te2 := if isElement n then set_pureChildren (Some (p ++ [node])) te1 else te1 in
    let doc := linkedDoc (docId tb) (ownerDocument tb)
                 (docId (base n)) (ownerDocument (base n)) in
    becomes st'
      (<[this := (Some te2, docId tb, ownerDocument tb)]>
         (<[node := (elementData n, doc.1, doc.2)]> (skeleton st)))
      (centers st)
      (sent st ++ if isElement n && taskCenterOf st tb
                  then [AddElement this node (-1)] else [])
      (hooksRun st)).
Proof.
  intros Hthis Hl Hp Hnode Hpar Hleaf Hne Hall Hdoc.
  pose proof (skeleton_lookup _ _ _ Hthis) as Hst.
  pose proof (skeleton_lookup _ _ _ Hnode) as Hsn.
  unfold skel in Hst, Hsn. simpl in Hst.
  apply valid_heap in Hall.
  unfold appendChild.
  eapply runs_bind with (P := fun r st' => r = n ∧ st' = st).
  { exists n, st. by rewrite (getNode_lookup _ _ _ Hnode). }
  intros n0 st0 [-> ->]. unfold foreignParent, hasParent. rewrite Hpar. simpl.
  eapply runs_bind.
  { eapply linkChild_leaf_runs; try done.
    intros e He. destruct n as [nb ne|nb]; [|done]. injection He as <-. exact Hleaf. }
  intros [] st1 (Hsk1 & Hc1 & Hs1 & Hh1).
  set (doc := linkedDoc (docId tb) (ownerDocument tb)
                (docId (base n)) (ownerDocument (base n))) in *.
  assert (Hthis1 : skeleton st1 !! this = Some (Some te, docId tb, ownerDocument tb)).
  { rewrite Hsk1. by rewrite list_lookup_insert_ne. }
  assert (Hv1 : ∀ i, is_Some (skeleton st !! i) → is_Some (skeleton st1 !! i)).
  { intros i Hi. rewrite Hsk1. by apply valid_insert. }
  eapply runs_bind; [by eapply (lengthOf_runs _ false)|]. intros len st1' [-> ->].
  eapply runs_bind.
  { eapply (insertIndex_runs _ _ _ _ true false); try done.
    - apply Hv1. rewrite Hsn. eauto.
    - intros _. eapply Forall_impl; [exact Hall|]. intros c Hc. by apply Hv1. }
  intros r st2 (_ & Hsk2 & Hc2 & Hs2 & Hh2).
  rewrite Z.max_l in Hsk2 by lia. rewrite splice_insert_end in Hsk2.
  change (setList false (l ++ [node]) te) with (set_children (Some (l ++ [node])) te) in Hsk2.
  set (te1 := set_children (Some (l ++ [node])) te) in *.
  assert (Hlen : (this < length (skeleton st1))%nat) by (by eapply lookup_lt_Some).
  assert (Hthis2 : skeleton st2 !! this = Some (Some te1, docId tb, ownerDocument tb)).
  { rewrite Hsk2. by apply list_lookup_insert_eq. }
  eapply runs_bind; [by eapply hasDoc_runs|]. intros hd st2' [-> ->].
  eapply runs_bind with (P := fun _ st3 => unchanged st2 st3).
  { unfold when. case_bool_decide as Hd; [|apply runs_ret, unchanged_refl].
    destruct Hd as [dd Hd]. rewrite Hd in Hdoc.
    destruct (docReady_Some _ _ _ Hdoc) as (i & Ho & Hdocs).
    eapply registerNode_runs; [by rewrite Hthis2, Ho|].
    eapply docs_valid; [|done]. by rewrite Hc2, Hc1. }
  intros [] st3 U3. pose proof U3 as (Hsk3 & Hc3 & Hs3 & Hh3).
  unfold when. destruct (isElement n) eqn:Hkind; simpl.
  - eapply runs_bind.
    { eapply (lengthOf_runs _ true _ _ _ _ p); [rewrite Hsk3; exact Hthis2|exact Hp]. }
    intros plen st3' [-> ->].
    eapply runs_bind.
    { eapply (insertIndex_runs _ _ _ _ false true _ _ _ p).
      - rewrite Hsk3. exact Hthis2.
      - exact Hp.
      - rewrite Hsk3, Hsk2. apply valid_insert, Hv1. rewrite Hsn. eauto.
      - done. }
    intros r' st4 (_ & Hsk4 & Hc4 & Hs4 & Hh4).
    rewrite Z.max_l in Hsk4 by lia. rewrite splice_insert_end in Hsk4.
    eapply runs_bind.
    { eapply getTaskCenter_runs. rewrite Hsk4. apply list_lookup_insert_eq.
      by rewrite Hsk3, Hsk2, length_insert. }
    intros tc st4' [-> ->]. rewrite Hc4, Hc3, Hc2, Hc1, centerOf_taskCenterOf.
    assert (Hfin : skeleton st4
              = <[this := (Some (set_pureChildren (Some (p ++ [node])) te1),
                           docId tb, ownerDocument tb)]>
                  (<[node := (elementData n, doc.1, doc.2)]> (skeleton st))).
    { rewrite Hsk4, Hsk3, Hsk2, Hsk1. by rewrite list_insert_insert_eq. }
    destruct (taskCenterOf st tb).
    + eapply runs_weaken; [apply send_runs|].
      intros [] st5 (Hsk5 & Hc5 & Hs5 & Hh5). unfold becomes.
      by rewrite Hsk5, Hc5, Hs5, Hh5, Hfin, Hc4, Hs4, Hh4, Hc3, Hs3, Hh3,
                 Hc2, Hs2, Hh2, Hc1, Hs1, Hh1.
    + apply runs_ret. unfold becomes.
      by rewrite Hfin, Hc4, Hs4, Hh4, Hc3, Hs3, Hh3, Hc2, Hs2, Hh2,
                 Hc1, Hs1, Hh1, app_nil_r.
  - apply runs_ret. unfold becomes.
    by rewrite Hsk3, Hc3, Hs3, Hh3, Hsk2, Hc2, Hs2, Hh2, Hsk1, Hc1, Hs1, Hh1, app_nil_r.
Qed.

End TreeOps.

Section ChildFacts.
Import Js Vdom Shape.

Lemma element_skeleton st i b e :
  heap st !! i = Some (Element b e) →
  skeleton st !! i = Some (Some e, docId b, ownerDocument b).
Proof. intros Hn. by rewrite (skeleton_lookup _ _ _ Hn). Qed.

Lemma isElementS_skel n : isElementS (skel n) = isElement n.
Proof. by destruct n. Qed.

Lemma elementsOf_member st node n l :
  heap st !! node = Some n →
  elementsOf st (removeFirst node l)
  = if isElement n then removeFirst node (elementsOf st l) else elementsOf st l.
Proof.
  intros Hn. unfold elementsOf. rewrite removeFirst_filter, Hn. simpl.
  destruct (isElement n); by case_decide.
Qed.

(** X2. [appendChild] of a detached node without children of its own, under
    a receiver whose children are live and whose document, if any, exists:
    the call returns, the node becomes the last entry of [children], the last
    entry of [pureChildren] exactly when it is an element, one
    [addElement] message with index [-1] is sent exactly when it is an
    element and the receiver reaches a task center, and the relation
    between the two child arrays is kept. *)
Theorem appendChild_detached st this node tb te n l p :
  heap st !! this = Some (Element tb te) →
  children te = Some l →
  pureChildren te = Some p →
  heap st !! node = Some n →
  parentNode (base n) = None →
  leaf n →
  node ≠ this →
  Forall (fun c => is_Some (heap st !! c)) l →
  docReady st (docId tb) (ownerDocument tb) →
  ∃ st', appendChild this node st = Done tt st'
    ∧ childrenOf st' this = Some (l ++ [node])
    ∧ pureChildrenOf st' this = Some (if isElement n then p ++ [node] else p)
    ∧ sent st' = sent st ++ (if isElement n && taskCenterOf st tb
                             then [AddElement this node (-1)] else [])
    ∧ (pureInvariant st this → pureInvariant st' this).
Proof.
  intros Hthis Hl Hp Hnode Hpar Hleaf Hne Hall Hdoc.
  destruct (appendChild_runs st this node tb te n l p) as ([] & st' & Hrun & Hb); try done.
  cbv zeta in Hb. destruct Hb as (Hsk & _ & Hs & _).
  pose proof (element_skeleton _ _ _ _ Hthis) as Hst.
  pose proof (skeleton_lookup _ _ _ Hnode) as Hsn.
  assert (Hlook : skeleton st' !! this
            = Some (Some (if isElement n
                          then set_pureChildren (Some (p ++ [node]))
                                 (set_children (Some (l ++ [node])) te)
                          else set_children (Some (l ++ [node])) te),
                    docId tb, ownerDocument tb)).
  { rewrite Hsk. apply list_lookup_insert_eq. rewrite length_insert.
    by eapply lookup_lt_Some. }
  destruct (childrenOf_skeleton _ _ _ _ _ Hlook) as [Hc' Hp'].
  assert (Hc'' : childrenOf st' this = Some (l ++ [node])).
  { rewrite Hc'. by destruct (isElement n). }
  assert (Hp'' : pureChildrenOf st' this = Some (if isElement n then p ++ [node] else p)).
  { rewrite Hp'. by destruct (isElement n). }
  exists st'. split_and!; try done.
  unfold pureInvariant. rewrite Hc'', Hp''.
  unfold childrenOf, pureChildrenOf. rewrite Hthis, Hl, Hp. intros ->.
  rewrite (elementsOf_same st st').
  - rewrite elementsOf_app, (elementsOf_single _ _ _ Hnode).
    destruct (isElement n); [done|by rewrite app_nil_r].
  - rewrite Hsk. erewrite kinds_insert; [erewrite kinds_insert; [done|exact Hsn|]|..].
    + by destruct n.
    + rewrite list_lookup_insert_ne by done. exact Hst.
    + by destruct (isElement n).
Qed.

Lemma appendChild_detached_witness :
  ∃ st', appendChild 0 1 sampleStore = Done tt st'
    ∧ childrenOf st' 0%nat = Some [1%nat]
    ∧ pureChildrenOf st' 0%nat = Some [1%nat]
    ∧ sent st' = [AddElement 0 1 (-1)]
    ∧ (pureInvariant sampleStore 0 → pureInvariant st' 0).
Proof.
  apply (appendChild_detached sampleStore 0 1
           (mkBase None None None (Some 0%nat) (Some 0%nat) 0)
           (set_destroyHook true newElementData) newElement [] []);
    try reflexivity.
  - lia.
  - constructor.
  - right. exists 0%nat. split; [reflexivity|]. by eexists.
Defined.

(** X23. A detached node without children of its own that is appended to
    a receiver belonging to a document joins that document: afterwards it
    carries the receiver's [docId] and [ownerDocument].  Under a receiver
    without a document it keeps the ones it had.  Its own data is not
    touched either way. *)
Theorem appended_node_joins_document st this node tb te n l p :
  heap st !! this = Some (Element tb te) →
  children te = Some l →
  pureChildren te = Some p →
  heap st !! node = Some n →
  parentNode (base n) = None →
  leaf n →
  node ≠ this →
  Forall (fun c => is_Some (heap st !! c)) l →
  docReady st (docId tb) (ownerDocument tb) →
  ∃ st' n',
    appendChild this node st = Done tt st'
    ∧ heap st' !! node = Some n'
    ∧ elementData n' = elementData n
    ∧ (is_Some (docId tb) →
         docId (base n') = docId tb ∧ ownerDocument (base n') = ownerDocument tb)
    ∧ (docId tb = None →
         docId (base n') = docId (base n)
         ∧ ownerDocument (base n') = ownerDocument (base n)).
Proof.
  intros Hthis Hl Hp Hnode Hpar Hleaf Hne Hall Hdoc.
  destruct (appendChild_runs st this node tb te n l p) as ([] & st' & Hrun & Hb); try done.
  cbv zeta in Hb. destruct Hb as (Hsk & _).
  pose proof (skeleton_lookup _ _ _ Hnode) as Hsn.
  assert (Hlook : skeleton st' !! node
            = Some (elementData n,
                    (linkedDoc (docId tb) (ownerDocument tb)
                       (docId (base n)) (ownerDocument (base n))).1,
                    (linkedDoc (docId tb) (ownerDocument tb)
                       (docId (base n)) (ownerDocument (base n))).2)).
  { rewrite Hsk, list_lookup_insert_ne by done.
    apply list_lookup_insert_eq. by eapply lookup_lt_Some. }
  apply skeleton_inv in Hlook as (n' & Hn' & Hs). injection Hs as He Hd Ho.
  exists st', n'. split_and!; try done.
  - intros [d Hdd]. rewrite Hd, Ho, Hdd. done.
  - intros Hnone. rewrite Hd, Ho, Hnone. done.
Qed.

Lemma appended_node_joins_document_witness :
  ∃ st' n',
    appendChild 0 1 sampleStore = Done tt st'
    ∧ heap st' !! 1%nat = Some n'
    ∧ elementData n' = elementData newElement
    ∧ (is_Some (docId parentBase) →
         docId (base n') = docId parentBase
         ∧ ownerDocument (base n') = ownerDocument parentBase)
    ∧ (docId parentBase = None →
         docId (base n') = docId (base newElement)
         ∧ ownerDocument (base n') = ownerDocument (base newElement)).
Proof.
  apply (appended_node_joins_document sampleStore 0 1 parentBase
           (set_destroyHook true newElementData) newElement [] []);
    try reflexivity.
  - lia.
  - constructor.
  - right. exists 0%nat. split; [reflexivity|]. by eexists.
Defined.

(** [removeChild(node, true)] of a node that has a parent, on the skeleton. *)
Lemma removeChild_runs st this node tb te n l p :
  heap st !! this = Some (Element tb te) →
  children te = Some l →
  pureChildren te = Some p →
  heap st !! node = Some n →
  is_Some (parentNode (base n)) →
  Forall (fun c => is_Some (heap st !! c)) l →
  runs (removeChild this node true) st (fun _ st' =>
    let te1 := set_children (Some (removeFirst node l)) te in
    let te2 := if isElement n
               then set_pureChildren (Some (removeFirst node p)) te1 else te1 in
    becomes st'
      (<[this := (Some te2, docId tb, ownerDocument tb)]> (skeleton st))
      (centers st)
      (sent st ++ if isElement n && taskCenterOf st tb
                  then [RemoveElement node] else [])
      (hooksRun st)).
Proof.
  intros Hthis Hl Hp Hnode [q Hpar] Hall.
  pose proof (element_skeleton _ _ _ _ Hthis) as Hst.
  apply valid_heap in Hall.
  assert (Hlen : (this < length (skeleton st))%nat) by (by eapply lookup_lt_Some).
  unfold removeChild.
  eapply runs_bind with (P := fun r st' => r = n ∧ st' = st).
  { exists n, st. by rewrite (getNode_lookup _ _ _ Hnode). }
  intros n0 st0 [-> ->]. unfold hasParent. rewrite Hpar. simpl.
  match goal with
  | |- runs _ _ ?Q =>
      eapply runs_bind with (P := Q); [|intros [] st9 Hb; apply runs_ret; exact Hb]
  end.
  eapply runs_bind.
  { by eapply (removeIndex_runs _ _ _ true false _ _ _ l). }
  intros [] st1 (Hsk1 & Hc1 & Hs1 & Hh1).
  change (setList false (removeFirst node l) te)
    with (set_children (Some (removeFirst node l)) te) in Hsk1.
  set (te1 := set_children (Some (removeFirst node l)) te) in *.
  assert (Hthis1 : skeleton st1 !! this = Some (Some te1, docId tb, ownerDocument tb)).
  { rewrite Hsk1. by apply list_lookup_insert_eq. }
  unfold when. destruct (isElement n); simpl.
  - eapply runs_bind.
    { eapply (removeIndex_runs _ _ _ false true _ _ _ p); [exact Hthis1|exact Hp|done]. }
    intros [] st2 (Hsk2 & Hc2 & Hs2 & Hh2).
    eapply runs_bind.
    { eapply getTaskCenter_runs. rewrite Hsk2. apply list_lookup_insert_eq.
      by rewrite Hsk1, length_insert. }
    intros tc st2' [-> ->]. rewrite Hc2, Hc1, centerOf_taskCenterOf.
    assert (Hfin : skeleton st2
              = <[this := (Some (set_pureChildren (Some (removeFirst node p)) te1),
                           docId tb, ownerDocument tb)]> (skeleton st)).
    { rewrite Hsk2, Hsk1. by rewrite list_insert_insert_eq. }
    destruct (taskCenterOf st tb).
    + eapply runs_weaken; [apply send_runs|].
      intros [] st3 (Hsk3 & Hc3 & Hs3 & Hh3). unfold becomes.
      by rewrite Hsk3, Hc3, Hs3, Hh3, Hfin, Hc2, Hs2, Hh2, Hc1, Hs1, Hh1.
    + apply runs_ret. unfold becomes.
      by rewrite Hfin, Hc2, Hs2, Hh2, Hc1, Hs1, Hh1, app_nil_r.
  - apply runs_ret. unfold becomes. by rewrite Hsk1, Hc1, Hs1, Hh1, app_nil_r.
Qed.

(** X3. [removeChild(node, true)] for a node that has some parent: the call
    returns, the first occurrence of the node leaves [children] and, for an
    element, [pureChildren]; one [removeElement] message is sent exactly
    when the node is an element and the receiver reaches a task center;
    the relation between the two child arrays is kept. *)
Theorem removeChild_preserved st this node tb te n l p :
  heap st !! this = Some (Element tb te) →
  children te = Some l →
  pureChildren te = Some p →
  heap st !! node = Some n →
  is_Some (parentNode (base n)) →
  Forall (fun c => is_Some (heap st !! c)) l →
  ∃ st', removeChild this node true st = Done tt st'
    ∧ childrenOf st' this = Some (removeFirst node l)
    ∧ pureChildrenOf st' this = Some (if isElement n then removeFirst node p else p)
    ∧ sent st' = sent st ++ (if isElement n && taskCenterOf st tb
                             then [RemoveElement node] else [])
    ∧ (pureInvariant st this → pureInvariant st' this).
Proof.
  intros Hthis Hl Hp Hnode Hpar Hall.
  destruct (removeChild_runs st this node tb te n l p) as ([] & st' & Hrun & Hb); try done.
  cbv zeta in Hb. destruct Hb as (Hsk & _ & Hs & _).
  pose proof (element_skeleton _ _ _ _ Hthis) as Hst.
  assert (Hlook : skeleton st' !! this
            = Some (Some (if isElement n
                          then set_pureChildren (Some (removeFirst node p))
                                 (set_children (Some (removeFirst node l)) te)
                          else set_children (Some (removeFirst node l)) te),
                    docId tb, ownerDocument tb)).
  { rewrite Hsk. apply list_lookup_insert_eq. by eapply lookup_lt_Some. }
  destruct (childrenOf_skeleton _ _ _ _ _ Hlook) as [Hc' Hp'].
  assert (Hc'' : childrenOf st' this = Some (removeFirst node l)).
  { rewrite Hc'. by destruct (isElement n). }
  assert (Hp'' : pureChildrenOf st' this
                 = Some (if isElement n then removeFirst node p else p)).
  { rewrite Hp'. by destruct (isElement n). }
  exists st'. split_and!; try done.
  unfold pureInvariant. rewrite Hc'', Hp''.
  unfold childrenOf, pureChildrenOf. rewrite Hthis, Hl, Hp. intros ->.
  rewrite (elementsOf_same st st').
  - rewrite (elementsOf_member _ _ _ _ Hnode). by destruct (isElement n).
  - rewrite Hsk. erewrite kinds_insert; [done|exact Hst|]. by destruct (isElement n).
Qed.

Lemma removeChild_preserved_witness :
  ∃ st', removeChild 0 1 true populatedStore = Done tt st'
    ∧ childrenOf st' 0%nat = Some [2%nat; 3%nat]
    ∧ pureChildrenOf st' 0%nat = Some [3%nat]
    ∧ sent st' = sent populatedStore ++ [RemoveElement 1]
    ∧ (pureInvariant populatedStore 0 → pureInvariant st' 0).
Proof.
  apply (removeChild_preserved populatedStore 0 1 parentBase
           (parentData [1%nat; 2%nat; 3%nat] [1%nat; 3%nat])
           (Element (childBase None (Some 2%nat)) newElementData)
           [1%nat; 2%nat; 3%nat] [1%nat; 3%nat]);
    try (vm_compute; reflexivity).
  - by eexists.
  - repeat constructor; eexists; vm_compute; reflexivity.
Defined.

(** X27. [removeChild(node, true)] tests only that the node has some
    parent, not that the parent is the receiver: for an element that sits
    under another parent, the receiver's two child arrays stay as they
    are, and with a task center a [removeElement] message for the node is
    sent all the same. *)
Theorem removeChild_of_foreign_element st this node tb te nb ne l p :
  heap st !! this = Some (Element tb te) →
  children te = Some l →
  pureChildren te = Some p →
  heap st !! node = Some (Element nb ne) →
  is_Some (parentNode nb) →
  node ∉ l → node ∉ p →
  taskCenterOf st tb = true →
  Forall (fun c => is_Some (heap st !! c)) l →
  ∃ st', removeChild this node true st = Done tt st'
    ∧ childrenOf st' this = Some l
    ∧ pureChildrenOf st' this = Some p
    ∧ sent st' = sent st ++ [RemoveElement node].
Proof.
  intros Hthis Hl Hp Hnode Hpar Hol Hop Htc Hall.
  destruct (removeChild_runs st this node tb te (Element nb ne) l p)
    as ([] & st' & Hrun & Hb); try done.
  cbv zeta in Hb. simpl in Hb. rewrite Htc in Hb.
  rewrite !removeFirst_absent in Hb by done.
  destruct Hb as (Hsk & _ & Hs & _).
  pose proof (element_skeleton _ _ _ _ Hthis) as Hst.
  assert (Hlook : skeleton st' !! this
            = Some (Some (set_pureChildren (Some p) (set_children (Some l) te)),
                    docId tb, ownerDocument tb)).
  { rewrite Hsk. apply list_lookup_insert_eq. by eapply lookup_lt_Some. }
  destruct (childrenOf_skeleton _ _ _ _ _ Hlook) as [Hc' Hp'].
  exists st'. by split_and!.
Qed.

Lemma removeChild_of_foreign_element_witness :
  ∃ st', removeChild 1 3 true populatedStore = Done tt st'
    ∧ childrenOf st' 1%nat = Some []
    ∧ pureChildrenOf st' 1%nat = Some []
    ∧ sent st' = sent populatedStore ++ [RemoveElement 3].
Proof.
  apply (removeChild_of_foreign_element populatedStore 1 3
           (childBase None (Some 2%nat)) newElementData
           (childBase (Some 2%nat) None) newElementData [] []);
    try (vm_compute; reflexivity).
  - by eexists.
  - apply not_elem_of_nil.
  - apply not_elem_of_nil.
  - constructor.
Defined.

End ChildFacts.

Section InsertFacts.
Import Js Vdom Shape.

Lemma index_of_middle (l1 l2 : list nat) x :
  x ∉ l1 → index_of (l1 ++ x :: l2) x = Z.of_nat (length l1).
Proof.
  induction l1 as [|y l1 IH]; intros Hx.
  - unfold index_of. simpl. by rewrite decide_True.
  - apply not_elem_of_cons in Hx as [Hne Hx]. simpl app.
    rewrite index_of_cons_ne; [|done|].
    + rewrite IH by done. simpl length. lia.
    + apply elem_of_app. right. by left.
Qed.

Lemma splice_insert_at {A} (l1 l2 : list A) x :
  splice_insert (l1 ++ l2) (Z.of_nat (length l1)) x = l1 ++ x :: l2.
Proof.
  unfold splice_insert. rewrite splice_start_in by (rewrite length_app; lia).
  rewrite Nat2Z.id. by rewrite take_app_length, drop_app_length.
Qed.

Lemma splice_insert_behind {A} (l1 l2 : list A) y x :
  splice_insert (l1 ++ y :: l2) (Z.of_nat (length l1) + 1) x = l1 ++ y :: x :: l2.
Proof.
  replace (l1 ++ y :: l2) with ((l1 ++ [y]) ++ l2) by (by rewrite <-app_assoc).
  replace (Z.of_nat (length l1) + 1) with (Z.of_nat (length (l1 ++ [y])))
    by (rewrite length_app; simpl; lia).
  rewrite splice_insert_at. by rewrite <-app_assoc.
Qed.

Lemma walk_element st step i e d o :
  skeleton st !! i = Some (Some e, d, o) →
  runs (fuel ← heapFuel; siblingWalk step fuel (Some i)) st
       (fun r st' => r = Some i ∧ st' = st).
Proof.
  intros (b & Hn & _)%skeleton_element.
  eapply runs_bind; [apply heapFuel_runs|]. intros fuel st0 [-> ->].
  exists (Some i), st. split; [|done].
  cbn [siblingWalk]. erewrite bind_Done by (by apply getNode_lookup). done.
Qed.

(** The common first half of the three insertions of a detached node. *)
Lemma attach_runs st this node tb te n l (idx : list nat → Z) (rest : M unit)
    (Q : unit → Store → Prop) :
  heap st !! this = Some (Element tb te) →
  children te = Some l →
  heap st !! node = Some n →
  leaf n →
  node ≠ this →
  Forall (fun c => is_Some (heap st !! c)) l →
  docReady st (docId tb) (ownerDocument tb) →
  (∀ st3,
     becomes st3
       (<[this := (Some (set_children
                           (Some (splice_insert l (Z.max (idx l) 0) node)) te),
                   docId tb, ownerDocument tb)]>
          (<[node := (elementData n,
                      (linkedDoc (docId tb) (ownerDocument tb)
                         (docId (base n)) (ownerDocument (base n))).1,
                      (linkedDoc (docId tb) (ownerDocument tb)
                         (docId (base n)) (ownerDocument (base n))).2)]>
             (skeleton st)))
       (centers st) (sent st) (hooksRun st) →
     runs rest st3 Q) →
  runs (linkChild this node;;
        l1 ← getList false this;
        insertIndex this node (idx l1) true false;;
        d ← hasDoc this;
        when d (registerNode this node);;
        rest) st Q.
Proof.
  intros Hthis Hl Hnode Hleaf Hne Hall Hdoc Hrest.
  pose proof (element_skeleton _ _ _ _ Hthis) as Hst.
  pose proof (skeleton_lookup _ _ _ Hnode) as Hsn. unfold skel in Hsn.
  apply valid_heap in Hall.
  eapply runs_bind.
  { eapply linkChild_leaf_runs; try done.
    intros e He. destruct n as [nb ne|nb]; [|done]. injection He as <-. exact Hleaf. }
  intros [] st1 (Hsk1 & Hc1 & Hs1 & Hh1).
  assert (Hthis1 : skeleton st1 !! this = Some (Some te, docId tb, ownerDocument tb)).
  { rewrite Hsk1. by rewrite list_lookup_insert_ne. }
  assert (Hv1 : ∀ i, is_Some (skeleton st !! i) → is_Some (skeleton st1 !! i)).
  { intros i Hi. rewrite Hsk1. by apply valid_insert. }
  eapply runs_bind; [by eapply (getList_runs _ false)|]. intros l1 st1' [-> ->].
  eapply runs_bind.
  { eapply (insertIndex_runs _ _ _ _ true false); try done.
    - apply Hv1. rewrite Hsn. eauto.
    - intros _. eapply Forall_impl; [exact Hall|]. intros c Hc. by apply Hv1. }
  intros r st2 (_ & Hsk2 & Hc2 & Hs2 & Hh2).
  change (setList false ?x te) with (set_children (Some x) te) in Hsk2.
  assert (Hlen : (this < length (skeleton st1))%nat) by (by eapply lookup_lt_Some).
  eapply runs_bind.
  { eapply hasDoc_runs. rewrite Hsk2. by apply list_lookup_insert_eq. }
  intros hd st2' [-> ->].
  eapply runs_bind with (P := fun _ st3 => unchanged st2 st3).
  { unfold when. case_bool_decide as Hd; [|apply runs_ret, unchanged_refl].
    destruct Hd as [dd Hd]. rewrite Hd in Hdoc.
    destruct (docReady_Some _ _ _ Hdoc) as (i & Ho & Hdocs).
    eapply registerNode_runs.
    - rewrite Hsk2, Ho. by apply list_lookup_insert_eq.
    - eapply docs_valid; [|done]. by rewrite Hc2, Hc1. }
  intros [] st3 (Hsk3 & Hc3 & Hs3 & Hh3). apply Hrest. unfold becomes.
  by rewrite Hsk3, Hc3, Hs3, Hh3, Hsk2, Hc2, Hs2, Hh2, Hsk1, Hc1, Hs1, Hh1.
Qed.

(** The common last step: the entry in [pureChildren] and the message. *)
Lemma announce_runs st this node te1 d o p pos :
  skeleton st !! this = Some (Some te1, d, o) →
  pureChildren te1 = Some p →
  is_Some (skeleton st !! node) →
  runs (index ← insertIndex this node pos false true;
        tc ← getTaskCenter this;
        when tc (send (AddElement this node index))) st
    (fun _ st' =>
       becomes st'
         (<[this := (Some (set_pureChildren
                             (Some (splice_insert p (Z.max pos 0) node)) te1), d, o)]>
            (skeleton st))
         (centers st)
         (sent st ++ if centerOf (centers st) o
                     then [AddElement this node (Z.max pos 0)] else [])
         (hooksRun st)).
Proof.
  intros Hthis Hp Hnode.
  eapply runs_bind.
  { eapply (insertIndex_runs _ _ _ _ false true _ _ _ p); [exact Hthis|exact Hp|done|done]. }
  intros r st1 (-> & Hsk1 & Hc1 & Hs1 & Hh1).
  change (setList true ?x te1) with (set_pureChildren (Some x) te1) in Hsk1.
  eapply runs_bind.
  { eapply getTaskCenter_runs. rewrite Hsk1. apply list_lookup_insert_eq.
    by eapply lookup_lt_Some. }
  intros tc st1' [-> ->]. rewrite Hc1. unfold when.
  destruct (centerOf (centers st) o).
  - eapply runs_weaken; [apply send_runs|].
    intros [] st2 (Hsk2 & Hc2 & Hs2 & Hh2). unfold becomes.
    by rewrite Hsk2, Hc2, Hs2, Hh2, Hsk1, Hc1, Hs1, Hh1.
  - apply runs_ret. unfold becomes. by rewrite Hsk1, Hc1, Hs1, Hh1, app_nil_r.
Qed.

Lemma insertAfter_runs st this node after tb te n ab ae l p :
  heap st !! this = Some (Element tb te) →
  children te = Some l →
  pureChildren te = Some p →
  heap st !! node = Some n →
  parentNode (base n) = None →
  leaf n →
  node ≠ this →
  heap st !! after = Some (Element ab ae) →
  node ≠ after →
  previousSibling (base n) ≠ Some after →
  Forall (fun c => is_Some (heap st !! c)) l →
  docReady st (docId tb) (ownerDocument tb) →
  runs (insertAfter this node after) st (fun _ st' =>
    childrenOf st' this = Some (splice_insert l (Z.max (index_of l after + 1) 0) node)
    ∧ pureChildrenOf st' this
      = Some (if isElement n
              then splice_insert p (Z.max (index_of p after + 1) 0) node else p)
    ∧ sent st' = sent st ++ (if isElement n && taskCenterOf st tb
                             then [AddElement this node (Z.max (index_of p after + 1) 0)]
                             else [])).
Proof.
  intros Hthis Hl Hp Hnode Hpar Hleaf Hne Hafter Hna Hprev Hall Hdoc.
  pose proof (element_skeleton _ _ _ _ Hthis) as Hst.
  pose proof (element_skeleton _ _ _ _ Hafter) as Hsa.
  pose proof (skeleton_lookup _ _ _ Hnode) as Hsn. unfold skel in Hsn.
  assert (Hlen : (this < length (skeleton st))%nat) by (by eapply lookup_lt_Some).
  unfold insertAfter.
  eapply runs_bind with (P := fun r st' => r = n ∧ st' = st).
  { exists n, st. by rewrite (getNode_lookup _ _ _ Hnode). }
  intros n0 st0 [-> ->]. unfold foreignParent, hasParent. rewrite Hpar.
  rewrite (bool_decide_eq_false_2 (node = after)) by done.
  rewrite (bool_decide_eq_false_2 (previousSibling (base n) = Some after)) by done.
  rewrite (bool_decide_eq_false_2 (is_Some None)) by (by intros [? ?]).
  cbn [orb negb].
  eapply (attach_runs _ _ _ _ _ _ _ (fun l1 => index_of l1 after + 1)); try done.
  intros st3 (Hsk3 & Hc3 & Hs3 & Hh3).
  set (te1 := set_children (Some (splice_insert l (Z.max (index_of l after + 1) 0) node)) te)
    in *.
  assert (Hthis3 : skeleton st3 !! this = Some (Some te1, docId tb, ownerDocument tb)).
  { rewrite Hsk3. apply list_lookup_insert_eq. by rewrite length_insert. }
  assert (Hafter3 : ∃ e d o, skeleton st3 !! after = Some (Some e, d, o)).
  { rewrite Hsk3. destruct (decide (after = this)) as [->|Hat].
    - rewrite list_lookup_insert_eq by (by rewrite length_insert). eauto.
    - rewrite !list_lookup_insert_ne by done. eauto. }
  destruct Hafter3 as (e3 & d3 & o3 & Hafter3).
  unfold when. destruct (isElement n) eqn:Hkind; simpl.
  - eapply runs_bind with (P := fun r st' => r = index_of p after + 1 ∧ st' = st3).
    { unfold pureIndexAfter, previousElement.
      eapply runs_bind; [by eapply walk_element|]. intros r st4 [-> ->].
      eapply runs_bind; [by eapply (getList_runs _ true)|]. intros pl st4 [-> ->].
      by apply runs_ret. }
    intros pos st4 [-> ->].
    eapply runs_weaken.
    { eapply announce_runs; [exact Hthis3|exact Hp|].
      rewrite Hsk3. apply valid_insert, valid_insert. rewrite Hsn. eauto. }
    intros [] st5 (Hsk5 & Hc5 & Hs5 & Hh5). cbv beta.
    assert (Hlook : skeleton st5 !! this
              = Some (Some (set_pureChildren
                              (Some (splice_insert p (Z.max (index_of p after + 1) 0) node))
                              te1), docId tb, ownerDocument tb)).
    { rewrite Hsk5. apply list_lookup_insert_eq. by eapply lookup_lt_Some. }
    destruct (childrenOf_skeleton _ _ _ _ _ Hlook) as [-> ->].
    rewrite Hs5, Hs3, Hc3, centerOf_taskCenterOf. done.
  - apply runs_ret.
    destruct (childrenOf_skeleton _ _ _ _ _ Hthis3) as [-> ->].
    rewrite Hs3, app_nil_r. done.
Qed.

Lemma insertBefore_runs st this node before tb te n bb be l p :
  heap st !! this = Some (Element tb te) →
  children te = Some l →
  pureChildren te = Some p →
  heap st !! node = Some n →
  parentNode (base n) = None →
  leaf n →
  node ≠ this →
  heap st !! before = Some (Element bb be) →
  before ∈ l →
  node ≠ before →
  nextSibling (base n) ≠ Some before →
  Forall (fun c => is_Some (heap st !! c)) l →
  docReady st (docId tb) (ownerDocument tb) →
  runs (insertBefore this node before) st (fun _ st' =>
    childrenOf st' this = Some (splice_insert l (Z.max (index_of l before) 0) node)
    ∧ pureChildrenOf st' this
      = Some (if isElement n
              then splice_insert p (Z.max (index_of p before) 0) node else p)
    ∧ sent st' = sent st ++ (if isElement n && taskCenterOf st tb
                             then [AddElement this node (Z.max (index_of p before) 0)]
                             else [])).
Proof.
  intros Hthis Hl Hp Hnode Hpar Hleaf Hne Hbefore Hin Hnb Hnext Hall Hdoc.
  pose proof (element_skeleton _ _ _ _ Hthis) as Hst.
  pose proof (element_skeleton _ _ _ _ Hbefore) as Hsb.
  pose proof (skeleton_lookup _ _ _ Hnode) as Hsn. unfold skel in Hsn.
  assert (Hlen : (this < length (skeleton st))%nat) by (by eapply lookup_lt_Some).
  unfold insertBefore.
  eapply runs_bind with (P := fun r st' => r = n ∧ st' = st).
  { exists n, st. by rewrite (getNode_lookup _ _ _ Hnode). }
  intros n0 st0 [-> ->]. unfold foreignParent, hasParent. rewrite Hpar.
  rewrite (bool_decide_eq_false_2 (node = before)) by done.
  rewrite (bool_decide_eq_false_2 (nextSibling (base n) = Some before)) by done.
  rewrite (bool_decide_eq_false_2 (is_Some None)) by (by intros [? ?]).
  cbn [orb negb].
  eapply runs_bind; [by eapply (getList_runs _ false)|]. intros l0 st0 [-> ->].
  pose proof (index_of_elem l before Hin) as Hidx.
  destruct (index_of l before <? 0) eqn:Hneg; [lia|].
  eapply (attach_runs _ _ _ _ _ _ _ (fun l1 => index_of l1 before)); try done.
  intros st3 (Hsk3 & Hc3 & Hs3 & Hh3).
  set (te1 := set_children (Some (splice_insert l (Z.max (index_of l before) 0) node)) te)
    in *.
  assert (Hthis3 : skeleton st3 !! this = Some (Some te1, docId tb, ownerDocument tb)).
  { rewrite Hsk3. apply list_lookup_insert_eq. by rewrite length_insert. }
  assert (Hbefore3 : ∃ e d o, skeleton st3 !! before = Some (Some e, d, o)).
  { rewrite Hsk3. destruct (decide (before = this)) as [->|Hat].
    - rewrite list_lookup_insert_eq by (by rewrite length_insert). eauto.
    - rewrite !list_lookup_insert_ne by done. eauto. }
  destruct Hbefore3 as (e3 & d3 & o3 & Hbefore3).
  unfold when. destruct (isElement n) eqn:Hkind; simpl.
  - unfold nextElement.
    eapply runs_bind; [by eapply walk_element|]. intros r st4 [-> ->].
    eapply runs_bind with (P := fun r st' => r = index_of p before ∧ st' = st3).
    { unfold pureIndexBefore.
      eapply runs_bind; [by eapply (getList_runs _ true)|]. intros pl st4 [-> ->].
      by apply runs_ret. }
    intros pos st4 [-> ->].
    eapply runs_weaken.
    { eapply announce_runs; [exact Hthis3|exact Hp|].
      rewrite Hsk3. apply valid_insert, valid_insert. rewrite Hsn. eauto. }
    intros [] st5 (Hsk5 & Hc5 & Hs5 & Hh5). cbv beta.
    assert (Hlook : skeleton st5 !! this
              = Some (Some (set_pureChildren
                              (Some (splice_insert p (Z.max (index_of p before) 0) node))
                              te1), docId tb, ownerDocument tb)).
    { rewrite Hsk5. apply list_lookup_insert_eq. by eapply lookup_lt_Some. }
    destruct (childrenOf_skeleton _ _ _ _ _ Hlook) as [-> ->].
    rewrite Hs5, Hs3, Hc3, centerOf_taskCenterOf. done.
  - apply runs_ret.
    destruct (childrenOf_skeleton _ _ _ _ _ Hthis3) as [-> ->].
    rewrite Hs3, app_nil_r. done.
Qed.

(** X4. [insertAfter] of a detached node without children of its own,
    behind an element [after] that is a child of the receiver: the node
    lands directly behind the first occurrence of [after] in [children]
    and, when it is an element, in [pureChildren], and the [addElement]
    message carries its position in [pureChildren]. *)
Theorem insertAfter_behind_reference st this node after tb te n ab ae l1 l2 p1 p2 :
  heap st !! this = Some (Element tb te) →
  children te = Some (l1 ++ after :: l2) →
  pureChildren te = Some (p1 ++ after :: p2) →
  after ∉ l1 → after ∉ p1 →
  heap st !! node = Some n →
  parentNode (base n) = None →
  leaf n →
  node ≠ this →
  heap st !! after = Some (Element ab ae) →
  node ≠ after →
  previousSibling (base n) ≠ Some after →
  Forall (fun c => is_Some (heap st !! c)) (l1 ++ after :: l2) →
  docReady st (docId tb) (ownerDocument tb) →
  ∃ st', insertAfter this node after st = Done tt st'
    ∧ childrenOf st' this = Some (l1 ++ after :: node :: l2)
    ∧ pureChildrenOf st' this
      = Some (if isElement n then p1 ++ after :: node :: p2 else p1 ++ after :: p2)
    ∧ sent st' = sent st ++ (if isElement n && taskCenterOf st tb
                             then [AddElement this node (Z.of_nat (length p1) + 1)]
                             else []).
Proof.
  intros Hthis Hl Hp Hl1 Hp1 Hnode Hpar Hleaf Hne Hafter Hna Hprev Hall Hdoc.
  destruct (insertAfter_runs st this node after tb te n ab ae _ _
              Hthis Hl Hp Hnode Hpar Hleaf Hne Hafter Hna Hprev Hall Hdoc)
    as ([] & st' & Hrun & Hc & Hpc & Hs).
  rewrite !index_of_middle in * by done.
  rewrite !Z.max_l in * by lia. rewrite !splice_insert_behind in *.
  by exists st'.
Qed.

Lemma insertAfter_behind_reference_witness :
  ∃ st', insertAfter 0 3 1 partialStore = Done tt st'
    ∧ childrenOf st' 0%nat = Some [1%nat; 3%nat; 2%nat]
    ∧ pureChildrenOf st' 0%nat = Some [1%nat; 3%nat]
    ∧ sent st' = sent partialStore ++ [AddElement 0 3 1].
Proof.
  apply (insertAfter_behind_reference partialStore 0 3 1 parentBase
           (parentData [1%nat; 2%nat] [1%nat]) newElement
           (childBase None (Some 2%nat)) newElementData [] [2%nat] [] []);
    try (vm_compute; reflexivity); try lia; try apply not_elem_of_nil; try done.
  - repeat constructor; eexists; vm_compute; reflexivity.
  - right. exists 0%nat. split; [reflexivity|]. by eexists.
Defined.

(** X5. [insertAfter] of a detached node without children of its own,
    behind an element that is not a child of the receiver: the call is not
    refused; the node becomes the first entry of [children] and, when it is
    an element, of [pureChildren], with an [addElement] message at index 0. *)
Theorem insertAfter_foreign_reference st this node after tb te n ab ae l p :
  heap st !! this = Some (Element tb te) →
  children te = Some l →
  pureChildren te = Some p →
  after ∉ l → after ∉ p →
  heap st !! node = Some n →
  parentNode (base n) = None →
  leaf n →
  node ≠ this →
  heap st !! after = Some (Element ab ae) →
  node ≠ after →
  previousSibling (base n) ≠ Some after →
  Forall (fun c => is_Some (heap st !! c)) l →
  docReady st (docId tb) (ownerDocument tb) →
  ∃ st', insertAfter this node after st = Done tt st'
    ∧ childrenOf st' this = Some (node :: l)
    ∧ pureChildrenOf st' this = Some (if isElement n then node :: p else p)
    ∧ sent st' = sent st ++ (if isElement n && taskCenterOf st tb
                             then [AddElement this node 0] else []).
Proof.
  intros Hthis Hl Hp Hl1 Hp1 Hnode Hpar Hleaf Hne Hafter Hna Hprev Hall Hdoc.
  destruct (insertAfter_runs st this node after tb te n ab ae _ _
              Hthis Hl Hp Hnode Hpar Hleaf Hne Hafter Hna Hprev Hall Hdoc)
    as ([] & st' & Hrun & Hc & Hpc & Hs).
  rewrite !index_of_not_elem in * by done.
  change (Z.max (-1 + 1) 0) with 0 in *. rewrite !splice_insert_front in *.
  by exists st'.
Qed.

Lemma insertAfter_foreign_reference_witness :
  ∃ st', insertAfter 0 3 0 partialStore = Done tt st'
    ∧ childrenOf st' 0%nat = Some [3%nat; 1%nat; 2%nat]
    ∧ pureChildrenOf st' 0%nat = Some [3%nat; 1%nat]
    ∧ sent st' = sent partialStore ++ [AddElement 0 3 0].
Proof.
  apply (insertAfter_foreign_reference partialStore 0 3 0 parentBase
           (parentData [1%nat; 2%nat] [1%nat]) newElement
           parentBase (parentData [1%nat; 2%nat] [1%nat]) [1%nat; 2%nat] [1%nat]);
    try (vm_compute; reflexivity); try lia; try done.
  - apply (bool_decide_unpack _). vm_compute. exact I.
  - apply (bool_decide_unpack _). vm_compute. exact I.
  - repeat constructor; eexists; vm_compute; reflexivity.
  - right. exists 0%nat. split; [reflexivity|]. by eexists.
Defined.

(** X6. [insertBefore] with a reference that is not among the receiver's
    children changes nothing at all: no array, no node and no message. *)
Theorem insertBefore_missing_reference st this node before tb te n l :
  heap st !! this = Some (Element tb te) →
  children te = Some l →
  heap st !! node = Some n →
  before ∉ l →
  insertBefore this node before st = Done tt st.
Proof.
  intros Hthis Hl Hnode Hout. unfold insertBefore.
  erewrite bind_Done by (by apply getNode_lookup).
  destruct (foreignParent this n); [done|].
  destruct (_ || _); [done|].
  destruct (getList_runs st false this te (docId tb) (ownerDocument tb) l)
    as (r & st1 & Hg & -> & ->); [by apply element_skeleton|done|].
  erewrite bind_Done by done.
  by rewrite (index_of_not_elem _ _ Hout).
Qed.

Lemma insertBefore_missing_reference_witness :
  insertBefore 0 3 0 partialStore = Done tt partialStore.
Proof.
  apply (insertBefore_missing_reference partialStore 0 3 0 parentBase
           (parentData [1%nat; 2%nat] [1%nat]) newElement [1%nat; 2%nat]);
    try (vm_compute; reflexivity).
  apply (bool_decide_unpack _). vm_compute. exact I.
Defined.

(** X7. [insertBefore] of a detached node without children of its own, in
    front of an element [before] that is a child of the receiver: the node
    lands directly in front of the first occurrence of [before] in
    [children] and, when it is an element, in [pureChildren], and the
    [addElement] message carries its position in [pureChildren]. *)
Theorem insertBefore_in_front st this node before tb te n bb be l1 l2 p1 p2 :
  heap st !! this = Some (Element tb te) →
  children te = Some (l1 ++ before :: l2) →
  pureChildren te = Some (p1 ++ before :: p2) →
  before ∉ l1 → before ∉ p1 →
  heap st !! node = Some n →
  parentNode (base n) = None →
  leaf n →
  node ≠ this →
  heap st !! before = Some (Element bb be) →
  node ≠ before →
  nextSibling (base n) ≠ Some before →
  Forall (fun c => is_Some (heap st !! c)) (l1 ++ before :: l2) →
  docReady st (docId tb) (ownerDocument tb) →
  ∃ st', insertBefore this node before st = Done tt st'
    ∧ childrenOf st' this = Some (l1 ++ node :: before :: l2)
    ∧ pureChildrenOf st' this
      = Some (if isElement n then p1 ++ node :: before :: p2 else p1 ++ before :: p2)
    ∧ sent st' = sent st ++ (if isElement n && taskCenterOf st tb
                             then [AddElement this node (Z.of_nat (length p1))]
                             else []).
Proof.
  intros Hthis Hl Hp Hl1 Hp1 Hnode Hpar Hleaf Hne Hbefore Hnb Hnext Hall Hdoc.
  assert (Hin : before ∈ l1 ++ before :: l2).
  { apply elem_of_app. right. by left. }
  destruct (insertBefore_runs st this node before tb te n bb be _ _
              Hthis Hl Hp Hnode Hpar Hleaf Hne Hbefore Hin Hnb Hnext Hall Hdoc)
    as ([] & st' & Hrun & Hc & Hpc & Hs).
  rewrite !index_of_middle in * by done.
  rewrite !Z.max_l in * by lia. rewrite !splice_insert_at in *.
  by exists st'.
Qed.

Lemma insertBefore_in_front_witness :
  ∃ st', insertBefore 0 3 1 partialStore = Done tt st'
    ∧ childrenOf st' 0%nat = Some [3%nat; 1%nat; 2%nat]
    ∧ pureChildrenOf st' 0%nat = Some [3%nat; 1%nat]
    ∧ sent st' = sent partialStore ++ [AddElement 0 3 0].
Proof.
  apply (insertBefore_in_front partialStore 0 3 1 parentBase
           (parentData [1%nat; 2%nat] [1%nat]) newElement
           (childBase None (Some 2%nat)) newElementData [] [2%nat] [] []);
    try (vm_compute; reflexivity); try lia; try apply not_elem_of_nil; try done.
  - repeat constructor; eexists; vm_compute; reflexivity.
  - right. exists 0%nat. split; [reflexivity|]. by eexists.
Defined.

End InsertFacts.

Section ParentFacts.
Import Js Vdom Shape.

Lemma bind_Done_inv {A B} (m : M A) (k : A → M B) st b st2 :
  (m ≫= k) st = Done b st2 → ∃ a st1, m st = Done a st1 ∧ k a st1 = Done b st2.
Proof.
  unfold mbind, M_bind, bind. destruct (m st) as [a st1| |] eqn:Hm; [|done..].
  intros Hk. by exists a, st1.
Qed.

Lemma keeps_bind {A B} (m : M A) (k : A → M B) :
  keepsParents m → (∀ a, keepsParents (k a)) → keepsParents (m ≫= k).
Proof.
  intros Hm Hk st b st2 (a & st1 & H1 & H2)%bind_Done_inv.
  rewrite (Hk _ _ _ _ H2). by apply (Hm _ _ _ H1).
Qed.

Lemma keeps_ret {A} (a : A) : keepsParents (mret a).
Proof. intros st b st' [= _ ->]. done. Qed.

Lemma keeps_getNode i : keepsParents (getNode i).
Proof.
  intros st n st'. unfold getNode. destruct (heap st !! i); [|done]. by intros [= _ ->].
Qed.

Lemma keeps_putNode i n st st' :
  (parentNode ∘ base <$> heap st !! i) = Some (parentNode (base n)) →
  putNode i n st = Done tt st' → parents st' = parents st.
Proof.
  intros Hi [= <-]. unfold parents. simpl. rewrite list_fmap_insert.
  apply list_insert_id. by rewrite list_lookup_fmap.
Qed.

Lemma keeps_updBase i f :
  (∀ b, parentNode (f b) = parentNode b) → keepsParents (updBase i f).
Proof.
  intros Hf st [] st'. unfold updBase, getNode, mbind, M_bind, bind.
  destruct (heap st !! i) as [n|] eqn:Hn; [|done].
  apply keeps_putNode. rewrite Hn. simpl. by destruct n; simpl; rewrite Hf.
Qed.

Lemma keeps_updBaseOpt o f :
  (∀ b, parentNode (f b) = parentNode b) → keepsParents (updBaseOpt o f).
Proof. intros Hf. destruct o; [by apply keeps_updBase|apply keeps_ret]. Qed.

Lemma keeps_updElement i f : keepsParents (updElement i f).
Proof.
  intros st [] st'. unfold updElement, getNode, mbind, M_bind, bind.
  destruct (heap st !! i) as [[b e|b]|] eqn:Hn; [|done..].
  apply keeps_putNode. by rewrite Hn.
Qed.

Lemma keeps_getList pure i : keepsParents (getList pure i).
Proof.
  intros st l st'. unfold getList, getElement, getNode, mbind, M_bind, bind.
  destruct (heap st !! i) as [[b e|b]|]; [|done..]. simpl.
  destruct (if pure then _ else _); [|done]. by intros [= _ ->].
Qed.

Lemma keeps_when b m : keepsParents m → keepsParents (when b m).
Proof. intros Hm. destruct b; [done|apply keeps_ret]. Qed.

Lemma keeps_getTaskCenter i : keepsParents (getTaskCenter i).
Proof.
  apply keeps_bind; [apply keeps_getNode|]. intros n st b st'. by intros [= _ ->].
Qed.

Lemma keeps_send m : keepsParents (send m).
Proof. intros st [] st'. by intros [= <-]. Qed.

Lemma keeps_removeIndex this target cs pure :
  keepsParents (removeIndex this target cs pure).
Proof.
  unfold removeIndex. apply keeps_bind; [apply keeps_getList|]. intros l. cbv zeta.
  destruct (_ <? 0); [apply keeps_ret|].
  apply keeps_bind; [|intros _; apply keeps_updElement].
  apply keeps_when, keeps_bind; [|intros _]; by apply keeps_updBaseOpt.
Qed.

Lemma keeps_removeChild this node : keepsParents (removeChild this node true).
Proof.
  unfold removeChild. apply keeps_bind; [apply keeps_getNode|]. intros n.
  apply keeps_bind; [|intros _; apply keeps_ret].
  apply keeps_when, keeps_bind; [apply keeps_removeIndex|]. intros _.
  apply keeps_when, keeps_bind; [apply keeps_removeIndex|]. intros _.
  apply keeps_bind; [apply keeps_getTaskCenter|]. intros tc.
  apply keeps_when, keeps_send.
Qed.

Lemma removeFirst_NoDup x l : NoDup l → x ∉ removeFirst x l.
Proof.
  induction 1 as [|y l Hy Hl IH]; simpl; [apply not_elem_of_nil|].
  case_decide as Hxy; [by subst|].
  apply not_elem_of_cons. split; [done|exact IH].
Qed.

Lemma parents_lookup st i n :
  heap st !! i = Some n → parents st !! i = Some (parentNode (base n)).
Proof. intros Hn. unfold parents. by rewrite list_lookup_fmap, Hn. Qed.

(** X8. A node taken out with [removeChild(node, true)] keeps its parent
    reference, so it cannot be put back: once the call has returned, an
    [appendChild] of that node on any receiver, the old parent included,
    returns without changing anything or sending a message. *)
Theorem removed_node_cannot_return st this node tb te n l p :
  heap st !! this = Some (Element tb te) →
  children te = Some l →
  pureChildren te = Some p →
  heap st !! node = Some n →
  parentNode (base n) = Some this →
  NoDup l → NoDup p →
  Forall (fun c => is_Some (heap st !! c)) l →
  ∃ st1, removeChild this node true st = Done tt st1
    ∧ ∀ q, appendChild q node st1 = Done tt st1.
Proof.
  intros Hthis Hl Hp Hnode Hpar Hnd Hndp Hall.
  destruct (removeChild_runs st this node tb te n l p) as ([] & st1 & Hrun & Hb);
    [done..|by rewrite Hpar|done|].
  cbv zeta in Hb. destruct Hb as (Hsk & Hc & _ & _).
  exists st1. split; [done|]. intros q.
  pose proof (keeps_removeChild _ _ _ _ _ Hrun) as Hparents.
  pose proof (element_skeleton _ _ _ _ Hthis) as Hst.
  assert (Hlen : (this < length (skeleton st))%nat) by (by eapply lookup_lt_Some).
  assert (Hn1 : ∃ n1, heap st1 !! node = Some n1
                      ∧ parentNode (base n1) = Some this
                      ∧ isElement n1 = isElement n).
  { assert (Hk : isElementS <$> skeleton st1 = isElementS <$> skeleton st).
    { rewrite Hsk. erewrite kinds_insert; [done|exact Hst|]. by destruct (isElement n). }
    pose proof (f_equal (fun s => s !! node) Hk) as Hkn. simpl in Hkn.
    rewrite !list_lookup_fmap in Hkn. rewrite (skeleton_lookup _ _ _ Hnode) in Hkn.
    unfold skeleton in Hkn. rewrite list_lookup_fmap in Hkn.
    destruct (heap st1 !! node) as [n1|] eqn:Hn1; [|done].
    exists n1. split; [done|]. simpl in Hkn. rewrite !isElementS_skel in Hkn.
    split; [|congruence].
    pose proof (parents_lookup _ _ _ Hn1) as H1.
    rewrite Hparents, (parents_lookup _ _ _ Hnode) in H1. congruence. }
  destruct Hn1 as (n1 & Hn1 & Hpar1 & Hkind).
  unfold appendChild. erewrite bind_Done by (by apply getNode_lookup).
  unfold foreignParent, hasParent. rewrite Hpar1.
  destruct (decide (q = this)) as [->|Hq];
    [|by rewrite (bool_decide_eq_true_2 (this ≠ q)) by done].
  rewrite (bool_decide_eq_false_2 (this ≠ this)) by (by intros ?).
  rewrite (bool_decide_eq_true_2 (is_Some (Some this))) by done. cbn [negb].
  set (te1 := if isElement n
              then set_pureChildren (Some (removeFirst node p))
                     (set_children (Some (removeFirst node l)) te)
              else set_children (Some (removeFirst node l)) te) in *.
  assert (Hthis1 : skeleton st1 !! this = Some (Some te1, docId tb, ownerDocument tb)).
  { rewrite Hsk. by apply list_lookup_insert_eq. }
  assert (Hl1 : listOf false te1 = Some (removeFirst node l)).
  { unfold te1. by destruct (isElement n). }
  destruct (lengthOf_runs st1 false this _ _ _ _ Hthis1 Hl1) as (r & s & Hlen1 & -> & ->).
  erewrite bind_Done by done.
  erewrite bind_Done
    by (eapply moveIndex_absent; [exact Hthis1|exact Hl1|by apply removeFirst_NoDup]).
  rewrite Hkind. unfold when. destruct (isElement n) eqn:Hel; [|done].
  assert (Hp1 : listOf true te1 = Some (removeFirst node p)) by done.
  destruct (lengthOf_runs st1 true this _ _ _ _ Hthis1 Hp1) as (r & s & Hlen2 & -> & ->).
  erewrite bind_Done by done.
  erewrite bind_Done
    by (eapply moveIndex_absent; [exact Hthis1|exact Hp1|by apply removeFirst_NoDup]).
  destruct (getTaskCenter_runs st1 this _ _ _ Hthis1) as (tc & s & Htc & _ & ->).
  erewrite bind_Done by done. by rewrite andb_false_r.
Qed.

Lemma removed_node_cannot_return_witness :
  ∃ st1, removeChild 0 1 true populatedStore = Done tt st1
    ∧ ∀ q, appendChild q 1 st1 = Done tt st1.
Proof.
  apply (removed_node_cannot_return populatedStore 0 1 parentBase
           (parentData [1%nat; 2%nat; 3%nat] [1%nat; 3%nat])
           (Element (childBase None (Some 2%nat)) newElementData)
           [1%nat; 2%nat; 3%nat] [1%nat; 3%nat]);
    try (vm_compute; reflexivity).
  - apply (bool_decide_unpack _). vm_compute. exact I.
  - apply (bool_decide_unpack _). vm_compute. exact I.
  - repeat constructor; eexists; vm_compute; reflexivity.
Defined.

End ParentFacts.

Section MoveFacts.
Import Js Vdom Shape.

Lemma removeFirst_app_out x (l1 l2 : list nat) :
  x ∉ l1 → removeFirst x (l1 ++ l2) = l1 ++ removeFirst x l2.
Proof.
  induction l1 as [|y l1 IH]; simpl; [done|].
  intros [Hne Hx]%not_elem_of_cons. rewrite decide_False by done. by rewrite IH.
Qed.

Lemma removeFirst_head x l : removeFirst x (x :: l) = l.
Proof. simpl. by rewrite decide_True. Qed.

Lemma removeFirst_splice_insert x (m : list nat) i :
  x ∉ m → removeFirst x (splice_insert m i x) = m.
Proof.
  intros Hx. unfold splice_insert. rewrite removeFirst_app_out.
  - by rewrite removeFirst_head, take_drop.
  - intros Hin. apply Hx. by apply (subseteq_take (splice_start m i) m).
Qed.

Lemma listOf_view st this b e (pure : bool) :
  heap st !! this = Some (Element b e) →
  (if pure then pureChildrenOf st this else childrenOf st this) = listOf pure e.
Proof.
  intros Hn. unfold pureChildrenOf, childrenOf, listOf. rewrite Hn. by destruct pure.
Qed.

Lemma listOf_skeleton st this e d o (pure : bool) :
  skeleton st !! this = Some (Some e, d, o) →
  (if pure then pureChildrenOf st this else childrenOf st this) = listOf pure e.
Proof.
  intros (b & Hn & _)%skeleton_element. by apply (listOf_view _ _ b).
Qed.

(** X9. [moveIndex] on an array that holds the target once: the call
    returns, the array afterwards is a rearrangement of the array before
    (nothing is lost or doubled), and the other entries keep their order. *)
Theorem moveIndex_rearranges st this target k cs pure tb te l :
  heap st !! this = Some (Element tb te) →
  listOf pure te = Some l →
  target ∈ l →
  NoDup l →
  is_Some (heap st !! target) →
  Forall (fun c => is_Some (heap st !! c)) l →
  ∃ r st' l',
    moveIndex this target k cs pure st = Done r st'
    ∧ (if pure then pureChildrenOf st' this else childrenOf st' this) = Some l'
    ∧ l' ≡ₚ l
    ∧ removeFirst target l' = removeFirst target l.
Proof.
  intros Hthis Hl Hin Hnd [n Hn] Hall.
  pose proof (element_skeleton _ _ _ _ Hthis) as Hst.
  destruct (moveIndex_runs st this target k cs pure te (docId tb) (ownerDocument tb) l)
    as (r & st' & Hrun & _ & Hsk & _); try done.
  { rewrite (skeleton_lookup _ _ _ Hn). eauto. }
  { intros _. by apply valid_heap. }
  eexists r, st', _. split; [exact Hrun|].
  assert (Hlook : skeleton st' !! this = Some (Some (setList pure
            (splice_insert (removeFirst target l)
               (if index_of l target <=? k then k - 1 else k) target) te),
            docId tb, ownerDocument tb)).
  { rewrite Hsk. apply list_lookup_insert_eq. by eapply lookup_lt_Some. }
  rewrite (listOf_skeleton _ _ _ _ _ _ Hlook), listOf_setList.
  split; [done|]. split.
  - rewrite splice_insert_perm. by apply removeFirst_perm.
  - apply removeFirst_splice_insert. by apply removeFirst_NoDup.
Qed.

Lemma moveIndex_rearranges_witness :
  ∃ r st' l',
    moveIndex 0 1 2 true false populatedStore = Done r st'
    ∧ childrenOf st' 0%nat = Some l'
    ∧ l' ≡ₚ [1%nat; 2%nat; 3%nat]
    ∧ removeFirst 1 l' = removeFirst 1 [1%nat; 2%nat; 3%nat].
Proof.
  apply (moveIndex_rearranges populatedStore 0 1 2 true false parentBase
           (parentData [1%nat; 2%nat; 3%nat] [1%nat; 3%nat]) [1%nat; 2%nat; 3%nat]);
    try (vm_compute; reflexivity).
  - apply (bool_decide_unpack _). vm_compute. exact I.
  - apply (bool_decide_unpack _). vm_compute. exact I.
  - eexists; vm_compute; reflexivity.
  - repeat constructor; eexists; vm_compute; reflexivity.
Defined.

Lemma splice_insert_before_last {A} (m : list A) z x :
  splice_insert (m ++ [z]) (-1) x = m ++ [x; z].
Proof.
  unfold splice_insert, splice_start. cbn [Z.ltb Z.compare].
  replace (Z.to_nat (Z.max (Z.of_nat (length (m ++ [z])) + -1) 0)) with (length m)
    by (rewrite length_app; simpl; lia).
  by rewrite take_app_length, drop_app_length.
Qed.

(** X10. [moveIndex] asked to put a node at the index it already has takes
    the node out and puts it back one place earlier ([index <= newIndex]
    makes it insert at [newIndex - 1]), and returns the index instead of
    [-1].  A node with an entry in front of it changes places with that
    entry.  The first node is put back at [-1], which [splice] counts
    from the end: it lands in front of the last of the other entries
    (which, with one other entry, is where it was), and alone it stays. *)
Theorem moveIndex_own_index_swaps st this target cs pure tb te front back :
  heap st !! this = Some (Element tb te) →
  listOf pure te = Some (front ++ target :: back) →
  target ∉ front →
  is_Some (heap st !! target) →
  Forall (fun c => is_Some (heap st !! c)) (front ++ target :: back) →
  ∃ st',
    moveIndex this target (Z.of_nat (length front)) cs pure st
      = Done (Z.of_nat (length front)) st'
    ∧ (∀ l1 y, front = l1 ++ [y] →
         (if pure then pureChildrenOf st' this else childrenOf st' this)
         = Some (l1 ++ target :: y :: back))
    ∧ (∀ m z, front = [] → back = m ++ [z] →
         (if pure then pureChildrenOf st' this else childrenOf st' this)
         = Some (m ++ [target; z]))
    ∧ (front = [] → back = [] →
         (if pure then pureChildrenOf st' this else childrenOf st' this)
         = Some [target]).
Proof.
  intros Hthis Hl Hout [n Hn] Hall.
  pose proof (element_skeleton _ _ _ _ Hthis) as Hst.
  assert (Hin : target ∈ front ++ target :: back).
  { apply elem_of_app. right. by left. }
  pose proof (index_of_middle front back target Hout) as Hidx.
  destruct (moveIndex_runs st this target (Z.of_nat (length front)) cs pure te
              (docId tb) (ownerDocument tb) _ Hst Hl Hin)
    as (r & st' & Hrun & Hr & Hsk & _).
  { rewrite (skeleton_lookup _ _ _ Hn). eauto. }
  { intros _. by apply valid_heap. }
  rewrite Hidx in Hr, Hsk. rewrite Z.leb_refl in Hr, Hsk.
  rewrite (proj2 (Z.eqb_neq _ _)) in Hr by lia. subst r.
  exists st'. split; [exact Hrun|].
  assert (Hlook : skeleton st' !! this = Some (Some (setList pure
            (splice_insert (removeFirst target (front ++ target :: back))
               (Z.of_nat (length front) - 1) target) te),
            docId tb, ownerDocument tb)).
  { rewrite Hsk. apply list_lookup_insert_eq. by eapply lookup_lt_Some. }
  rewrite (listOf_skeleton _ _ _ _ _ _ Hlook), listOf_setList.
  rewrite removeFirst_app_out by done. rewrite removeFirst_head.
  split_and!.
  - intros l1 y ->. rewrite <-app_assoc. cbn [app].
    replace (Z.of_nat (length (l1 ++ [y])) - 1) with (Z.of_nat (length l1))
      by (rewrite length_app; simpl; lia).
    by rewrite splice_insert_at.
  - intros m z -> ->. cbn [app length]. by rewrite splice_insert_before_last.
  - intros -> ->. reflexivity.
Qed.

Lemma moveIndex_own_index_swaps_witness :
  (∃ st',
     moveIndex 0 2 1 true false populatedStore = Done 1 st'
     ∧ childrenOf st' 0%nat = Some [2%nat; 1%nat; 3%nat])
  ∧ (∃ st',
       moveIndex 0 1 0 true false populatedStore = Done 0 st'
       ∧ childrenOf st' 0%nat = Some [2%nat; 1%nat; 3%nat])
  ∧ (∃ st',
       moveIndex 0 1 0 false true populatedStore = Done 0 st'
       ∧ pureChildrenOf st' 0%nat = Some [1%nat; 3%nat]).
Proof.
  split_and!.
  - destruct (moveIndex_own_index_swaps populatedStore 0 2 true false parentBase
                (parentData [1%nat; 2%nat; 3%nat] [1%nat; 3%nat]) [1%nat] [3%nat])
      as (st' & Hrun & Hswap & _).
    + vm_compute; reflexivity.
    + vm_compute; reflexivity.
    + apply (bool_decide_unpack _). vm_compute. exact I.
    + eexists; vm_compute; reflexivity.
    + repeat constructor; eexists; vm_compute; reflexivity.
    + exists st'. split; [exact Hrun|]. exact (Hswap [] 1%nat eq_refl).
  - destruct (moveIndex_own_index_swaps populatedStore 0 1 true false parentBase
                (parentData [1%nat; 2%nat; 3%nat] [1%nat; 3%nat]) [] [2%nat; 3%nat])
      as (st' & Hrun & _ & Hfirst & _).
    + vm_compute; reflexivity.
    + vm_compute; reflexivity.
    + apply not_elem_of_nil.
    + eexists; vm_compute; reflexivity.
    + repeat constructor; eexists; vm_compute; reflexivity.
    + exists st'. split; [exact Hrun|]. exact (Hfirst [2%nat] 3%nat eq_refl eq_refl).
  - destruct (moveIndex_own_index_swaps populatedStore 0 1 false true parentBase
                (parentData [1%nat; 2%nat; 3%nat] [1%nat; 3%nat]) [] [3%nat])
      as (st' & Hrun & _ & Hfirst & _).
    + vm_compute; reflexivity.
    + vm_compute; reflexivity.
    + apply not_elem_of_nil.
    + eexists; vm_compute; reflexivity.
    + repeat constructor; eexists; vm_compute; reflexivity.
    + exists st'. split; [exact Hrun|]. exact (Hfirst [] 3%nat eq_refl eq_refl).
Defined.

End MoveFacts.

Section DestroyFacts.
Import Js Vdom Shape.

Lemma getElement_runs st i e d o :
  skeleton st !! i = Some (Some e, d, o) →
  runs (getElement i) st (fun r st' => r = e ∧ st' = st).
Proof.
  intros (b & Hn & _)%skeleton_element. exists e, st.
  split; [by eapply getElement_lookup|done].
Qed.

Lemma runHook_runs st i :
  runs (runHook i) st (fun _ st' =>
    becomes st' (skeleton st) (centers st) (sent st) (hooksRun st ++ [i])).
Proof. eexists tt, _. split; [done|]. by unfold becomes. Qed.

Lemma Node_destroy_runs st i ed d o :
  skeleton st !! i = Some (ed, d, o) →
  runs (Node_destroy i) st (fun _ st' =>
    becomes st' (<[i := (ed, None, None)]> (skeleton st))
            (centers st) (sent st) (hooksRun st)).
Proof.
  intros (n & Hn & Hs)%skeleton_inv. eexists tt, _.
  split; [by apply updBase_run|].
  unfold becomes, skeleton, centers. simpl. split_and!; try done.
  rewrite list_fmap_insert. f_equal.
  destruct n as [b e|b]; injection Hs as <- _ _; done.
Qed.

Lemma becomes_lookup st (sk0 : list (option ElementData * option nat * option nat))
    this x c s h :
  (this < length sk0)%nat →
  becomes st (<[this := x]> sk0) c s h →
  skeleton st !! this = Some x.
Proof. intros Hlen (-> & _). by apply list_lookup_insert_eq. Qed.

Lemma updElement_at st this f e d o
    (sk0 : list (option ElementData * option nat * option nat)) c s h :
  (this < length sk0)%nat →
  becomes st (<[this := (Some e, d, o)]> sk0) c s h →
  runs (updElement this f) st (fun _ st' =>
    becomes st' (<[this := (Some (f e), d, o)]> sk0) c s h).
Proof.
  intros Hlen Hb. pose proof (becomes_lookup _ _ _ _ _ _ _ Hlen Hb) as Hthis.
  destruct Hb as (Hsk & Hc & Hs & Hh).
  eapply runs_weaken; [by eapply updElement_runs|].
  intros [] st' (Hsk' & Hc' & Hs' & Hh'). unfold becomes.
  by rewrite Hsk', Hc', Hs', Hh', Hsk, Hc, Hs, Hh, list_insert_insert_eq.
Qed.

Lemma getElement_at st this e d o
    (sk0 : list (option ElementData * option nat * option nat)) c s h :
  (this < length sk0)%nat →
  becomes st (<[this := (Some e, d, o)]> sk0) c s h →
  runs (getElement this) st (fun r st' => r = e ∧ st' = st).
Proof.
  intros Hlen Hb. eapply getElement_runs. by eapply becomes_lookup.
Qed.

Lemma runHook_at st i sk c s h :
  becomes st sk c s h →
  runs (runHook i) st (fun _ st' => becomes st' sk c s (h ++ [i])).
Proof.
  intros (Hsk & Hc & Hs & Hh).
  eapply runs_weaken; [apply runHook_runs|].
  intros [] st' (Hsk' & Hc' & Hs' & Hh'). unfold becomes.
  by rewrite Hsk', Hc', Hs', Hh', Hsk, Hc, Hs, Hh.
Qed.

Lemma Node_destroy_at st this ed d o
    (sk0 : list (option ElementData * option nat * option nat)) c s h :
  (this < length sk0)%nat →
  becomes st (<[this := (ed, d, o)]> sk0) c s h →
  runs (Node_destroy this) st (fun _ st' =>
    becomes st' (<[this := (ed, None, None)]> sk0) c s h).
Proof.
  intros Hlen Hb. pose proof (becomes_lookup _ _ _ _ _ _ _ Hlen Hb) as Hthis.
  destruct Hb as (Hsk & Hc & Hs & Hh).
  eapply runs_weaken; [by eapply Node_destroy_runs|].
  intros [] st' (Hsk' & Hc' & Hs' & Hh'). unfold becomes.
  by rewrite Hsk', Hc', Hs', Hh', Hsk, Hc, Hs, Hh, list_insert_insert_eq.
Qed.

(** [destroy] of a live element without children. *)
Lemma destroy_leaf_runs st this e d o cl :
  skeleton st !! this = Some (Some e, d, o) →
  classList e = Some cl →
  children e = Some [] →
  runs (destroy this) st (fun _ st' =>
    becomes st' (<[this := (Some destroyedData, None, None)]> (skeleton st))
            (centers st) (sent st)
            (hooksRun st ++ if destroyHook e then [this] else [])).
Proof.
  intros Hthis Hcl Hch.
  assert (Hlen : (this < length (skeleton st))%nat) by (by eapply lookup_lt_Some).
  assert (H0 : becomes st (<[this := (Some e, d, o)]> (skeleton st))
                 (centers st) (sent st) (hooksRun st)).
  { unfold becomes. by rewrite (list_insert_id _ _ _ Hthis). }
  unfold destroy.
  eapply runs_bind; [apply heapFuel_runs|]. intros fuel st0 [-> ->].
  cbn [destroy_go].
  eapply runs_bind; [by eapply getNode_runs|]. intros n st0 [-> Hn].
  destruct n as [nb ne|nb]; [|done]. clear Hn.
  eapply runs_bind; [by eapply updElement_at|]. intros [] st1 H1.
  eapply runs_bind; [by eapply getElement_at|]. intros e1 st1' [-> ->].
  cbn [classList]. rewrite Hcl.
  eapply runs_bind; [by eapply updElement_at|]. intros [] st2 H2.
  eapply runs_bind; [by eapply updElement_at|]. intros [] st3 H3.
  cbn [destroyHook].
  eapply runs_bind with (P := fun _ st4 =>
    becomes st4
      (<[this := (Some (mkElement None None [] None None None
                          (Some []) (pureChildren e) false), d, o)]> (skeleton st))
      (centers st) (sent st) (hooksRun st ++ if destroyHook e then [this] else [])).
  { unfold when. destruct (destroyHook e) eqn:Hh.
    - eapply runs_bind; [by eapply runHook_at|]. intros [] st4 H4.
      eapply runs_weaken; [by eapply updElement_at|].
      intros [] st5 H5. cbv beta. unfold set_destroyHook, set_classList in H5.
      simpl in H5. by rewrite Hch in H5.
    - apply runs_ret. rewrite app_nil_r. unfold set_classList in H3.
      simpl in H3. by rewrite Hch in H3. }
  intros [] st4 H4.
  eapply runs_bind; [by eapply getElement_at|]. intros e2 st4' [-> ->].
  cbn [children].
  eapply runs_bind.
  { eapply runs_bind with (P := fun _ st5 => st5 = st4); [by apply runs_ret|].
    intros [] st5 ->. by eapply updElement_at. }
  intros [] st5 H5.
  eapply runs_bind; [by eapply getElement_at|]. intros e3 st5' [-> ->].
  eapply runs_bind with (P := fun _ st6 =>
    becomes st6 (<[this := (Some destroyedData, d, o)]> (skeleton st))
      (centers st) (sent st) (hooksRun st ++ if destroyHook e then [this] else [])).
  { unfold when. cbn [pureChildren set_children].
    destruct (pureChildren e) as [pl|] eqn:Hpl.
    - rewrite bool_decide_eq_true_2 by done.
      eapply runs_weaken; [by eapply updElement_at|]. intros [] st6 H6. exact H6.
    - rewrite bool_decide_eq_false_2 by (by intros [? ?]).
      apply runs_ret. exact H5. }
  intros [] st6 H6. by eapply Node_destroy_at.
Qed.

(** X11. [destroy] of a live element without children returns, sends no
    message and runs the destroy hook exactly when one is installed.
    Afterwards the element is unusable: a second [destroy], [setAttr] and
    [setStyle] each throw. *)
Theorem destroyed_element_is_unusable st this b e cl :
  heap st !! this = Some (Element b e) →
  classList e = Some cl →
  children e = Some [] →
  ∃ st',
    destroy this st = Done tt st'
    ∧ sent st' = sent st
    ∧ hooksRun st' = hooksRun st ++ (if destroyHook e then [this] else [])
    ∧ (∃ s, destroy this st' = Throw s)
    ∧ (∀ key value silent, ∃ s, setAttr this key value silent st' = Throw s)
    ∧ (∀ key value silent, ∃ s, setStyle this key value silent st' = Throw s).
Proof.
  intros Hthis Hcl Hch.
  pose proof (element_skeleton _ _ _ _ Hthis) as Hst.
  destruct (destroy_leaf_runs st this e _ _ cl Hst Hcl Hch)
    as ([] & st' & Hrun & Hsk & _ & Hs & Hh).
  assert (Hdead : skeleton st' !! this = Some (Some destroyedData, None, None)).
  { rewrite Hsk. apply list_lookup_insert_eq. by eapply lookup_lt_Some. }
  apply skeleton_element in Hdead as (b' & Hdead & _).
  exists st'. split_and!; try done.
  - by eapply destroy_destroyed_throws.
  - intros key value silent. exists st'. unfold setAttr.
    by erewrite bind_Done by (by eapply getElement_lookup).
  - intros key value silent. exists st'. unfold setStyle.
    by erewrite bind_Done by (by eapply getElement_lookup).
Qed.

Lemma destroyed_element_is_unusable_witness :
  ∃ st',
    destroy 1 populatedStore = Done tt st'
    ∧ sent st' = sent populatedStore
    ∧ hooksRun st' = hooksRun populatedStore ++ []
    ∧ (∃ s, destroy 1 st' = Throw s)
    ∧ (∀ key value silent, ∃ s, setAttr 1 key value silent st' = Throw s)
    ∧ (∀ key value silent, ∃ s, setStyle 1 key value silent st' = Throw s).
Proof.
  apply (destroyed_element_is_unusable populatedStore 1
           (childBase None (Some 2%nat)) newElementData []);
    vm_compute; reflexivity.
Defined.

End DestroyFacts.

Section StylingFacts.
Import Js Vdom Shape Styling Cascade.

Lemma obj_keys_blank o : obj_keys (blank o) = obj_keys o.
Proof.
  unfold obj_keys, blank. rewrite <-list_fmap_compose. done.
Qed.




(** The resolved style depends on the order the sort leaves keys of one
    kind in.  Over the tag style [{width: "7"}], a class style blanked to
    [{margin: "", width: ""}] keeps its keys in this order, the walk from
    the end meets [width] first and returns before [margin] is copied;
    with the two keys the other way round [margin] is copied first. *)
Lemma toStyle_blanked_class_order :
  Style.toStyle [("width", VStr "7")] [("margin", VStr ""); ("width", VStr "")] [] []
  = [("width", VStr "7")]
  ∧ Style.toStyle [("width", VStr "7")] [("width", VStr ""); ("margin", VStr "")] [] []
    = [("width", VStr "7"); ("margin", VStr "")].
Proof. split; reflexivity. Qed.




End StylingFacts.

Section ClearFacts.
Import Js Vdom Shape Styling.

Abbreviation entry := (option ElementData * option nat * option nat)%type.

Lemma destroy_node_runs st c (s : entry) :
  skeleton st !! c = Some s →
  liveLeaf s.1.1 →
  runs (destroy c) st (fun _ st' =>
    becomes st' (<[c := (destroyed s.1.1, None, None)]> (skeleton st))
            (centers st) (sent st)
            (hooksRun st ++ if hasHook s.1.1 then [c] else [])).
Proof.
  destruct s as [[[e|] d] o]; simpl; intros Hc Hlive.
  - destruct Hlive as [[cl Hcl] Hch]. by eapply destroy_leaf_runs.
  - unfold destroy.
    eapply runs_bind; [apply heapFuel_runs|]. intros fuel st0 [-> ->].
    cbn [destroy_go].
    eapply runs_bind; [by eapply getNode_runs|]. intros n st0 [-> Hn].
    destruct n as [nb ne|nb]; [done|].
    eapply runs_weaken; [by eapply Node_destroy_runs|].
    intros [] st' (Hsk & Hc' & Hs & Hh). unfold becomes.
    by rewrite Hsk, Hc', Hs, Hh, app_nil_r.
Qed.

Lemma filter_agree {A} (P Q : A → Prop) `{∀ x, Decision (P x)} `{∀ x, Decision (Q x)}
    (l : list A) :
  (∀ x, x ∈ l → P x ↔ Q x) → filter P l = filter Q l.
Proof.
  induction l as [|x l IH]; intros Hl; [done|].
  rewrite !filter_cons. rewrite IH by (intros y Hy; apply Hl; by right).
  destruct (Hl x) as [H1 H2]; [by left|].
  do 2 case_decide; try done; tauto.
Qed.

Lemma destroy_each_runs l : ∀ st,
  NoDup l →
  (∀ c, c ∈ l → ∃ s : entry, skeleton st !! c = Some s ∧ liveLeaf s.1.1) →
  runs (forEach l destroy) st (fun _ st' =>
    (∀ i, i ∉ l → skeleton st' !! i = skeleton st !! i)
    ∧ (∀ c, c ∈ l → ∃ s : entry, skeleton st !! c = Some s
                     ∧ skeleton st' !! c = Some (destroyed s.1.1, None, None))
    ∧ centers st' = centers st
    ∧ sent st' = sent st
    ∧ hooksRun st' = hooksRun st ++
        filter (fun c => default false
                  ((fun s : entry => hasHook s.1.1) <$> skeleton st !! c) = true) l).
Proof.
  induction l as [|c l IH]; intros st Hnd Hlive; cbn [forEach].
  { apply runs_ret. split_and!; try done.
    - intros c Hc. by apply elem_of_nil in Hc.
    - by rewrite filter_nil, app_nil_r. }
  apply NoDup_cons in Hnd as [Hc Hnd].
  destruct (Hlive c) as (s & Hs & Hl); [by left|].
  eapply runs_bind; [by eapply destroy_node_runs|].
  intros [] st1 (Hsk1 & Hc1 & Hs1 & Hh1).
  assert (Hother : ∀ i, i ≠ c → skeleton st1 !! i = skeleton st !! i).
  { intros i Hi. rewrite Hsk1. by apply list_lookup_insert_ne. }
  eapply runs_weaken.
  { apply IH; [done|]. intros c' Hc'. rewrite Hother by (intros ->; done).
    apply Hlive. by right. }
  intros [] st2 (Hout & Hin & Hc2 & Hs2 & Hh2). cbv beta. split_and!.
  - intros i [Hic Hil]%not_elem_of_cons. rewrite Hout by done. by apply Hother.
  - intros c' [->|Hc']%elem_of_cons.
    + exists s. split; [done|]. rewrite Hout by done. rewrite Hsk1.
      apply list_lookup_insert_eq. by eapply lookup_lt_Some.
    + destruct (Hin c' Hc') as (s' & Hs' & Hd'). exists s'. split; [|done].
      rewrite <-Hs'. symmetry. apply Hother. by intros ->.
  - by rewrite Hc2.
  - by rewrite Hs2.
  - rewrite Hh2, Hh1, <-app_assoc. f_equal.
    rewrite filter_cons, Hs. simpl.
    assert (Hfil : filter (fun c0 => default false
                     ((fun s : entry => hasHook s.1.1) <$> skeleton st1 !! c0) = true) l
                 = filter (fun c0 => default false
                     ((fun s : entry => hasHook s.1.1) <$> skeleton st !! c0) = true) l).
    { apply filter_agree. intros c' Hc'.
      rewrite Hother; [done|]. by intros ->. }
    rewrite Hfil. destruct (hasHook s.1.1); by case_decide.
Qed.

Lemma forEach_send_runs (f : nat → Msg) l : ∀ st,
  runs (forEach l (fun c => send (f c))) st (fun _ st' =>
    becomes st' (skeleton st) (centers st) (sent st ++ (f <$> l)) (hooksRun st)).
Proof.
  induction l as [|c l IH]; intros st; cbn [forEach].
  { apply runs_ret. unfold becomes. by rewrite app_nil_r. }
  eapply runs_bind; [apply send_runs|]. intros [] st1 (Hsk & Hc & Hs & Hh).
  eapply runs_weaken; [apply IH|]. intros [] st2 (Hsk2 & Hc2 & Hs2 & Hh2).
  unfold becomes. rewrite Hsk2, Hc2, Hs2, Hh2, Hsk, Hc, Hs, Hh.
  by rewrite <-app_assoc.
Qed.

Lemma hooked_skeleton st l :
  filter (fun c => default false
            ((fun s : entry => hasHook s.1.1) <$> skeleton st !! c) = true) l
  = hooked st l.
Proof.
  unfold hooked. apply filter_agree. intros c _.
  unfold skeleton. rewrite list_lookup_fmap. by destruct (heap st !! c).
Qed.

(** X14. [clear] on a live element whose children are distinct nodes
    without children of their own: the call returns with both child arrays
    empty, sends one [removeElement] message per element child in order
    when there is a task center, runs the destroy hooks of the children in
    order, and leaves every element child destroyed. *)
Theorem clear_destroys_children st this b e l p :
  heap st !! this = Some (Element b e) →
  children e = Some l →
  pureChildren e = Some p →
  NoDup l →
  this ∉ l →
  (∀ c, c ∈ l → ∃ n, heap st !! c = Some n ∧ liveLeaf (elementData n)) →
  ∃ st',
    clear this st = Done tt st'
    ∧ childrenOf st' this = Some []
    ∧ pureChildrenOf st' this = Some []
    ∧ sent st' = sent st ++ (if taskCenterOf st b then RemoveElement <$> p else [])
    ∧ hooksRun st' = hooksRun st ++ hooked st l
    ∧ (∀ c cb ce, c ∈ l → heap st !! c = Some (Element cb ce) →
         ∃ cb', heap st' !! c = Some (Element cb' destroyedData)).
Proof.
  intros Hthis Hl Hp Hnd Hout Hlive.
  pose proof (element_skeleton _ _ _ _ Hthis) as Hst.
  assert (Hlen : (this < length (skeleton st))%nat) by (by eapply lookup_lt_Some).
  cut (runs (clear this) st (fun _ st' =>
         childrenOf st' this = Some []
         ∧ pureChildrenOf st' this = Some []
         ∧ sent st' = sent st ++ (if taskCenterOf st b then RemoveElement <$> p else [])
         ∧ hooksRun st' = hooksRun st ++ hooked st l
         ∧ (∀ c cb ce, c ∈ l → heap st !! c = Some (Element cb ce) →
              ∃ cb', heap st' !! c = Some (Element cb' destroyedData)))).
  { intros ([] & st' & Hrun & Hpost). by exists st'. }
  unfold clear.
  eapply runs_bind; [by eapply getTaskCenter_runs|]. intros tc st0 [-> ->].
  rewrite centerOf_taskCenterOf.
  eapply runs_bind with (P := fun _ st1 =>
    becomes st1 (skeleton st) (centers st)
      (sent st ++ if taskCenterOf st b then RemoveElement <$> p else []) (hooksRun st)).
  { unfold when. destruct (taskCenterOf st b).
    - eapply runs_bind; [by eapply (getList_runs _ true)|]. intros pl st1 [-> ->].
      apply forEach_send_runs.
    - apply runs_ret. unfold becomes. by rewrite app_nil_r. }
  intros [] st1 (Hsk1 & Hc1 & Hs1 & Hh1).
  eapply runs_bind.
  { eapply (getList_runs _ false); [by rewrite Hsk1|done]. }
  intros l0 st1' [-> ->].
  eapply runs_bind.
  { apply destroy_each_runs; [done|]. intros c Hc.
    destruct (Hlive c Hc) as (n & Hn & Hln). exists (skel n).
    rewrite Hsk1. split; [by apply skeleton_lookup|done]. }
  intros [] st2 (Hother & Hdead & Hc2 & Hs2 & Hh2).
  assert (Hthis2 : skeleton st2 !! this = Some (Some e, docId b, ownerDocument b)).
  { rewrite Hother by done. by rewrite Hsk1. }
  eapply runs_bind; [by eapply (putList_runs _ false)|].
  intros [] st3 (Hsk3 & Hc3 & Hs3 & Hh3).
  assert (Hlen2 : (this < length (skeleton st2))%nat) by (by eapply lookup_lt_Some).
  assert (Hthis3 : skeleton st3 !! this
            = Some (Some (setList false [] e), docId b, ownerDocument b)).
  { rewrite Hsk3. by apply list_lookup_insert_eq. }
  eapply runs_bind.
  { eapply (getList_runs _ true); [exact Hthis3|exact Hp]. }
  intros pl st3' [-> ->].
  eapply runs_weaken; [by eapply (putList_runs _ true)|].
  intros [] st4 (Hsk4 & Hc4 & Hs4 & Hh4). cbv beta.
  assert (Hthis4 : skeleton st4 !! this
            = Some (Some (setList true [] (setList false [] e)),
                    docId b, ownerDocument b)).
  { rewrite Hsk4. apply list_lookup_insert_eq. by eapply lookup_lt_Some. }
  destruct (childrenOf_skeleton _ _ _ _ _ Hthis4) as [-> ->].
  split_and!; try done.
  - by rewrite Hs4, Hs3, Hs2, Hs1.
  - by rewrite Hh4, Hh3, Hh2, Hh1, Hsk1, hooked_skeleton.
  - intros c cb ce Hc Hn.
    destruct (Hdead c Hc) as (s & Hs & Hd).
    rewrite Hsk1, (skeleton_lookup _ _ _ Hn) in Hs. injection Hs as <-.
    assert (Hne : this ≠ c) by (by intros ->).
    assert (H4 : skeleton st4 !! c = Some (Some destroyedData, None, None)).
    { rewrite Hsk4, list_lookup_insert_ne by done.
      rewrite Hsk3, list_lookup_insert_ne by done. exact Hd. }
    apply skeleton_element in H4 as (cb' & H4 & _). eauto.
Qed.

Lemma clear_destroys_children_witness :
  ∃ st',
    clear 0 populatedStore = Done tt st'
    ∧ childrenOf st' 0%nat = Some []
    ∧ pureChildrenOf st' 0%nat = Some []
    ∧ sent st' = sent populatedStore ++ (RemoveElement <$> [1%nat; 3%nat])
    ∧ hooksRun st' = hooksRun populatedStore ++ hooked populatedStore [1%nat; 2%nat; 3%nat]
    ∧ (∀ c cb ce, c ∈ [1%nat; 2%nat; 3%nat] →
         heap populatedStore !! c = Some (Element cb ce) →
         ∃ cb', heap st' !! c = Some (Element cb' destroyedData)).
Proof.
  apply (clear_destroys_children populatedStore 0 parentBase
           (parentData [1%nat; 2%nat; 3%nat] [1%nat; 3%nat])
           [1%nat; 2%nat; 3%nat] [1%nat; 3%nat]);
    try (vm_compute; reflexivity).
  - apply (bool_decide_unpack _). vm_compute. exact I.
  - apply (bool_decide_unpack _). vm_compute. exact I.
  - intros c Hc.
    apply elem_of_cons in Hc as [->|Hc];
      [eexists; split; [vm_compute; reflexivity|simpl; eauto]|].
    apply elem_of_cons in Hc as [->|Hc];
      [eexists; split; [vm_compute; reflexivity|simpl; eauto]|].
    apply elem_of_cons in Hc as [->|Hc];
      [eexists; split; [vm_compute; reflexivity|simpl; eauto]|].
    by apply elem_of_nil in Hc.
Defined.

End ClearFacts.

(** ** The repeat reconciler, further *)

Section RepeatMore.
Import Js Repeat.

Variable trackBy : Val.
Variable compileInto :
  nat → Item → nat → list (option nat) * option Mark → list (option nat) * option Mark.
Variable removeItem : list Item → Item → list Item.

Abbreviation keyOf := (Repeat.keyOf trackBy).
Abbreviation handler := (Repeat.handler trackBy compileInto removeItem).
Abbreviation placeItem := (Repeat.placeItem trackBy compileInto removeItem).
Abbreviation compileItem := (Repeat.compileItem compileInto).
Abbreviation scanOld := (Repeat.scanOld trackBy).
Abbreviation trackMapOf := (Repeat.trackMapOf trackBy).
Abbreviation keysOf := (Repeat.keysOf trackBy).
Abbreviation keyed := (Repeat.keyed trackBy).
Abbreviation nameOf := (Repeat.nameOf trackBy).
Abbreviation reusedFor := (Repeat.reusedFor trackBy).

(** *** The contexts stay aligned with the data *)

Lemma place_lengths (rm : gmap string Reused) entries : ∀ run rl run' rl',
  foldl (placeItem rm) (Some (run, rl)) entries = Some (run', rl') →
  length (vms run') = (length (vms run) + length entries)%nat
  ∧ data run' = data run
  ∧ (nextVm run ≤ nextVm run')%nat.
Proof.
  assert (Hnone : ∀ l, foldl (placeItem rm) None l = None).
  { induction l; simpl; auto. }
  induction entries as [|e entries IH]; intros run rl run' rl'; simpl.
  - intros [= <- <-]. split_and!; [lia|done|done].
  - destruct (rm !! to_property_key (keyOf e.2 e.1)) as [r|].
    + destruct (r_vm r) as [v|]; [|by rewrite Hnone].
      intros Hf. apply IH in Hf as (Hl & Hd & Hn). simpl in Hl, Hd, Hn.
      rewrite length_app in Hl. simpl in Hl. split_and!; [lia|done|done].
    + destruct (protoMember _); [by rewrite Hnone|].
      intros Hf. apply IH in Hf as (Hl & Hd & Hn). simpl in Hl, Hd, Hn.
      rewrite length_app in Hl. simpl in Hl. split_and!; [lia|done|lia].
Qed.

Lemma scan_vms tm oc ov entries acc :
  (∀ k r, reusedMap acc !! k = Some r → is_Some (r_vm r)) →
  Forall (fun e => is_Some (ov !! e.1)) entries →
  ∀ k r, reusedMap (foldl (scanOld tm oc ov) acc entries) !! k = Some r →
         is_Some (r_vm r).
Proof.
  intros Hacc Hall. revert acc Hacc.
  induction Hall as [|e entries He _ IH]; intros acc Hacc; simpl; [done|].
  apply IH. rewrite scanOld_step.
  destruct (hasOwn tm (keyOf e.2 e.1)); simpl; [|done].
  intros k r. destruct (decide (Repeat.nameOf trackBy e = k)) as [<-|Hne].
  - rewrite lookup_insert_eq. by intros [= <-].
  - rewrite lookup_insert_ne by done. apply Hacc.
Qed.

Lemma indexed_inside {A} (l : list A) :
  Forall (fun e => (e.1 < length l)%nat) (indexed l).
Proof.
  apply Forall_forall. intros [j x] Hj. apply indexed_elem in Hj.
  by eapply lookup_lt_Some.
Qed.

(** X15. As long as the block's contexts are index-aligned with its data
    and no key of the new sequence names a member of [Object.prototype],
    the handler returns normally and leaves the contexts aligned again:
    the data is the new sequence, there is one context per item, the
    update mark is deleted and no context identifier is reused. *)
Theorem handler_keeps_contexts_aligned run newData :
  length (vms run) = length (data run) →
  Forall (fun k => protoMember k = false) (keysOf newData) →
  ∃ run',
    handler run (Some newData) = Some run'
    ∧ data run' = newData
    ∧ length (vms run') = length (data run')
    ∧ updateMark run' = None
    ∧ (nextVm run ≤ nextVm run')%nat.
Proof.
  intros Hlv Hplain. unfold Repeat.handler.
  set (tm := trackMapOf newData).
  set (scan := foldl (scanOld tm (children run) (vms run))
                     (mkScan ∅ [] (calls run)) (indexed (data run))).
  assert (Hvms : ∀ k r, reusedMap scan !! k = Some r → is_Some (r_vm r)).
  { apply scan_vms; [done|].
    eapply Forall_impl; [apply indexed_inside|]. intros e He. simpl in He.
    apply lookup_lt_is_Some. lia. }
  destruct (place_general trackBy compileInto removeItem
              (reusedMap scan) (indexed newData)
              (mkRun [] [] newData (Some Start) (scope run) (nextVm run) (scanCalls scan))
              (reusedList scan) Hvms)
    as (run' & rl' & added & vs & Hf & _).
  { by apply Forall_fmap in Hplain. }
  rewrite Hf. eexists. split; [done|]. simpl.
  apply place_lengths in Hf as (Hl & Hd & Hn). simpl in Hl, Hd, Hn.
  split_and!; [done| |done|done].
  rewrite Hl, Hd. unfold indexed. by rewrite length_imap.
Qed.

(** *** The first materialisation *)

Lemma indexed_length {A} (l : list A) : length (indexed l) = length l.
Proof. unfold indexed. by rewrite length_imap. Qed.

Lemma compile_each entries : ∀ r,
  let r' := foldl (fun r e => compileItem r e.2 e.1) r entries in
  vms r' = vms r ++ seq (nextVm r) (length entries)
  ∧ nextVm r' = (nextVm r + length entries)%nat
  ∧ data r' = data r
  ∧ calls r' = calls r ++ imap (fun i e => CompileItem (nextVm r + i) e.2 e.1) entries.
Proof.
  induction entries as [|e entries IH]; intros r; simpl.
  - rewrite !app_nil_r. split_and!; [done|lia|done|done].
  - destruct (IH (compileItem r e.2 e.1)) as (Hv & Hn & Hd & Hc).
    simpl in Hv, Hn, Hd, Hc. rewrite Hv, Hn, Hd, Hc, <-!app_assoc. simpl.
    split_and!; [done|lia|done|].
    f_equal. rewrite Nat.add_0_r. f_equal.
    apply imap_ext. intros i x _. simpl. f_equal. lia.
Qed.

(** X24. The first materialisation of a list compiles every item exactly
    once, in order, each into a fresh context: the contexts added are the
    next identifiers in sequence, the block's data becomes the list, and a
    block that had no contexts ends index-aligned with its data. *)
Theorem materialize_compiles_each_once run list :
  let run' := Repeat.materialize compileInto run list in
  vms run' = vms run ++ seq (nextVm run) (length list)
  ∧ data run' = list
  ∧ nextVm run' = (nextVm run + length list)%nat
  ∧ calls run' = calls run ++ imap (fun i x => CompileItem (nextVm run + i) x i) list
  ∧ (vms run = [] → length (vms run') = length (data run')).
Proof.
  unfold Repeat.materialize.
  destruct (compile_each (indexed list)
              (mkRun (children run) (vms run) list (updateMark run)
                     (scope run) (nextVm run) (calls run)))
    as (Hv & Hn & Hd & Hc).
  simpl in Hv, Hn, Hd, Hc. rewrite indexed_length in Hv, Hn.
  cbv zeta. rewrite Hv, Hn, Hd, Hc. split_and!; try done.
  - f_equal. unfold indexed. apply list_eq. intros i.
    rewrite !list_lookup_imap. by destruct (list !! i).
  - intros ->. simpl. by rewrite length_seq.
Qed.

(** *** New keys that are a prefix of the old keys *)

Lemma scan_dropped tm oc ov entries acc :
  Forall (fun e => hasOwn tm (keyOf e.2 e.1) = false) entries →
  let scan := foldl (scanOld tm oc ov) acc entries in
  scanCalls scan
  = scanCalls acc ++ ((fun e => RemoveTarget (mjoin (oc !! e.1))) <$> entries)
  ∧ reusedList scan = reusedList acc
  ∧ reusedMap scan = reusedMap acc.
Proof.
  intros Hall. revert acc.
  induction Hall as [|e entries He _ IH]; intros acc; simpl.
  - by rewrite app_nil_r.
  - rewrite scanOld_step, He.
    match goal with |- context [foldl _ ?a entries] =>
      destruct (IH a) as (Hc & Hl & Hm)
    end.
    simpl in Hc, Hl, Hm. by rewrite Hc, Hl, Hm, <-app_assoc.
Qed.

Lemma scan_kept_list tm oc ov entries acc :
  Forall (fun e => hasOwn tm (keyOf e.2 e.1) = true) entries →
  reusedList (foldl (scanOld tm oc ov) acc entries) = reusedList acc ++ entries.*2.
Proof.
  intros Hall. revert acc.
  induction Hall as [|e entries He _ IH]; intros acc; simpl.
  - by rewrite app_nil_r.
  - rewrite scanOld_step, He, IH. simpl. by rewrite <-app_assoc.
Qed.

Lemma item_same_refl x : item_same x x = true.
Proof. destruct x; simpl; by apply bool_decide_eq_true_2. Qed.

Lemma place_in_order (rm : gmap string Reused) entries : ∀ olds run rl,
  Forall2 (fun e x => ∃ r v, rm !! nameOf e = Some r ∧ r_item r = x ∧ r_vm r = Some v)
          entries olds →
  ∃ run' targets contexts,
    foldl (placeItem rm) (Some (run, olds ++ rl)) entries = Some (run', rl)
    ∧ calls run' = calls run
    ∧ children run' = children run ++ targets
    ∧ vms run' = vms run ++ contexts
    ∧ Forall2 (fun e t => ∃ r, rm !! nameOf e = Some r ∧ r_target r = t) entries targets
    ∧ Forall2 (fun e v => ∃ r, rm !! nameOf e = Some r ∧ r_vm r = Some v) entries contexts
    ∧ data run' = data run
    ∧ nextVm run' = nextVm run.
Proof.
  induction entries as [|e entries IH]; intros olds run rl Hall.
  - apply Forall2_nil_inv_l in Hall as ->. simpl.
    exists run, [], []. rewrite !app_nil_r. by split_and!.
  - apply Forall2_cons_inv_l in Hall as (x & olds' & (r & v & Hr & Hx & Hv) & Hall & ->).
    simpl. change (to_property_key (keyOf e.2 e.1)) with (nameOf e).
    rewrite Hr, Hv, Hx, item_same_refl. simpl.
    match goal with |- context [foldl _ (Some (?a, _)) entries] =>
      destruct (IH olds' a rl Hall)
        as (run' & ts & vs & Hf & Hc & Hch & Hvm & Ht & Hctx & Hd & Hn)
    end.
    simpl in Hc, Hch, Hvm, Hd, Hn.
    exists run', (r_target r :: ts), (v :: vs).
    rewrite Hf, Hch, Hvm, <-!app_assoc. simpl.
    split_and!; try done; constructor; eauto.
Qed.

Lemma keysOf_length (l : list Item) : length (keysOf l) = length l.
Proof. unfold Repeat.keysOf, indexed. by rewrite length_fmap, length_imap. Qed.

Lemma handler_prefix run newData :
  length (children run) = length (data run) →
  length (vms run) = length (data run) →
  NoDup (keysOf (data run)) →
  keyed newData →
  keysOf newData = take (length newData) (keysOf (data run)) →
  ∃ run',
    handler run (Some newData) = Some run'
    ∧ calls run' = calls run ++ (RemoveTarget <$> drop (length newData) (children run))
    ∧ children run' = take (length newData) (children run)
    ∧ vms run' = take (length newData) (vms run)
    ∧ data run' = newData
    ∧ nextVm run' = nextVm run.
Proof.
  intros Hlc Hlv Hnd Hkeyed Hkeys.
  set (m := length newData) in *. set (old := data run) in *.
  set (oc := children run) in *. set (ov := vms run) in *.
  set (tm := trackMapOf newData).
  assert (Hm : (m ≤ length old)%nat).
  { pose proof (f_equal length Hkeys) as Hl.
    rewrite length_take, !keysOf_length in Hl. fold m in Hl. lia. }
  assert (Hdom : ∀ k, is_Some (tm !! k) ↔ k ∈ keysOf newData).
  { intros k. unfold tm, Repeat.trackMapOf.
    rewrite (trackMap_domain trackBy (indexed newData) ∅ k Hkeyed).
    rewrite lookup_empty. split; [intros [[? ?]|?]; done|by right]. }
  assert (Hkey : ∀ j x, old !! j = Some x →
            hasOwn tm (keyOf x j) = bool_decide (j < m)%nat).
  { intros j x Hx. unfold hasOwn.
    change (to_property_key (keyOf x j)) with (nameOf (j, x)).
    assert (Hkj : keysOf old !! j = Some (nameOf (j, x))).
    { by rewrite keysOf_lookup, Hx. }
    apply bool_decide_ext. rewrite Hdom, Hkeys. split.
    - intros [i Hi]%list_elem_of_lookup.
      destruct (decide (i < m)%nat) as [Him|Him].
      + rewrite lookup_take_lt in Hi by done.
        by rewrite <-(NoDup_lookup _ _ _ _ Hnd Hi Hkj).
      + by rewrite lookup_take_ge in Hi by lia.
    - intros Hj. apply list_elem_of_lookup. exists j.
      by rewrite lookup_take_lt. }
  assert (Hsplit : indexed old = take m (indexed old) ++ drop m (indexed old))
    by (by rewrite take_drop).
  assert (Hkept : Forall (fun e => hasOwn tm (keyOf e.2 e.1) = true) (take m (indexed old))).
  { apply Forall_forall. intros [j x] Hj.
    apply list_elem_of_lookup in Hj as [i Hi].
    destruct (decide (i < m)%nat) as [Him|Him];
      [|by rewrite lookup_take_ge in Hi by lia].
    rewrite lookup_take_lt, indexed_lookup in Hi by done.
    destruct (old !! i) as [y|] eqn:Hy; simpl in Hi; [|done].
    injection Hi as <- <-. simpl. rewrite (Hkey _ _ Hy).
    by apply bool_decide_eq_true_2. }
  assert (Hgone : Forall (fun e => hasOwn tm (keyOf e.2 e.1) = false) (drop m (indexed old))).
  { apply Forall_forall. intros [j x] Hj.
    apply list_elem_of_lookup in Hj as [i Hi].
    rewrite lookup_drop, indexed_lookup in Hi.
    destruct (old !! (m + i)%nat) as [y|] eqn:Hy; simpl in Hi; [|done].
    injection Hi as <- <-. simpl. rewrite (Hkey _ _ Hy).
    apply bool_decide_eq_false_2. lia. }
  assert (Hndk : NoDup (nameOf <$> take m (indexed old))).
  { rewrite fmap_take. change (nameOf <$> indexed old) with (keysOf old).
    eapply sublist_NoDup; [exact Hnd|apply sublist_take]. }
  unfold Repeat.handler. fold tm oc ov old.
  rewrite Hsplit, foldl_app.
  destruct (scan_all_kept trackBy tm oc ov (take m (indexed old))
              (mkScan ∅ [] (calls run)) Hkept Hndk) as (Hc1 & Hin & _).
  pose proof (scan_kept_list tm oc ov (take m (indexed old))
                (mkScan ∅ [] (calls run)) Hkept) as Hl1.
  set (scan1 := foldl (scanOld tm oc ov) (mkScan ∅ [] (calls run)) (take m (indexed old)))
    in *.
  destruct (scan_dropped tm oc ov (drop m (indexed old)) scan1 Hgone) as (Hc2 & Hl2 & Hm2).
  set (scan := foldl (scanOld tm oc ov) scan1 (drop m (indexed old))) in *.
  simpl in Hc1, Hl1.
  assert (Hold : ∀ i x, (i < m)%nat → old !! i = Some x →
            reusedMap scan !! nameOf (i, x) = Some (reusedFor oc ov (i, x))).
  { intros i x Him Hx. rewrite Hm2. apply Hin. apply list_elem_of_lookup. exists i.
    by rewrite lookup_take_lt, indexed_lookup, Hx. }
  assert (Hpairs : Forall2
            (fun e x => ∃ r v, reusedMap scan !! nameOf e = Some r
                               ∧ r_item r = x ∧ r_vm r = Some v)
            (indexed newData) (take m (indexed old)).*2).
  { apply Forall2_same_length_lookup_2.
    { rewrite length_fmap, length_take, !indexed_length. fold m. lia. }
    intros i [i' y] x Hy Hx. rewrite indexed_lookup in Hy.
    destruct (newData !! i) as [y'|] eqn:Hy'; simpl in Hy; [|done].
    injection Hy as <- <-.
    assert (Him : (i < m)%nat) by (by eapply lookup_lt_Some).
    rewrite list_lookup_fmap, lookup_take_lt, indexed_lookup in Hx by done.
    destruct (old !! i) as [x'|] eqn:Hx'; simpl in Hx; [|done].
    injection Hx as <-.
    assert (Hname : nameOf (i, y') = nameOf (i, x')).
    { pose proof (f_equal (fun l => l !! i) Hkeys) as Hk. simpl in Hk.
      rewrite lookup_take_lt, !keysOf_lookup, Hy', Hx' in Hk by done.
      by injection Hk. }
    rewrite Hname, (Hold _ _ Him Hx').
    destruct (ov !! i) as [v|] eqn:Hv.
    - exists (reusedFor oc ov (i, x')), v. split_and!; [done|done|]. by simpl.
    - apply lookup_ge_None in Hv. apply lookup_lt_Some in Hx'. unfold ov, old in *. lia. }
  assert (Hlist : reusedList scan = (take m (indexed old)).*2 ++ []).
  { by rewrite Hl2, Hl1, app_nil_r. }
  rewrite Hlist.
  destruct (place_in_order (reusedMap scan) (indexed newData) _
              (mkRun [] [] newData (Some Start) (scope run) (nextVm run) (scanCalls scan))
              [] Hpairs)
    as (run' & ts & vs & Hf & Hc & Hch & Hvm & Ht & Hctx & Hd & Hn).
  simpl in Hc, Hch, Hvm, Hd, Hn. rewrite Hf.
  eexists. split; [done|]. simpl.
  assert (Hlook : ∀ i y, newData !! i = Some y →
            ∃ x, old !! i = Some x
                 ∧ reusedMap scan !! nameOf (i, y) = Some (reusedFor oc ov (i, x))).
  { intros i y Hy.
    assert (Him : (i < m)%nat) by (by eapply lookup_lt_Some).
    destruct (lookup_lt_is_Some_2 old i) as [x Hx]; [lia|].
    exists x. split; [done|].
    pose proof (f_equal (fun l => l !! i) Hkeys) as Hk. simpl in Hk.
    rewrite lookup_take_lt, !keysOf_lookup, Hy, Hx in Hk by done.
    injection Hk as ->. by apply Hold. }
  split_and!; try done.
  - rewrite Hc, Hc2, Hc1. f_equal.
    apply list_eq. intros i. rewrite !list_lookup_fmap, !lookup_drop, indexed_lookup.
    destruct (old !! (m + i)%nat) as [x|] eqn:Hx; simpl.
    + destruct (lookup_lt_is_Some_2 oc (m + i)) as [c Hc'].
      { apply lookup_lt_Some in Hx. unfold oc, old in *. lia. }
      by rewrite Hc'.
    + apply lookup_ge_None in Hx.
      rewrite (proj2 (lookup_ge_None oc (m + i))); [done|]. unfold oc, old in *. lia.
  - rewrite Hch. apply list_eq. intros i.
    destruct (newData !! i) as [y|] eqn:Hy.
    + assert (Him : (i < m)%nat) by (by eapply lookup_lt_Some).
      assert (He : indexed newData !! i = Some (i, y)) by (by rewrite indexed_lookup, Hy).
      destruct (Forall2_lookup_l _ _ _ _ _ Ht He) as (t & Hti & r & Hr & Hrt).
      destruct (Hlook i y Hy) as (x & Hx & Hr'). rewrite Hr' in Hr. injection Hr as <-.
      simpl in Hrt. rewrite Hti, lookup_take_lt by done. subst t.
      destruct (lookup_lt_is_Some_2 oc i) as [c Hc']; [unfold oc, old in *; lia|].
      by rewrite Hc'.
    + apply lookup_ge_None in Hy. fold m in Hy.
      rewrite lookup_take_ge by done. apply lookup_ge_None.
      rewrite <-(Forall2_length _ _ _ Ht), indexed_length. done.
  - rewrite Hvm. apply list_eq. intros i.
    destruct (newData !! i) as [y|] eqn:Hy.
    + assert (Him : (i < m)%nat) by (by eapply lookup_lt_Some).
      assert (He : indexed newData !! i = Some (i, y)) by (by rewrite indexed_lookup, Hy).
      destruct (Forall2_lookup_l _ _ _ _ _ Hctx He) as (v & Hvi & r & Hr & Hrv).
      destruct (Hlook i y Hy) as (x & Hx & Hr'). rewrite Hr' in Hr. injection Hr as <-.
      simpl in Hrv. by rewrite Hvi, lookup_take_lt.
    + apply lookup_ge_None in Hy. fold m in Hy.
      rewrite lookup_take_ge by done. apply lookup_ge_None.
      rewrite <-(Forall2_length _ _ _ Hctx), indexed_length. done.
Qed.


Lemma keysOf_untracked (l : list Item) :
  truthy trackBy = false →
  keysOf l = (fun i : nat => pretty (Z.of_nat i)) <$> seq 0 (length l).
Proof.
  intros Hno. apply list_eq. intros i.
  rewrite keysOf_lookup, list_lookup_fmap.
  destruct (l !! i) as [x|] eqn:Hx; simpl.
  - rewrite lookup_seq_lt by (by eapply lookup_lt_Some). simpl.
    unfold Repeat.nameOf, Repeat.keyOf. by rewrite Hno.
  - apply lookup_ge_None in Hx. by rewrite lookup_seq_ge.
Qed.

(** X17. Without a track-by name an item is known by its index alone: when
    the new sequence is not longer than the old one, whatever its items
    are, the handler keeps the first targets and contexts in their slots,
    removes the targets of the surplus tail in order, moves nothing and
    compiles nothing. *)
Theorem untracked_shrink_drops_tail run newData :
  truthy trackBy = false →
  length (children run) = length (data run) →
  length (vms run) = length (data run) →
  (length newData ≤ length (data run))%nat →
  ∃ run',
    handler run (Some newData) = Some run'
    ∧ calls run' = calls run ++ (RemoveTarget <$> drop (length newData) (children run))
    ∧ children run' = take (length newData) (children run)
    ∧ vms run' = take (length newData) (vms run)
    ∧ data run' = newData
    ∧ nextVm run' = nextVm run.
Proof.
  intros Hno Hlc Hlv Hle. apply handler_prefix; try done.
  - rewrite keysOf_untracked by done.
    assert (Hinj : Inj (=) (=) (fun i : nat => pretty (Z.of_nat i))).
    { intros i j Hij. apply (inj pretty) in Hij. lia. }
    apply (NoDup_fmap_2 _), NoDup_seq.
  - apply Forall_forall. intros [i x] _. simpl.
    unfold Repeat.keyOf. by rewrite Hno.
  - rewrite !keysOf_untracked by done.
    rewrite <-fmap_take, take_seq. do 2 f_equal. lia.
Qed.

End RepeatMore.

Lemma handler_keeps_contexts_aligned_witness :
  ∃ run',
    Repeat.handler (Js.VStr "id") Repeat.sampleCompile Repeat.sampleRemove
      Repeat.sampleRun (Some [Repeat.person 3 "c"; Repeat.person 4 "d"]) = Some run'
    ∧ Repeat.data run' = [Repeat.person 3 "c"; Repeat.person 4 "d"]
    ∧ length (Repeat.vms run') = length (Repeat.data run')
    ∧ Repeat.updateMark run' = None
    ∧ (Repeat.nextVm Repeat.sampleRun ≤ Repeat.nextVm run')%nat.
Proof.
  apply (handler_keeps_contexts_aligned (Js.VStr "id") Repeat.sampleCompile
           Repeat.sampleRemove Repeat.sampleRun).
  - reflexivity.
  - apply (bool_decide_unpack _). vm_compute. exact I.
Defined.


Lemma untracked_shrink_drops_tail_witness :
  ∃ run',
    Repeat.handler Js.VUndefined Repeat.sampleCompile Repeat.sampleRemove
      Repeat.sampleRun (Some [Repeat.person 3 "c"]) = Some run'
    ∧ Repeat.calls run'
      = Repeat.calls Repeat.sampleRun
        ++ (Repeat.RemoveTarget <$> drop 1 (Repeat.children Repeat.sampleRun))
    ∧ Repeat.children run' = take 1 (Repeat.children Repeat.sampleRun)
    ∧ Repeat.vms run' = take 1 (Repeat.vms Repeat.sampleRun)
    ∧ Repeat.data run' = [Repeat.person 3 "c"]
    ∧ Repeat.nextVm run' = Repeat.nextVm Repeat.sampleRun.
Proof.
  apply (untracked_shrink_drops_tail Js.VUndefined Repeat.sampleCompile
           Repeat.sampleRemove Repeat.sampleRun [Repeat.person 3 "c"]);
    try reflexivity.
  vm_compute. lia.
Defined.

(** ** The watcher and the differ, further *)

Section WatchMore.
Import Watch.
Context {V : Type}.

(** X18. Without a differ on the app, a trigger only records its value: a
    wave of triggers queues nothing and calls no handler, and a call that
    was triggered is left recorded with the value of its last trigger. *)
Theorem wave_without_differ_only_records st w (events : list (Event V)) :
  let s := wave false events st in
  pending s = pending st
  ∧ handled s = handled st
  ∧ configOf s w
    = match last (valuesOf w events) with
      | Some v => mkConfig (Some v) true
      | None => configOf st w
      end.
Proof.
  induction events as [|ev events IH] using rev_ind; simpl; [done|].
  destruct IH as (Hp & Hh & Hc). unfold wave in *. rewrite foldl_app. simpl.
  set (s := foldl _ st events) in *.
  unfold onChange. simpl. split_and!; [done|done|].
  rewrite valuesOf_snoc. destruct (decide (ev_watcher ev = w)) as [->|Hne].
  - rewrite last_snoc. apply configOf_insert_eq.
  - rewrite app_nil_r, <-Hc. by apply configOf_insert_ne.
Qed.

(** X19. With a differ, a flush calls no handler for a call that was not
    triggered in the wave and had no callback pending: its handler calls
    and its config are as before, whatever the other calls did. *)
Theorem untriggered_call_is_not_handled st w ty id (events : list (Event V)) :
  recorded (configOf st w) = false →
  Forall (fun e => e_watcher e ≠ w) (pending st) →
  Forall (ownsKey w ty id) events →
  valuesOf w events = [] →
  let st' := flush (wave true events st) in
  handledBy w st' = handledBy w st
  ∧ configOf st' w = configOf st w
  ∧ pending st' = [].
Proof.
  intros Hfresh Hq Hown Hnone. simpl.
  assert (Hcfg : configOf (wave true events st) w = configOf st w).
  { clear Hfresh Hq Hown. induction events as [|ev events IH] using rev_ind; [done|].
    rewrite valuesOf_snoc in Hnone. apply app_eq_nil in Hnone as [Hnone Hev].
    unfold wave in *. rewrite foldl_app. simpl. unfold onChange.
    destruct (decide (ev_watcher ev = w)); [done|].
    unfold configOf at 1. simpl. rewrite lookup_insert_ne by done. by apply IH. }
  destruct (wave_invariant st w ty id events Hfresh Hq Hown)
    as [Hh [(_ & _ & Hpend)|(v & q1 & q2 & Hv & _)]];
    [|by rewrite Hnone in Hv].
  set (s := wave true events st) in *. unfold flush.
  destruct (flush_others (mkWorld (configs s) [] (handled s)) w (pending s) Hpend)
    as (Hc & Hb & Hp).
  rewrite Hc, Hb, Hp. split_and!; [|done|done].
  unfold handledBy. simpl. by rewrite Hh.
Qed.

End WatchMore.

Lemma untriggered_call_is_not_handled_witness :
  let events := [Watch.mkEvent 8 "shown" "4" 10; Watch.mkEvent 8 "shown" "4" 11] in
  let st' := Watch.flush (Watch.wave true events (Watch.mkWorld ∅ [] [])) in
  Watch.handledBy 7 st' = Watch.handledBy 7 (Watch.mkWorld ∅ [] [])
  ∧ Watch.configOf st' 7 = Watch.configOf (Watch.mkWorld (V:=Z) ∅ [] []) 7
  ∧ Watch.pending st' = [].
Proof.
  apply (untriggered_call_is_not_handled (Watch.mkWorld ∅ [] []) 7 "repeat" "3").
  - reflexivity.
  - constructor.
  - repeat constructor; vm_compute; intros; try done; by destruct_and?.
  - reflexivity.
Defined.

(** ** The compiler, further *)

Section CompilerMore.
Import Compiler CompilerSamples.
Context {H : Type} (host : Host H).
Variable custom : Vm → nat → Template → Dest → string → Meta → World H → World H.

Abbreviation compile := (Compiler.compile host custom).

Lemma call_signal {A} (f : H → A * H) (w : World H) :
  lastSignal (call f w).2 = lastSignal w.
Proof. done. Qed.

Lemma not_aborted vm (w : World H) :
  lastSignal w ≠ Some (-1) → aborted vm w = false.
Proof.
  intros Hs. unfold aborted. rewrite bool_decide_eq_false_2 by done.
  by rewrite andb_false_r.
Qed.

(** X20. A node that carries both a repeat and a shown directive, compiled
    where the repeat getter yields a list whose first item is falsy (the
    number 0 or the empty string) and the shown getter yields a truthy
    value: [compileShown] drops the falsy item from [meta], so the repeat
    directive is entered again for the same item, and the compilation does
    not return, however deep the calls may go. *)
Theorem falsy_repeat_item_under_shown_never_returns
    fuel vm target dest meta w repeat shown :
  t_repeat target = Some repeat →
  t_shown target = Some shown →
  targetIsSlot target = false →
  (∀ vm d h, isDocument (createBlock host vm d h).1 = false) →
  (∀ vm d h, ∃ x l, (watchRepeat host vm d repeat h).1 = Some (x :: l)
                     ∧ item_truthy x = false) →
  (∀ vm d h, (watchShown host vm d shown h).1 = true) →
  m_repeat meta = None →
  isDocument dest = false →
  lastSignal w ≠ Some (-1) →
  compile fuel vm target dest meta w = None.
Proof.
  intros Hrep Hshown Hslot Hblock Hlist Hshow.
  cut (∀ fuel,
         (∀ vm dest meta w,
            m_repeat meta = None → isDocument dest = false →
            lastSignal w ≠ Some (-1) →
            compile fuel vm target dest meta w = None)
         ∧ (∀ vm dest x w,
              item_truthy x = false → isDocument dest = false →
              lastSignal w ≠ Some (-1) →
              compile fuel vm target dest (mkMeta (Some x) None None) w = None)).
  { intros Hall. apply (Hall fuel). }
  clear fuel vm dest meta w.
  induction fuel as [|fuel [IHrepeat IHitem]]; [by split|]. split.
  - intros vm dest meta w Hmeta Hdoc Hsig. cbn [Compiler.compile].
    rewrite (not_aborted _ _ Hsig), Hslot.
    unfold targetNeedCheckRepeat. rewrite Hmeta, Hrep.
    rewrite bool_decide_eq_false_2 by (by intros [? ?]).
    rewrite bool_decide_eq_true_2 by done. cbn [negb andb]. rewrite Hdoc.
    unfold compileRepeat. rewrite Hrep. cbv zeta.
    set (created := call (createBlock host vm dest) w).
    set (w1 := setHeap (initRepeat host created.1 (heap created.2)) created.2).
    destruct (Hlist vm created.1 (heap w1)) as (x & l & Hx & Hfalsy).
    change ((call (watchRepeat host vm created.1 repeat) w1).1)
      with ((watchRepeat host vm created.1 repeat (heap w1)).1).
    rewrite Hx. unfold Repeat.indexed. cbn [imap compileItems].
    rewrite IHitem; [done|done|apply Hblock|done].
  - intros vm dest x w Hfalsy Hdoc Hsig. cbn [Compiler.compile].
    rewrite (not_aborted _ _ Hsig), Hslot.
    unfold targetNeedCheckRepeat, targetNeedCheckShown. cbn [m_repeat m_shown].
    rewrite Hshown.
    rewrite (bool_decide_eq_true_2 (is_Some (Some x))) by done. cbn [negb andb].
    rewrite (bool_decide_eq_false_2 (is_Some None)) by (by intros [? ?]).
    rewrite (bool_decide_eq_true_2 (is_Some (Some shown))) by done.
    cbn [negb andb]. rewrite Hdoc.
    unfold compileShown. rewrite Hshown. cbv zeta. cbn [m_repeat]. rewrite Hfalsy.
    set (created := call (createBlock host vm dest) w).
    set (w1 := setHeap (pushBlock host dest created.1 (heap created.2)) created.2).
    change ((call (watchShown host vm created.1 shown) w1).1)
      with ((watchShown host vm created.1 shown (heap w1)).1).
    rewrite Hshow.
    apply IHrepeat; [done|apply Hblock|done].
Qed.

(** X21. The slot test comes first: on a [slot] node neither a repeat nor
    a shown directive nor anything in [meta] is looked at.  The node
    compiles exactly as the same node without directives does. *)
Theorem slot_ignores_directives fuel vm target dest meta meta' w :
  targetIsSlot target = true →
  compile fuel vm target dest meta w
  = compile fuel vm (withoutDirectives target) dest meta' w.
Proof.
  intros Hslot. destruct fuel as [|fuel]; [done|]. cbn [Compiler.compile].
  destruct (aborted vm w); [done|].
  unfold targetIsSlot in *. cbn [withoutDirectives t_type]. by rewrite Hslot.
Qed.

(** X22. When the native side answers the attachment of a new element
    with the signal [-1] (an app exists, no abort so far, no tree mode),
    [compileNativeComponent] returns with that signal recorded and
    compiles none of the element's children, whatever they are. *)
Theorem refused_attachment_skips_children vm template dest type w :
  hasApp vm = true →
  lastSignal w ≠ Some (-1) →
  t_append template ≠ Some "tree" →
  (attachTarget host (nativeElement host vm template dest type (heap w)).1 dest
     (nativeElement host vm template dest type (heap w)).2).1 = Some (-1) →
  ∃ w',
    (∀ cmp, compileNativeComponent host cmp vm template dest type w = Some w')
    ∧ lastSignal w' = Some (-1)
    ∧ warnings w' = warnings w
    ∧ treeModeParentNode w' = treeModeParentNode w
    ∧ heap w'
      = (attachTarget host (nativeElement host vm template dest type (heap w)).1 dest
           (nativeElement host vm template dest type (heap w)).2).2.
Proof.
  intros Happ Hsig Htree Hrefused.
  eexists. split; [|split_and!].
  - intros cmp. unfold compileNativeComponent. cbv zeta.
    rewrite (bool_decide_eq_false_2 (t_append template = Some "tree")) by done.
    cbn [andb negb].
    assert (Hgo : stopped vm None (call (nativeElement host vm template dest type) w).2
                  = false).
    { unfold stopped, signalOf. rewrite Happ. by apply bool_decide_eq_false_2. }
    rewrite Hgo. cbn [negb andb fst snd].
    unfold call. cbn [fst snd heap setHeap].
    rewrite Hrefused. unfold setSignal. rewrite Happ.
    unfold stopped, signalOf. cbn [lastSignal]. rewrite Happ.
    rewrite bool_decide_eq_true_2 by done. cbn [negb andb]. reflexivity.
  - done.
  - done.
  - done.
  - done.
Qed.

End CompilerMore.

Lemma falsy_repeat_item_under_shown_never_returns_witness :
  Compiler.compile CompilerSamples.zeroListHost Compiler.sampleCustom 50
    Compiler.sampleVm CompilerSamples.repeatedAndShown
    (Compiler.DElement "root" "div") Compiler.noMeta Compiler.freshWorld = None.
Proof.
  apply (falsy_repeat_item_under_shown_never_returns CompilerSamples.zeroListHost
           Compiler.sampleCustom 50 Compiler.sampleVm CompilerSamples.repeatedAndShown
           (Compiler.DElement "root" "div") Compiler.noMeta Compiler.freshWorld
           (Compiler.RepeatGetter 0) 1%nat);
    try reflexivity.
  - intros vm d h. by exists (Repeat.ItemNum 0), [Repeat.ItemNum 1].
  - simpl. discriminate.
Defined.

Lemma slot_ignores_directives_witness :
  Compiler.compile Compiler.sampleHost Compiler.sampleCustom 5 Compiler.sampleVm
    CompilerSamples.slotWithDirectives (Compiler.DElement "root" "div")
    Compiler.noMeta Compiler.freshWorld
  = Compiler.compile Compiler.sampleHost Compiler.sampleCustom 5 Compiler.sampleVm
      (CompilerSamples.withoutDirectives CompilerSamples.slotWithDirectives)
      (Compiler.DElement "root" "div") Compiler.noMeta Compiler.freshWorld.
Proof.
  apply (slot_ignores_directives Compiler.sampleHost Compiler.sampleCustom).
  reflexivity.
Defined.

Lemma refused_attachment_skips_children_witness :
  ∃ w',
    (∀ cmp, Compiler.compileNativeComponent Compiler.sampleHost cmp Compiler.sampleVm
              (Compiler.withChildren (Compiler.leaf "stop") [Compiler.leaf "text"])
              (Compiler.DElement "root" "div") "stop" Compiler.freshWorld = Some w')
    ∧ Compiler.lastSignal w' = Some (-1)
    ∧ Compiler.warnings w' = []
    ∧ Compiler.treeModeParentNode w' = None
    ∧ Compiler.heap w' = ["stop"].
Proof.
  apply (refused_attachment_skips_children Compiler.sampleHost Compiler.sampleVm
           (Compiler.withChildren (Compiler.leaf "stop") [Compiler.leaf "text"])
           (Compiler.DElement "root" "div") "stop" Compiler.freshWorld);
    try reflexivity; simpl; discriminate.
Defined.

(** ** The event table *)

Section EventFacts.
Import Js Events.

Lemma tableLookup_snoc t type d type' :
  tableLookup (t ++ [(type, d)]) type'
  = match tableLookup t type' with
    | Some x => Some x
    | None => if String.eqb type type' then Some d else None
    end.
Proof.
  induction t as [|[k x] t IH]; simpl; [done|].
  by destruct (String.eqb k type').
Qed.

Lemma tableDelete_snoc t type d :
  tableLookup t type = None → tableDelete (t ++ [(type, d)]) type = t.
Proof.
  induction t as [|[k x] t IH]; simpl.
  - by rewrite String.eqb_refl.
  - destruct (String.eqb k type); [done|]. intros Hn. by rewrite IH.
Qed.

Lemma registered_snoc t type d : registered (t ++ [(type, d)]) type = true.
Proof.
  unfold registered. rewrite tableLookup_snoc, String.eqb_refl.
  rewrite bool_decide_eq_true_2; [done|]. by destruct (tableLookup t type).
Qed.

Lemma registered_own t type :
  tableLookup t type = None → protoMember type = false → registered t type = false.
Proof.
  intros Hn Hp. unfold registered. rewrite Hn, Hp.
  rewrite bool_decide_eq_false_2; [done|]. by intros [? ?].
Qed.

(** X25. For one event type the first registration wins: a second
    [addEvent] with the same type, whatever handler and parameters it
    brings, changes neither the table nor the messages sent. *)
Theorem addEvent_first_wins t type handler params handler' params' :
  addEvent (addEvent t type handler params) type handler' params'
  = addEvent t type handler params.
Proof.
  unfold addEvent at 2 3.
  destruct (registered (default [] (t_event t)) type) eqn:Hd.
  - unfold addEvent. simpl. by rewrite Hd.
  - unfold addEvent. simpl. by rewrite registered_snoc.
Qed.

(** X26. [addEvent] followed by [removeEvent] for a type that had no
    handler and that is not the name of a member of [Object.prototype]:
    the table is as it was (an absent table has become an empty one),
    every other type keeps its handler, and with a task center exactly one
    [addEvent] and then one [removeEvent] message are sent.  (For a type
    such as [toString] the table answers with the inherited member:
    [addEvent] does nothing and [removeEvent] still sends its message.) *)
Theorem addEvent_removeEvent_round_trip t type handler params :
  handlerOf t type = None →
  protoMember type = false →
  let t' := removeEvent (addEvent t type handler params) type in
  t_event t' = Some (default [] (t_event t))
  ∧ (∀ other, handlerOf t' other = handlerOf t other)
  ∧ t_sent t' = t_sent t ++ (if t_center t
                             then [AddEvent (t_ref t) type; RemoveEvent (t_ref t) type]
                             else []).
Proof.
  unfold handlerOf. intros Hnone Hproto. cbv zeta.
  unfold addEvent. rewrite (registered_own _ _ Hnone Hproto).
  unfold removeEvent. cbn [t_event t_ref t_center t_sent].
  rewrite registered_snoc. cbn [t_event t_ref t_center t_sent default].
  rewrite tableDelete_snoc by done. split_and!; [done|done|].
  destruct (t_center t); [by rewrite <-app_assoc|by rewrite !app_nil_r].
Qed.

Lemma addEvent_removeEvent_round_trip_witness :
  let t := mkTarget 3 (Some [("click", mkDesc (Some 1%nat) None)]) true [] in
  let t' := removeEvent (addEvent t "appear" (Some 2%nat) None) "appear" in
  t_event t' = Some (default [] (t_event t))
  ∧ (∀ other, handlerOf t' other = handlerOf t other)
  ∧ t_sent t' = t_sent t ++ (if t_center t
                             then [AddEvent (t_ref t) "appear"; RemoveEvent (t_ref t) "appear"]
                             else []).
Proof.
  apply (addEvent_removeEvent_round_trip
           (mkTarget 3 (Some [("click", mkDesc (Some 1%nat) None)]) true [])
           "appear" (Some 2%nat) None).
  - reflexivity.
  - reflexivity.
Defined.

End EventFacts.

(** ** Sibling references *)

Section SiblingFacts.
Import Js Vdom Shape.

Context {X : Type} (view : Node → X).

Lemma preserves_bind {A B} (m : M A) (k : A → M B) :
  preserves view m → (∀ a, preserves view (k a)) → preserves view (m ≫= k).
Proof.
  intros Hm Hk st b st2 (a & st1 & H1 & H2)%bind_Done_inv.
  rewrite (Hk _ _ _ _ H2). by apply (Hm _ _ _ H1).
Qed.

Lemma preserves_ret {A} (a : A) : preserves view (mret a).
Proof. intros st b st' [= _ ->]. done. Qed.

Lemma preserves_gets {A} (f : Store → A) : preserves view (gets f).
Proof. intros st b st' [= _ ->]. done. Qed.

Lemma preserves_getNode i : preserves view (getNode i).
Proof.
  intros st n st'. unfold getNode. destruct (heap st !! i); [|done]. by intros [= _ ->].
Qed.

Lemma preserves_putNode i n st st' :
  (view <$> heap st !! i) = Some (view n) →
  putNode i n st = Done tt st' → view <$> heap st' = view <$> heap st.
Proof.
  intros Hi [= <-]. simpl. rewrite list_fmap_insert.
  apply list_insert_id. by rewrite list_lookup_fmap.
Qed.

Lemma preserves_updBase i f :
  (∀ n, view (withBase f n) = view n) → preserves view (updBase i f).
Proof.
  intros Hf st [] st'. unfold updBase, getNode, mbind, M_bind, bind.
  destruct (heap st !! i) as [n|] eqn:Hn; [|done].
  apply preserves_putNode. rewrite Hn. simpl. by rewrite Hf.
Qed.

Lemma preserves_updElement i f :
  (∀ b e, view (Element b (f e)) = view (Element b e)) →
  preserves view (updElement i f).
Proof.
  intros Hf st [] st'. unfold updElement, getNode, mbind, M_bind, bind.
  destruct (heap st !! i) as [[b e|b]|] eqn:Hn; [|done..].
  apply preserves_putNode. rewrite Hn. simpl. by rewrite Hf.
Qed.

Lemma preserves_getList pure i : preserves view (getList pure i).
Proof.
  intros st l st'. unfold getList, getElement, getNode, mbind, M_bind, bind.
  destruct (heap st !! i) as [[b e|b]|]; [|done..]. simpl.
  destruct (if pure then _ else _); [|done]. by intros [= _ ->].
Qed.

Lemma preserves_when b m : preserves view m → preserves view (when b m).
Proof. intros Hm. destruct b; [done|apply preserves_ret]. Qed.

Lemma preserves_send m : preserves view (send m).
Proof. intros st [] st'. by intros [= <-]. Qed.

Lemma preserves_registerIn o node : preserves view (registerIn o node).
Proof.
  intros st [] st'. unfold registerIn. destruct o as [d|]; [|done].
  destruct (docs st !! d); [|done]. by intros [= <-].
Qed.

Lemma preserves_forEach {A} (l : list A) (f : A → M unit) :
  (∀ x, preserves view (f x)) → preserves view (forEach l f).
Proof.
  intros Hf. induction l as [|x l IH]; simpl; [apply preserves_ret|].
  apply preserves_bind; [apply Hf|]. intros _. exact IH.
Qed.

Lemma preserves_linkChild_go fuel : ∀ this child,
  (∀ p x, view (withBase (set_parentNode p) x) = view x) →
  (∀ d o x, view (withBase (set_doc d o) x) = view x) →
  (∀ dp x, view (withBase (set_depth dp) x) = view x) →
  preserves view (linkChild_go fuel this child).
Proof.
  induction fuel as [|fuel IH]; intros this child Hp Hd Hdp; cbn [linkChild_go].
  { by intros st a st'. }
  apply preserves_bind; [by apply preserves_updBase|].
  intros _. apply preserves_bind; [apply preserves_getNode|]. intros t.
  apply preserves_bind.
  { destruct (docId (base t)); [|apply preserves_ret].
    apply preserves_bind; [by apply preserves_updBase|]. intros _.
    apply preserves_bind; [apply preserves_registerIn|]. intros _.
    by apply preserves_updBase. }
  intros _. apply preserves_bind; [apply preserves_getNode|]. intros [cb ce|cb].
  - destruct (children ce); [|by intros st a st'].
    apply preserves_forEach. intros x. by apply IH.
  - apply preserves_ret.
Qed.

End SiblingFacts.

Section SiblingLinks.
Import Js Vdom Shape.

Lemma siblings_updBase i f g st st' :
  (∀ n, siblingsOf (withBase f n) = g (siblingsOf n)) →
  updBase i f st = Done tt st' →
  siblings st' = alter g i (siblings st).
Proof.
  intros Hf. unfold updBase, getNode, mbind, M_bind, bind.
  destruct (heap st !! i) as [n|] eqn:Hn; [|done]. intros [= <-].
  unfold siblings. simpl. rewrite list_fmap_insert, Hf.
  apply list_eq. intros j. destruct (decide (i = j)) as [<-|Hne].
  - rewrite list_lookup_alter_eq, list_lookup_fmap, Hn. simpl.
    apply list_lookup_insert_eq. rewrite length_fmap. by eapply lookup_lt_Some.
  - by rewrite list_lookup_alter_ne, list_lookup_insert_ne.
Qed.

Lemma siblings_updBaseOpt o f g st st' :
  (∀ n, siblingsOf (withBase f n) = g (siblingsOf n)) →
  updBaseOpt o f st = Done tt st' →
  siblings st' = match o with Some i => alter g i (siblings st) | None => siblings st end.
Proof.
  intros Hf. destruct o as [i|]; simpl; [by apply siblings_updBase|].
  by intros [= <-].
Qed.

Lemma nth_z_last {A} (l : list A) : nth_z l (Z.of_nat (length l) - 1) = last l.
Proof.
  unfold nth_z. destruct l as [|x l _] using rev_ind; [done|].
  rewrite length_app, last_snoc. simpl.
  destruct (Z.ltb_spec (Z.of_nat (length l + 1) - 1) 0) as [Hneg|_]; [lia|].
  replace (Z.to_nat (Z.of_nat (length l + 1) - 1)) with (length l) by lia.
  by rewrite lookup_app_r, Nat.sub_diag by lia.
Qed.

Lemma nth_z_end {A} (l : list A) : nth_z l (Z.of_nat (length l)) = None.
Proof.
  unfold nth_z. destruct (Z.ltb_spec (Z.of_nat (length l)) 0) as [Hneg|_]; [done|].
  apply lookup_ge_None. lia.
Qed.

Lemma preserves_insertIndex_plain {X} (view : Node → X) this target k pure :
  (∀ b f e, view (Element b (f e)) = view (Element b e)) →
  preserves view (insertIndex this target k false pure).
Proof.
  intros Hv. unfold insertIndex.
  apply preserves_bind; [apply preserves_getList|]. intros l. cbv zeta.
  apply preserves_bind; [apply preserves_updElement; intros; apply Hv|]. intros _.
  apply preserves_bind; [apply preserves_ret|]. intros _. apply preserves_ret.
Qed.

(** The sibling references after [insertIndex] at the end of [children]. *)
Lemma insertIndex_append_siblings st this target b e l r st' :
  heap st !! this = Some (Element b e) →
  children e = Some l →
  insertIndex this target (Z.of_nat (length l)) true false st = Done r st' →
  siblings st'
  = alter (fun s => (s.1, None)) target
      (alter (fun s => (last l, s.2)) target
         (match last l with
          | Some c => alter (fun s => (s.1, Some target)) c (siblings st)
          | None => siblings st
          end)).
Proof.
  intros Hthis Hl. unfold insertIndex.
  erewrite bind_Done.
  2:{ unfold getList. erewrite bind_Done by (by eapply getElement_lookup).
      rewrite Hl. reflexivity. }
  cbv zeta. destruct (Z.ltb_spec (Z.of_nat (length l)) 0) as [Hneg|_]; [lia|].
  rewrite nth_z_last, nth_z_end.
  intros (a1 & st1 & H1 & Hrest)%bind_Done_inv.
  apply (preserves_updElement siblingsOf) in H1; [|done]. fold (siblings st1) in H1.
  fold (siblings st) in H1.
  apply bind_Done_inv in Hrest as (a2 & st2 & H2 & Hret).
  injection Hret as _ <-. cbn [when] in H2.
  apply bind_Done_inv in H2 as (a3 & s3 & H3 & H2).
  apply bind_Done_inv in H2 as (a4 & s4 & H4 & H2).
  apply bind_Done_inv in H2 as (a5 & s5 & H5 & H6).
  destruct a3, a4, a5, a2.
  apply (siblings_updBaseOpt _ _ (fun s => (s.1, Some target))) in H3; [|by intros []].
  apply (siblings_updBase _ _ (fun s => (last l, s.2))) in H4; [|by intros []].
  apply (siblings_updBase _ _ (fun s => (s.1, None))) in H5; [|by intros []].
  simpl in H6. injection H6 as <-.
  by rewrite H5, H4, H3, H1.
Qed.

Lemma preserves_hasDoc {X} (view : Node → X) this : preserves view (hasDoc this).
Proof.
  apply preserves_bind; [apply preserves_getNode|]. intros t. apply preserves_ret.
Qed.

Lemma preserves_lengthOf {X} (view : Node → X) pure this :
  preserves view (lengthOf pure this).
Proof.
  apply preserves_bind; [apply preserves_getList|]. intros t. apply preserves_ret.
Qed.

Lemma preserves_registerNode {X} (view : Node → X) this node :
  preserves view (registerNode this node).
Proof.
  apply preserves_bind; [apply preserves_getNode|]. intros t. apply preserves_registerIn.
Qed.

Lemma preserves_getTaskCenter {X} (view : Node → X) this :
  preserves view (getTaskCenter this).
Proof.
  apply preserves_bind; [apply preserves_getNode|]. intros t. apply preserves_gets.
Qed.

(** X28. [appendChild] of a detached node without children of its own
    links it behind the last child: afterwards its [previousSibling] is the
    former last child (or nothing) and its [nextSibling] is empty, the
    former last child has it as [nextSibling] and keeps its own
    [previousSibling], and the sibling references of every other node are
    as before. *)
Theorem appendChild_links_siblings st this node tb te n l p :
  heap st !! this = Some (Element tb te) →
  children te = Some l →
  pureChildren te = Some p →
  heap st !! node = Some n →
  parentNode (base n) = None →
  leaf n →
  node ≠ this →
  node ∉ l →
  Forall (fun c => is_Some (heap st !! c)) l →
  docReady st (docId tb) (ownerDocument tb) →
  ∃ st',
    appendChild this node st = Done tt st'
    ∧ siblings st' !! node = Some (last l, None)
    ∧ (∀ c s, last l = Some c → siblings st !! c = Some s →
         siblings st' !! c = Some (s.1, Some node))
    ∧ (∀ i, i ≠ node → last l ≠ Some i → siblings st' !! i = siblings st !! i).
Proof.
  intros Hthis Hl Hp Hnode Hpar Hleaf Hne Hout Hall Hdoc.
  destruct (appendChild_runs st this node tb te n l p) as ([] & st' & Hrun & _); try done.
  pose proof (element_skeleton _ _ _ _ Hthis) as Hst.
  pose proof (skeleton_lookup _ _ _ Hnode) as Hsn. unfold skel in Hsn.
  destruct (linkChild_leaf_runs st this node te (docId tb) (ownerDocument tb)
              (elementData n) (docId (base n)) (ownerDocument (base n)))
    as ([] & st1 & Hlink & Hsk1 & _); try done.
  { intros e He. destruct n as [nb ne|nb]; [|done]. injection He as <-. exact Hleaf. }
  assert (Hsib1 : siblings st1 = siblings st).
  { revert Hlink. unfold linkChild. intros (fuel & s & Hf & Hgo)%bind_Done_inv.
    injection Hf as _ <-.
    apply (preserves_linkChild_go siblingsOf) in Hgo; [done|..].
    - by intros ? [].
    - by intros ? ? [].
    - by intros ? []. }
  assert (Hthis1 : skeleton st1 !! this = Some (Some te, docId tb, ownerDocument tb)).
  { rewrite Hsk1. by rewrite list_lookup_insert_ne. }
  destruct (skeleton_element _ _ _ _ _ Hthis1) as (b1 & Hheap1 & _).
  destruct (lengthOf_runs st1 false this _ _ _ l Hthis1 Hl) as (len & s & Hlen & -> & ->).
  destruct (insertIndex_runs st1 this node (Z.of_nat (length l)) true false
              te (docId tb) (ownerDocument tb) l Hthis1 Hl)
    as (r & st2 & Hins & _).
  { rewrite Hsk1. apply valid_insert. rewrite Hsn. eauto. }
  { intros _. apply valid_heap in Hall. eapply Forall_impl; [exact Hall|].
    intros c Hc. rewrite Hsk1. by apply valid_insert. }
  pose proof (insertIndex_append_siblings _ _ _ _ _ _ _ _ Hheap1 Hl Hins) as Hsib2.
  assert (Hsib' : siblings st' = siblings st2).
  { revert Hrun. unfold appendChild.
    erewrite bind_Done by (by apply getNode_lookup).
    unfold foreignParent, hasParent. rewrite Hpar.
    rewrite (bool_decide_eq_false_2 (is_Some None)) by (by intros [? ?]). cbn [negb].
    erewrite bind_Done by exact Hlink.
    erewrite bind_Done by exact Hlen.
    erewrite bind_Done by exact Hins.
    apply (preserves_bind siblingsOf); [apply preserves_hasDoc|]. intros d.
    apply preserves_bind; [apply preserves_when, preserves_registerNode|]. intros _.
    apply preserves_when.
    apply preserves_bind; [apply preserves_lengthOf|]. intros plen.
    apply preserves_bind; [by apply preserves_insertIndex_plain|]. intros _.
    apply preserves_bind; [apply preserves_getTaskCenter|]. intros tc.
    apply preserves_when, preserves_send. }
  assert (Hlast : last l ≠ Some node).
  { intros Hlast. apply Hout. apply list_elem_of_lookup.
    rewrite last_lookup in Hlast. eauto. }
  assert (Hnsib : siblings st !! node = Some (siblingsOf n)).
  { unfold siblings. by rewrite list_lookup_fmap, Hnode. }
  exists st'. split; [exact Hrun|]. rewrite Hsib', Hsib2, Hsib1. split_and!.
  - rewrite !list_lookup_alter_eq.
    destruct (last l) as [c|] eqn:Hc.
    + rewrite list_lookup_alter_ne by (intros ->; done). by rewrite Hnsib.
    + by rewrite Hnsib.
  - intros c s Hc Hs. rewrite Hc.
    rewrite !list_lookup_alter_ne by (intros ->; by rewrite Hc in Hlast).
    by rewrite list_lookup_alter_eq, Hs.
  - intros i Hi Hil. rewrite !list_lookup_alter_ne by done.
    destruct (last l) as [c|]; [|done].
    apply list_lookup_alter_ne. by intros ->.
Qed.

End SiblingLinks.

Lemma appendChild_links_siblings_witness :
  ∃ st',
    Vdom.appendChild 0 3 Shape.partialStore = Vdom.Done tt st'
    ∧ Shape.siblings st' !! 3%nat = Some (last [1%nat; 2%nat], None)
    ∧ (∀ c s, last [1%nat; 2%nat] = Some c → Shape.siblings Shape.partialStore !! c = Some s →
         Shape.siblings st' !! c = Some (s.1, Some 3%nat))
    ∧ (∀ i, i ≠ 3%nat → last [1%nat; 2%nat] ≠ Some i →
         Shape.siblings st' !! i = Shape.siblings Shape.partialStore !! i).
Proof.
  apply (appendChild_links_siblings Shape.partialStore 0 3 Shape.parentBase
           (Shape.parentData [1%nat; 2%nat] [1%nat]) Vdom.newElement
           [1%nat; 2%nat] [1%nat]);
    try (vm_compute; reflexivity); try lia.
  - apply (bool_decide_unpack _). vm_compute. exact I.
  - repeat constructor; eexists; vm_compute; reflexivity.
  - right. exists 0%nat. split; [reflexivity|]. by eexists.
Defined.
